(** * ldapserver: the accept loop, the session engine and the shutdown protocol

    A shallow embedding of [server.go] and [client.go] of
    github.com/ps78674/ldapserver.

    - [Module Server] embeds [Server.serve], [Server.Stop],
      [Server.ListenAndServe] and [Server.ListenAndServeTLS] as functions
      that consume a script of what the environment answers (the results
      of [Accept], of [net.Listen], ...) and produce the events the code
      performs, in order, with the way the call ends.
    - [Module Client] embeds one session ([client.serve], [client.close],
      the write pump, the shutdown watcher, [ProcessRequestMessage] and the
      [ResponseWriter]) as a transition system: every goroutine has a
      program counter, a label of a schedule picks the goroutine that moves
      and carries what the environment answers, and [step] is the
      executable transition function.

    - [Module ServerFacts] and [Module ClientFacts] hold the properties:
      evaluations of the accept loop, and invariants of the session's
      transition system proved for every schedule.
    - [Module ServerMore] and [Module SessionFacts] go on from there: the
      numbering and counting of sessions, the stop signal and the startup
      of the server; the barriers, the registry, the socket, the faults
      and the end of the teardown of a session.
    - [Module SessionClaims] holds what needs all of these invariants:
      the order and the flush of the teardown, the dispatch of a request
      and its call, and the cancellation channel.

    Go's run-time faults are modelled as such: a method call on a nil
    interface value, closing a nil or a closed channel and sending on a
    closed channel panic; sending on a nil channel blocks forever; a map
    read by one goroutine while another writes it aborts the process. A
    panic that nothing recovers ends the process: a session that has
    panicked takes no further step. *)

From stdpp Require Import base gmap list strings.
From Stdlib Require Import ZArith Lia.

Open Scope Z_scope.

(** ** Go channels

    [make(chan T, n)] is [make_chan n]; a nil channel is [None]. *)

Record chan (A : Type) : Type := mk_chan {
  chan_cap : nat;
  chan_buf : list A;
  chan_closed : bool
}.
Arguments mk_chan {A} _ _ _.
Arguments chan_cap {A} _.
Arguments chan_buf {A} _.
Arguments chan_closed {A} _.

Definition make_chan {A : Type} (n : nat) : chan A :=
  {| chan_cap := n; chan_buf := []; chan_closed := false |}.

Inductive CloseResult (A : Type) : Type :=
| ClosePanic                      (* close of nil channel / close of closed channel *)
| CloseOk (c : chan A).
Arguments ClosePanic {A}.
Arguments CloseOk {A} _.

(** [close(ch)] *)
Definition chan_close {A : Type} (ch : option (chan A)) : CloseResult A :=
  match ch with
  | None => ClosePanic
  | Some c =>
      if chan_closed c then ClosePanic
      else CloseOk {| chan_cap := chan_cap c; chan_buf := chan_buf c; chan_closed := true |}
  end.

Inductive SendResult (A : Type) : Type :=
| SendPanic                       (* send on closed channel *)
| SendBlocked                     (* the sender cannot proceed now *)
| SendHandoff                     (* taken by the receiver that waits on the channel *)
| SendBuffered (c : chan A).      (* stored in the channel's buffer *)
Arguments SendPanic {A}.
Arguments SendBlocked {A}.
Arguments SendHandoff {A}.
Arguments SendBuffered {A} _.

(** [ch <- v]; [receiver_waits] says whether a goroutine is blocked in a
    receive on [ch]. *)
Definition chan_send {A : Type} (ch : option (chan A)) (receiver_waits : bool) (v : A)
  : SendResult A :=
  match ch with
  | None => SendBlocked
  | Some c =>
      if chan_closed c then SendPanic
      else if receiver_waits && (match chan_buf c with [] => true | _ => false end)
      then SendHandoff
      else if (length (chan_buf c) <? chan_cap c)%nat then
        SendBuffered {| chan_cap := chan_cap c; chan_buf := chan_buf c ++ [v];
                        chan_closed := false |}
      else SendBlocked
  end.

(** ** The server: [server.go] *)

Module Server.

(** What [Listener.Accept] returns as its error: the type assertion of
    [err] to a net.OpError pointer succeeds on the first two, and
    [opErr.Timeout()] holds on the first. *)
Inductive AcceptError : Type :=
| OpErrorTimeout
| OpErrorOther
| OtherError.

(** The test [ok && opErr.Timeout()] of the accept loop. *)
Definition is_timeout (e : AcceptError) : bool :=
  match e with
  | OpErrorTimeout => true
  | _ => false
  end.

(** A [net.Conn], known by its remote address. The nil interface value
    is [None]. *)
Record Conn : Type := mk_conn { RemoteAddr : string }.

Inductive HandlerRef : Type := mk_handler (id : nat).

(** The fields of [Server] the accept loop and [Stop] use. [chDone] is
    [true] once the channel is closed; [wg] is the counter of the
    [sync.WaitGroup]. *)
Record t : Type := mk_server {
  ReadTimeout : Z;
  WriteTimeout : Z;
  Handler : option HandlerRef;
  chDone : bool;
  wg : nat
}.

(** [NewServer] *)
Definition NewServer : t :=
  {| ReadTimeout := 0; WriteTimeout := 0; Handler := None; chDone := false; wg := 0 |}.

Definition set_chDone (s : t) (b : bool) : t :=
  {| ReadTimeout := ReadTimeout s; WriteTimeout := WriteTimeout s;
     Handler := Handler s; chDone := b; wg := wg s |}.

Definition set_Handler (s : t) (h : option HandlerRef) : t :=
  {| ReadTimeout := ReadTimeout s; WriteTimeout := WriteTimeout s;
     Handler := h; chDone := chDone s; wg := wg s |}.

Definition set_ReadTimeout (s : t) (d : Z) : t :=
  {| ReadTimeout := d; WriteTimeout := WriteTimeout s;
     Handler := Handler s; chDone := chDone s; wg := wg s |}.

Definition set_WriteTimeout (s : t) (d : Z) : t :=
  {| ReadTimeout := ReadTimeout s; WriteTimeout := d;
     Handler := Handler s; chDone := chDone s; wg := wg s |}.

(** [s.wg.Add(1)] *)
Definition wg_Add (s : t) : t :=
  {| ReadTimeout := ReadTimeout s; WriteTimeout := WriteTimeout s;
     Handler := Handler s; chDone := chDone s; wg := S (wg s) |}.

Inductive PanicReason : Type :=
| MultipleHandlers                (* "LDAP: multiple Handler registrations" *)
| NoHandler                       (* log.Panicln("No LDAP Request Handler defined") *)
| NilDereference                  (* a method called on a nil net.Conn *)
| CloseOfClosedChannel.

Inductive LogLine : Type :=
| LogListening (addr : string)
| LogNoHandler
| LogStopping
| LogAcceptError (e : AcceptError)
| LogAccepted (numero : nat) (addr : string)
| LogGracefully
| LogAllClosed.

(** The error a listen operation failed with: what [net.Listen],
    [tls.Listen] or [tls.LoadX509KeyPair] returned for these arguments. *)
Inductive Cause : Type :=
| NetListenError (network addr : string)
| TlsListenError (network addr : string)
| KeyPairError (certFile keyFile : string).

(** [fmt.Errorf(format, e)]: the error sent to the caller, made of the
    format and of the cause [e] it is applied to. *)
Inductive GoError : Type :=
| Errorf (format : string) (e : Cause).

(** What the code does, in the order it does it. *)
Inductive Event : Type :=
| EvLog (l : LogLine)
| EvNetListen (addr : string)
| EvLoadX509KeyPair (certFile keyFile : string)
| EvTlsListen (addr : string)
| EvSendError (e : GoError)       (* ch <- fmt.Errorf(...), received by the caller *)
| EvCloseErrChan                  (* close(ch) *)
| EvListenerClose
| EvAccept
| EvSetReadDeadline (c : Conn)
| EvSetWriteDeadline (c : Conn)
| EvNewClient (rwc : option Conn) (* s.newClient(rw) *)
| EvWgAdd
| EvGoServe (numero : nat) (rwc : Conn)   (* go cli.serve() *)
| EvCloseChDone
| EvPanic (r : PanicReason).

Inductive Outcome : Type :=
| Returned
| Panicked (r : PanicReason)
| Blocked.                        (* waits: for a connection, for the caller to
                                     receive, or forever on a nil channel *)

(** One answer of the environment: a concurrent [Stop] has closed
    [chDone] before the next [select]; [Accept] returns [(rw, err)]; the
    caller of the listen operation receives from the channel [ch] it
    passed. *)
Inductive Env : Type :=
| EnvStop
| EnvAccept (rw : option Conn) (err : option AcceptError)
| EnvReceive.

(** [Handle]. The handler is an interface value: [None] is the nil
    interface, which [Handle] accepts like any other value, so that
    [s.Handler] is nil afterwards as it was before. *)
Definition Handle (s : t) (h : option HandlerRef) : Outcome * t :=
  match Handler s with
  | Some _ => (Panicked MultipleHandlers, s)
  | None => (Returned, set_Handler s h)
  end.

(** The body of the [for] loop of [serve], from the [select] on; [i] is
    the loop's counter of sessions. The events are those of the loop
    alone: the deferred [Listener.Close] is added by [serve]. *)
Fixpoint serve_loop (s : t) (i : nat) (env : list Env) : Outcome * t * list Event :=
  if chDone s then
    (Returned, s, [EvLog LogStopping; EvListenerClose])
  else
    match env with
    | [] => (Blocked, s, [EvAccept])
    | EnvStop :: env' => serve_loop (set_chDone s true) i env'
    | EnvReceive :: env' =>
        (* a receive of the caller from [ch]: not the loop's business *)
        serve_loop s i env'
    | EnvAccept rw err :: env' =>
        (* rw, err := s.Listener.Accept() *)
        let after_read_deadline : option (list Event) :=
          if ReadTimeout s =? 0 then Some []
          else match rw with
               | Some c => Some [EvSetReadDeadline c]
               | None => None
               end in
        match after_read_deadline with
        | None => (Panicked NilDereference, s, [EvAccept; EvPanic NilDereference])
        | Some ev_r =>
            let after_write_deadline : option (list Event) :=
              if WriteTimeout s =? 0 then Some []
              else match rw with
                   | Some c => Some [EvSetWriteDeadline c]
                   | None => None
                   end in
            match after_write_deadline with
            | None =>
                (Panicked NilDereference, s, EvAccept :: ev_r ++ [EvPanic NilDereference])
            | Some ev_w =>
                let pre := EvAccept :: ev_r ++ ev_w in
                let go_on (ev_e : list Event) : Outcome * t * list Event :=
                  (* cli := s.newClient(rw); i = i + 1; cli.Numero = i *)
                  match rw with
                  | None =>
                      (* cli.rwc.RemoteAddr() on a nil rwc *)
                      (Panicked NilDereference, s,
                       pre ++ ev_e ++ [EvNewClient rw; EvPanic NilDereference])
                  | Some c =>
                      let '(o, s', evs) := serve_loop (wg_Add s) (S i) env' in
                      (o, s',
                       pre ++ ev_e ++
                       [EvNewClient rw; EvLog (LogAccepted (S i) (RemoteAddr c));
                        EvWgAdd; EvGoServe (S i) c] ++ evs)
                  end in
                match err with
                | Some e =>
                    if is_timeout e then
                      (* continue *)
                      let '(o, s', evs) := serve_loop s i env' in (o, s', pre ++ evs)
                    else go_on [EvLog (LogAcceptError e)]
                | None => go_on []
                end
            end
        end
    end.

(** [serve]: [defer s.Listener.Close()], the check of the handler, then
    the loop. The deferred call runs when [serve] returns or panics, not
    while it waits in [Accept]. *)
Definition serve (s : t) (env : list Env) : Outcome * t * list Event :=
  match Handler s with
  | None => (Panicked NoHandler, s, [EvLog LogNoHandler; EvPanic NoHandler; EvListenerClose])
  | Some _ =>
      let '(o, s', evs) := serve_loop s 0 env in
      (o, s', match o with
              | Blocked => evs
              | _ => evs ++ [EvListenerClose]
              end)
  end.

(** What the environment answers while the listener is set up. *)
Record ListenEnv : Type := mk_listen_env {
  listen_fails : bool;            (* net.Listen / tls.Listen returns an error *)
  keypair_fails : bool            (* tls.LoadX509KeyPair returns an error *)
}.

(** [for _, option := range options { option(s) }] *)
Definition apply_options (options : list (t -> t)) (s : t) : t :=
  fold_left (fun acc option => option acc) options s.

(** The end of both listen operations: [close(ch)] when [ch] is not nil,
    the log line, the options in order, [s.serve()]. *)
Definition listen_then_serve (s : t) (addr : string) (ch_nil : bool)
    (options : list (t -> t)) (env : list Env) : Outcome * t * list Event :=
  let s' := apply_options options s in
  let '(o, s'', evs) := serve s' env in
  (o, s'', (if ch_nil then [] else [EvCloseErrChan]) ++ [EvLog (LogListening addr)] ++ evs).

(** Whether the caller is receiving from [ch]. *)
Definition caller_receives (env : list Env) : bool :=
  match env with
  | EnvReceive :: _ => true
  | _ => false
  end.

(** [ch <- fmt.Errorf(format, e); return]: a send on a nil channel never
    returns. The caller makes [ch] without a buffer ([make(chan error)]
    in the example's [main]), so the send on it goes through, and the
    operation returns, when the caller receives, and waits until then. *)
Definition report_error (s : t) (ch_nil : bool) (format : string) (e : Cause)
    (before : list Event) (env : list Env) : Outcome * t * list Event :=
  if ch_nil then (Blocked, s, before)
  else if caller_receives env then (Returned, s, before ++ [EvSendError (Errorf format e)])
  else (Blocked, s, before).

(** [ListenAndServe] *)
Definition ListenAndServe (s : t) (addr : string) (ch_nil : bool)
    (options : list (t -> t)) (lenv : ListenEnv) (env : list Env)
  : Outcome * t * list Event :=
  if listen_fails lenv then
    report_error s ch_nil "error creating listener: %s" (NetListenError "tcp" addr)
      [EvNetListen addr] env
  else
    let '(o, s', evs) := listen_then_serve s addr ch_nil options env in
    (o, s', EvNetListen addr :: evs).

(** [ListenAndServeTLS] *)
Definition ListenAndServeTLS (s : t) (addr certFile keyFile : string) (ch_nil : bool)
    (options : list (t -> t)) (lenv : ListenEnv) (env : list Env)
  : Outcome * t * list Event :=
  let addr := if String.eqb addr "" then ":686"%string else addr in
  if keypair_fails lenv then
    report_error s ch_nil "error creating certificate chain: %s"
      (KeyPairError certFile keyFile)
      [EvLoadX509KeyPair certFile keyFile] env
  else if listen_fails lenv then
    report_error s ch_nil "error creating listener: %s" (TlsListenError "tcp" addr)
      [EvLoadX509KeyPair certFile keyFile; EvTlsListen addr] env
  else
    let '(o, s', evs) := listen_then_serve s addr ch_nil options env in
    (o, s', EvLoadX509KeyPair certFile keyFile :: EvTlsListen addr :: evs).

(** [Stop], as the goroutine that calls it: [close(s.chDone)], then
    [s.wg.Wait()], which returns once the counter is zero. *)
Inductive StopPc : Type :=
| StopCalled
| StopWaits
| StopReturned
| StopPanicked.

Definition Stop_step (pc : StopPc) (s : t) : option (StopPc * t * list Event) :=
  match pc with
  | StopCalled =>
      if chDone s then
        Some (StopPanicked, s, [EvPanic CloseOfClosedChannel])
      else
        Some (StopWaits, set_chDone s true, [EvCloseChDone; EvLog LogGracefully])
  | StopWaits =>
      if (wg s =? 0)%nat then Some (StopReturned, s, [EvLog LogAllClosed]) else None
  | StopReturned | StopPanicked => None
  end.

(** [Stop] run as far as it gets on a server whose sessions do not move
    meanwhile. *)
Definition Stop (s : t) : StopPc * t * list Event :=
  match Stop_step StopCalled s with
  | Some (pc1, s1, ev1) =>
      match Stop_step pc1 s1 with
      | Some (pc2, s2, ev2) => (pc2, s2, ev1 ++ ev2)
      | None => (pc1, s1, ev1)
      end
  | None => (StopCalled, s, [])
  end.

Definition events_of (r : Outcome * t * list Event) : list Event := snd r.
Definition outcome_of (r : Outcome * t * list Event) : Outcome := fst (fst r).
Definition server_of (r : Outcome * t * list Event) : t := snd (fst r).

Definition is_new_client (e : Event) : bool :=
  match e with EvNewClient _ => true | _ => false end.
Definition is_go_serve (e : Event) : bool :=
  match e with EvGoServe _ _ => true | _ => false end.
Definition is_accept (e : Event) : bool :=
  match e with EvAccept => true | _ => false end.
Definition is_close_chDone (e : Event) : bool :=
  match e with EvCloseChDone => true | _ => false end.

(** *** Sample data and statements *)

(** A server with a handler registered, as [Handle] leaves it. *)
Definition registered_server : t := set_Handler NewServer (Some (mk_handler 0)).

Definition peer : Conn := {| RemoteAddr := "192.0.2.7:50321" |}.

(** The address handed to [tls.Listen], when the call gets that far. *)
Definition tls_listen_addr (evs : list Event) : option string :=
  head (omap (fun e => match e with EvTlsListen a => Some a | _ => None end) evs).

(** C3, as the claim states its second half: after a first [Stop], a
    second [Stop] neither faults nor closes the signal again. *)
Definition second_Stop_is_harmless : Prop :=
  forall s : t, chDone s = false ->
    let '(_, s1, _) := Stop s in
    let '(pc2, _, ev2) := Stop s1 in
    pc2 <> StopPanicked /\ filter (fun e => is_close_chDone e = true) ev2 = [].

(** *** Reading the events *)

(** The ordinals of the sessions started with [go cli.serve()], in the
    order they were started. *)
Definition launched (evs : list Event) : list nat :=
  omap (fun e => match e with EvGoServe i _ => Some i | _ => None end) evs.

(** What the caller got from its channel [ch]: an error it received
    ([Some e]) or the closing of the channel ([None]). *)
Definition reports (evs : list Event) : list (option GoError) :=
  omap (fun e => match e with
                 | EvSendError e => Some (Some e)
                 | EvCloseErrChan => Some None
                 | _ => None
                 end) evs.

(** [Accept] returned no connection. *)
Definition nil_accept (e : Env) : bool :=
  match e with
  | EnvAccept None _ => true
  | _ => false
  end.

(** What the accept loop keeps, whatever the listener answers: the
    sessions are numbered from [i] on, each is counted once in the
    barrier, the handler stays, the caller's channel is not touched, and
    the loop ends as its outcome says. *)
Definition loop_ok (s : t) (i : nat) (env : list Env) (r : Outcome * t * list Event) : Prop :=
  let '(o, s', evs) := r in
  launched evs = seq (S i) (length (launched evs)) /\
  wg s' = (wg s + length (launched evs))%nat /\
  Handler s' = Handler s /\
  reports evs = [] /\
  match o with
  | Returned => chDone s' = true
  | Blocked => True
  | Panicked r => r = NilDereference /\ existsb nil_accept env = true
  end.

End Server.

(** ** One session: [client.go] *)

Module Client.

(** *** Messages

    The envelope and the operations belong to the codec
    (github.com/ps78674/goldap/message); the session looks at the message
    identifier, at whether the operation is an unbind request, and at the
    name of an extended request. *)
Inductive ProtocolOp : Type :=
| UnbindRequest
| ExtendedRequest (requestName : string)
| ExtendedResponse (resultCode : Z) (diagnosticMessage responseName : string)
| OtherOp (tag : Z) (body : string).      (* bind, search, compare, modify, ... *)

Record LDAPMessage : Type := mk_message {
  messageID : Z;
  protocolOp : ProtocolOp
}.

(** Modelled from the spec: [ldap.NewLDAPMessageWithProtocolOp] belongs
    to the codec, which is not in the source files. An envelope is "one
    length-framed binary unit carrying a message identifier and one
    operation payload": this is the envelope around [po], its identifier
    not yet set. *)
Definition NewLDAPMessageWithProtocolOp (po : ProtocolOp) : LDAPMessage :=
  {| messageID := 0; protocolOp := po |}.

(** Modelled from the spec: [ldap.SetMessageID] belongs to the codec; it
    is what "stamps the session-assigned request identifier onto the
    outgoing envelope". *)
Definition SetMessageID (m : LDAPMessage) (id : Z) : LDAPMessage :=
  {| messageID := id; protocolOp := protocolOp m |}.

(** What the session takes from the server and from the package's
    constants (their values are not part of the two source files). *)
Record Config : Type := mk_config {
  ReadTimeout : Z;                        (* c.srv.ReadTimeout *)
  WriteTimeout : Z;                       (* c.srv.WriteTimeout *)
  onNewConnection : option bool;          (* nil, or: does it return an error? *)
  NoticeOfStartTLS : string;
  NoticeOfDisconnection : string;
  LDAPResultUnwillingToPerform : Z
}.

(** *** What the environment answers *)

Inductive ReadError : Type :=
| ErrTimeout                              (* a net.OpError with Timeout() *)
| ErrEOF                                  (* io.EOF *)
| ErrOther.

(** The result of [c.ReadPacket()] followed by [messagePacket.readMessage()]. *)
Inductive ReadResult : Type :=
| ReadFails (e : ReadError)
| DecodeFails
| ReadOk (m : LDAPMessage).

(** Which of [m.Write()], [c.bw.Write] and [c.bw.Flush] return an error. *)
Record IOOutcome : Type := mk_io {
  encode_fails : bool;
  write_fails : bool;
  flush_fails : bool
}.

Definition io_ok : IOOutcome :=
  {| encode_fails := false; write_fails := false; flush_fails := false |}.

(** *** Goroutines *)

(** The steps of [close], in the order of its statements. *)
Inductive CloseStep : Type :=
| CloseClosing                            (* close(c.closing) *)
| ImminentDeadline                        (* c.rwc.SetReadDeadline(now + 1ms) *)
| Sweep                                   (* lock; go request.Abandon() for each; unlock *)
| WaitHandlers                            (* c.wg.Wait() *)
| CloseChanOut                            (* close(c.chanOut) *)
| WaitWriteDone                           (* <-c.writeDone *)
| CloseConn                               (* c.rwc.Close() *)
| SrvWgDone.                              (* c.srv.wg.Done() *)

(** The session's goroutine, which runs [serve] and then, deferred,
    [close]. *)
Inductive MainPc : Type :=
| PcStart                                 (* serve is entered *)
| PcRead                                  (* at the head of the read loop *)
| PcInline (k : nat)                      (* inside c.ProcessRequestMessage, called *)
| PcClose (st : CloseStep)                (* close: the next step to perform *)
| PcClosed.

(** The write pump: [for msg := range c.chanOut { c.writeMessage(msg) };
    close(c.writeDone)]. *)
Inductive PumpPc : Type :=
| PumpIdle                                (* not spawned *)
| PumpRecv                                (* waits in the receive of the range *)
| PumpWrite (m : LDAPMessage)             (* holds m, about to call writeMessage *)
| PumpExited.

(** The goroutine that listens for the server's shutdown. *)
Inductive WatcherPc : Type :=
| WIdle                                   (* not spawned *)
| WSelect                                 (* in the select *)
| WSend (m : LDAPMessage)                 (* c.wg.Add(1) done, at c.chanOut <- m *)
| WSent                                   (* before c.wg.Done() and the deadline *)
| WExited.

(** One invocation of [ProcessRequestMessage]. *)
Inductive Where : Type :=
| OnReadLoop                              (* c.ProcessRequestMessage(&message) *)
| OwnGoroutine.                           (* go c.ProcessRequestMessage(&message) *)

Inductive InvPc : Type :=
| HEntered                                (* before the Message is built and registered *)
| HServing                                (* inside c.srv.Handler.ServeLDAP(w, &m) *)
| HReturning                              (* deferred c.unregisterRequest(&m) is next *)
| HLeaving                                (* deferred c.wg.Done() is next *)
| HExited.

Record Invocation : Type := mk_invocation {
  inv_message : LDAPMessage;              (* Message.LDAPMessage *)
  inv_where : Where;
  inv_pc : InvPc;
  inv_Done : option (chan bool)           (* Message.Done *)
}.

(** What a handler may do with its [ResponseWriter] and its [Message]. *)
Inductive HandlerAct : Type :=
| HWrite (po : ProtocolOp)                (* w.Write(po) *)
| HWriteMessage (m : LDAPMessage)         (* w.WriteMessage(m) *)
| HPollDone                               (* a receive from m.Done *)
| HAbandon (id : Z)                       (* m.Client.GetMessageByID(id), then Abandon() *)
| HLookupRace (id : Z)                    (* m.Client.GetMessageByID(id), while another
                                             goroutine writes c.requestList *)
| HReturn.

(** A schedule is a list of labels: which goroutine moves, with what the
    environment answers to it. *)
Inductive Label : Type :=
| LMain                                   (* serve's prologue, or a step of close *)
| LRead (r : ReadResult)                  (* one iteration of the read loop *)
| LPump (io : IOOutcome)
| LWatcher (shutdown : bool)              (* the case the select takes *)
| LInvoke (k : nat) (a : HandlerAct)
| LAbandon (j : nat)                      (* a goroutine spawned by the sweep of close *)
| LStop.                                  (* the server closes chDone *)

Inductive LogLine : Type :=
| LogHookError
| LogReadTimeout
| LogReadError
| LogDecodeError
| LogClosing
| LogClosed.

Inductive PanicReason : Type :=
| CloseOfNilOrClosedChannel
| SendOnClosedChannel
| NegativeWaitGroup
| NilMap
| ConcurrentMapAccess.                    (* fatal error: concurrent map read and map write *)

Inductive Origin : Type :=
| ByReadLoop
| ByWatcher
| ByClose.

Inductive Event : Type :=
| EvLog (l : LogLine)
| EvSetReadDeadline (who : Origin)
| EvSetWriteDeadline
| EvRead (r : ReadResult)
| EvGo (k : nat)                          (* go c.ProcessRequestMessage(&message) *)
| EvCall (k : nat)                        (* c.ProcessRequestMessage(&message) *)
| EvRegister (id : Z) (k : nat)
| EvUnregister (id : Z) (k : nat)
| EvEnqueue (m : LDAPMessage)             (* a send on c.chanOut went through *)
| EvWriteMessage (m : LDAPMessage) (io : IOOutcome)
| EvCloseClosing
| EvSweep (reqs : list (Z * nat))
| EvHandlersDone
| EvCloseChanOut
| EvWriteDone
| EvConnClose
| EvSrvWgDone
| EvCloseWriteDone                        (* the pump's close(c.writeDone) *)
| EvAbandonPosted (k : nat)
| EvShutdown                              (* chDone is closed *)
| EvPanic (r : PanicReason).

(** What [m.Write()] hands to the buffered writer: the encoding of the
    envelope, or, when it returns an error, whatever it returned beside
    the error. *)
Inductive Data : Type :=
| Encoded (m : LDAPMessage)
| Residue (m : LDAPMessage).

(** What one call of [writeMessage] put on the socket: the data whole
    when [c.bw.Write] and [c.bw.Flush] both succeed, at most a part of
    it (a prefix, possibly empty) when one of them returns an error. *)
Inductive Frame : Type :=
| Whole (d : Data)
| Part (d : Data).

(** The session: the fields of [client], the program counters of its
    goroutines, what reached the socket, and the events so far (oldest
    first). *)
Record t : Type := mk_session {
  pc : MainPc;
  closing : option (chan bool);
  chanOut : option (chan LDAPMessage);
  writeDone : option (chan bool);
  wg : nat;
  requestList : option (gmap Z nat);      (* message id to the invocation that owns it *)
  rwc_closed : bool;
  wire : list LDAPMessage;                (* the envelopes that reached the socket whole *)
  pump : PumpPc;
  watcher : WatcherPc;
  invocations : list Invocation;
  abandons : list (nat * bool);           (* go request.Abandon(): target, posted *)
  srv_chDone : bool;
  srv_wg : nat;
  panicked : bool;
  trace : list Event;
  socket : list Frame                     (* what the calls of writeMessage put on the socket *)
}.

Definition set_pc (s : t) (v : MainPc) : t :=
  {| pc := v; closing := closing s; chanOut := chanOut s; writeDone := writeDone s;
     wg := wg s; requestList := requestList s; rwc_closed := rwc_closed s; wire := wire s;
     pump := pump s; watcher := watcher s; invocations := invocations s;
     abandons := abandons s; srv_chDone := srv_chDone s; srv_wg := srv_wg s;
     panicked := panicked s; trace := trace s;
     socket := socket s |}.

Definition set_closing (s : t) (v : option (chan bool)) : t :=
  {| pc := pc s; closing := v; chanOut := chanOut s; writeDone := writeDone s; wg := wg s;
     requestList := requestList s; rwc_closed := rwc_closed s; wire := wire s;
     pump := pump s; watcher := watcher s; invocations := invocations s;
     abandons := abandons s; srv_chDone := srv_chDone s; srv_wg := srv_wg s;
     panicked := panicked s; trace := trace s;
     socket := socket s |}.

Definition set_chanOut (s : t) (v : option (chan LDAPMessage)) : t :=
  {| pc := pc s; closing := closing s; chanOut := v; writeDone := writeDone s; wg := wg s;
     requestList := requestList s; rwc_closed := rwc_closed s; wire := wire s;
     pump := pump s; watcher := watcher s; invocations := invocations s;
     abandons := abandons s; srv_chDone := srv_chDone s; srv_wg := srv_wg s;
     panicked := panicked s; trace := trace s;
     socket := socket s |}.

Definition set_writeDone (s : t) (v : option (chan bool)) : t :=
  {| pc := pc s; closing := closing s; chanOut := chanOut s; writeDone := v; wg := wg s;
     requestList := requestList s; rwc_closed := rwc_closed s; wire := wire s;
     pump := pump s; watcher := watcher s; invocations := invocations s;
     abandons := abandons s; srv_chDone := srv_chDone s; srv_wg := srv_wg s;
     panicked := panicked s; trace := trace s;
     socket := socket s |}.

Definition set_wg (s : t) (v : nat) : t :=
  {| pc := pc s; closing := closing s; chanOut := chanOut s; writeDone := writeDone s;
     wg := v; requestList := requestList s; rwc_closed := rwc_closed s; wire := wire s;
     pump := pump s; watcher := watcher s; invocations := invocations s;
     abandons := abandons s; srv_chDone := srv_chDone s; srv_wg := srv_wg s;
     panicked := panicked s; trace := trace s;
     socket := socket s |}.

Definition set_requestList (s : t) (v : option (gmap Z nat)) : t :=
  {| pc := pc s; closing := closing s; chanOut := chanOut s; writeDone := writeDone s;
     wg := wg s; requestList := v; rwc_closed := rwc_closed s; wire := wire s;
     pump := pump s; watcher := watcher s; invocations := invocations s;
     abandons := abandons s; srv_chDone := srv_chDone s; srv_wg := srv_wg s;
     panicked := panicked s; trace := trace s;
     socket := socket s |}.

Definition set_rwc_closed (s : t) (v : bool) : t :=
  {| pc := pc s; closing := closing s; chanOut := chanOut s; writeDone := writeDone s;
     wg := wg s; requestList := requestList s; rwc_closed := v; wire := wire s;
     pump := pump s; watcher := watcher s; invocations := invocations s;
     abandons := abandons s; srv_chDone := srv_chDone s; srv_wg := srv_wg s;
     panicked := panicked s; trace := trace s;
     socket := socket s |}.

Definition set_wire (s : t) (v : list LDAPMessage) : t :=
  {| pc := pc s; closing := closing s; chanOut := chanOut s; writeDone := writeDone s;
     wg := wg s; requestList := requestList s; rwc_closed := rwc_closed s; wire := v;
     pump := pump s; watcher := watcher s; invocations := invocations s;
     abandons := abandons s; srv_chDone := srv_chDone s; srv_wg := srv_wg s;
     panicked := panicked s; trace := trace s;
     socket := socket s |}.

Definition set_pump (s : t) (v : PumpPc) : t :=
  {| pc := pc s; closing := closing s; chanOut := chanOut s; writeDone := writeDone s;
     wg := wg s; requestList := requestList s; rwc_closed := rwc_closed s; wire := wire s;
     pump := v; watcher := watcher s; invocations := invocations s; abandons := abandons s;
     srv_chDone := srv_chDone s; srv_wg := srv_wg s; panicked := panicked s;
     trace := trace s;
     socket := socket s |}.

Definition set_watcher (s : t) (v : WatcherPc) : t :=
  {| pc := pc s; closing := closing s; chanOut := chanOut s; writeDone := writeDone s;
     wg := wg s; requestList := requestList s; rwc_closed := rwc_closed s; wire := wire s;
     pump := pump s; watcher := v; invocations := invocations s; abandons := abandons s;
     srv_chDone := srv_chDone s; srv_wg := srv_wg s; panicked := panicked s;
     trace := trace s;
     socket := socket s |}.

Definition set_invocations (s : t) (v : list Invocation) : t :=
  {| pc := pc s; closing := closing s; chanOut := chanOut s; writeDone := writeDone s;
     wg := wg s; requestList := requestList s; rwc_closed := rwc_closed s; wire := wire s;
     pump := pump s; watcher := watcher s; invocations := v; abandons := abandons s;
     srv_chDone := srv_chDone s; srv_wg := srv_wg s; panicked := panicked s;
     trace := trace s;
     socket := socket s |}.

Definition set_abandons (s : t) (v : list (nat * bool)) : t :=
  {| pc := pc s; closing := closing s; chanOut := chanOut s; writeDone := writeDone s;
     wg := wg s; requestList := requestList s; rwc_closed := rwc_closed s; wire := wire s;
     pump := pump s; watcher := watcher s; invocations := invocations s; abandons := v;
     srv_chDone := srv_chDone s; srv_wg := srv_wg s; panicked := panicked s;
     trace := trace s;
     socket := socket s |}.

Definition set_srv_chDone (s : t) (v : bool) : t :=
  {| pc := pc s; closing := closing s; chanOut := chanOut s; writeDone := writeDone s;
     wg := wg s; requestList := requestList s; rwc_closed := rwc_closed s; wire := wire s;
     pump := pump s; watcher := watcher s; invocations := invocations s;
     abandons := abandons s; srv_chDone := v; srv_wg := srv_wg s; panicked := panicked s;
     trace := trace s;
     socket := socket s |}.

Definition set_srv_wg (s : t) (v : nat) : t :=
  {| pc := pc s; closing := closing s; chanOut := chanOut s; writeDone := writeDone s;
     wg := wg s; requestList := requestList s; rwc_closed := rwc_closed s; wire := wire s;
     pump := pump s; watcher := watcher s; invocations := invocations s;
     abandons := abandons s; srv_chDone := srv_chDone s; srv_wg := v;
     panicked := panicked s; trace := trace s;
     socket := socket s |}.

Definition set_panicked (s : t) (v : bool) : t :=
  {| pc := pc s; closing := closing s; chanOut := chanOut s; writeDone := writeDone s;
     wg := wg s; requestList := requestList s; rwc_closed := rwc_closed s; wire := wire s;
     pump := pump s; watcher := watcher s; invocations := invocations s;
     abandons := abandons s; srv_chDone := srv_chDone s; srv_wg := srv_wg s; panicked := v;
     trace := trace s;
     socket := socket s |}.

Definition set_trace (s : t) (v : list Event) : t :=
  {| pc := pc s; closing := closing s; chanOut := chanOut s; writeDone := writeDone s;
     wg := wg s; requestList := requestList s; rwc_closed := rwc_closed s; wire := wire s;
     pump := pump s; watcher := watcher s; invocations := invocations s;
     abandons := abandons s; srv_chDone := srv_chDone s; srv_wg := srv_wg s;
     panicked := panicked s; trace := v; socket := socket s |}.

Definition set_socket (s : t) (v : list Frame) : t :=
  {| pc := pc s; closing := closing s; chanOut := chanOut s; writeDone := writeDone s;
     wg := wg s; requestList := requestList s; rwc_closed := rwc_closed s; wire := wire s;
     pump := pump s; watcher := watcher s; invocations := invocations s;
     abandons := abandons s; srv_chDone := srv_chDone s; srv_wg := srv_wg s;
     panicked := panicked s; trace := trace s; socket := v |}.

Definition log_event (s : t) (e : Event) : t := set_trace s (trace s ++ [e]).

Definition panic (s : t) (r : PanicReason) : t :=
  set_panicked (log_event s (EvPanic r)) true.

(** A session as [Server.serve] hands it to [go cli.serve()]: the server
    has counted it ([s.wg.Add(1)]), so [n] is at least one there. *)
Definition init (done : bool) (n : nat) : t :=
  {| pc := PcStart; closing := None; chanOut := None; writeDone := None; wg := 0;
     requestList := None; rwc_closed := false; wire := []; pump := PumpIdle;
     watcher := WIdle; invocations := []; abandons := []; srv_chDone := done;
     srv_wg := n; panicked := false; trace := []; socket := [] |}.

(** *** [ResponseWriter] *)

Record responseWriterImpl : Type := mk_writer {
  w_messageID : Z
}.

(** The envelope [responseWriterImpl.Write] sends on [w.chanOut]. *)
Definition Write (w : responseWriterImpl) (po : ProtocolOp) : LDAPMessage :=
  SetMessageID (NewLDAPMessageWithProtocolOp po) (w_messageID w).

(** The envelope [responseWriterImpl.WriteMessage] sends on [w.chanOut]. *)
Definition WriteMessage (w : responseWriterImpl) (m : LDAPMessage) : LDAPMessage :=
  SetMessageID m (w_messageID w).

(** Whether the write pump is blocked in its receive. *)
Definition pump_receives (s : t) : bool :=
  match pump s with
  | PumpRecv => true
  | _ => false
  end.

(** [c.chanOut <- m], by any goroutine: [None] when the sender stays
    blocked. When the send goes through, [k] goes on with the state. *)
Definition send_chanOut (s : t) (m : LDAPMessage) (k : t -> t) : option t :=
  match chan_send (chanOut s) (pump_receives s) m with
  | SendPanic => Some (panic s SendOnClosedChannel)
  | SendBlocked => None
  | SendHandoff => Some (k (log_event (set_pump s (PumpWrite m)) (EvEnqueue m)))
  | SendBuffered c => Some (k (log_event (set_chanOut s (Some c)) (EvEnqueue m)))
  end.

(** *** [writeMessage] and the write pump *)

(** What [c.bw.Write(data.Bytes())] and [c.bw.Flush()] put on the
    socket, [data] being what [m.Write()] returned: the two calls are
    made whatever [m.Write()] returned. *)
Definition sent_frame (m : LDAPMessage) (io : IOOutcome) : Frame :=
  let data := if encode_fails io then Residue m else Encoded m in
  if write_fails io || flush_fails io then Part data else Whole data.

(** [writeMessage]: the three errors are dropped; what the calls put on
    the socket is added to it, and the envelope is on the wire when no
    error occurred. Nothing is returned and nothing is logged. *)
Definition writeMessage (s : t) (m : LDAPMessage) (io : IOOutcome) : t :=
  let s := set_socket s (socket s ++ [sent_frame m io]) in
  if encode_fails io || write_fails io || flush_fails io then s
  else set_wire s (wire s ++ [m]).

(** One step of the write pump. At [PumpWrite m] the step is the return
    of [writeMessage], with what its three calls returned; a write to
    the socket that does not return is a schedule without that step
    ([close] sets a read deadline only). *)
Definition pump_step (io : IOOutcome) (s : t) : option t :=
  match pump s with
  | PumpRecv =>
      match chanOut s with
      | Some c =>
          match chan_buf c with
          | m :: rest =>
              Some (set_pump
                      (set_chanOut s (Some {| chan_cap := chan_cap c; chan_buf := rest;
                                              chan_closed := chan_closed c |}))
                      (PumpWrite m))
          | [] =>
              if chan_closed c then
                (* the range ends: close(c.writeDone) *)
                match chan_close (writeDone s) with
                | ClosePanic => Some (panic s CloseOfNilOrClosedChannel)
                | CloseOk d =>
                    Some (log_event (set_pump (set_writeDone s (Some d)) PumpExited)
                            EvCloseWriteDone)
                end
              else None
          end
      | None => None
      end
  | PumpWrite m =>
      Some (log_event (set_pump (writeMessage s m io) PumpRecv) (EvWriteMessage m io))
  | PumpIdle | PumpExited => None
  end.

(** *** The shutdown watcher *)

Definition notice (cfg : Config) : LDAPMessage :=
  NewLDAPMessageWithProtocolOp
    (ExtendedResponse (LDAPResultUnwillingToPerform cfg) "server is about to stop"
       (NoticeOfDisconnection cfg)).

(** [c.wg.Done()] *)
Definition wg_Done (s : t) (k : t -> t) : t :=
  match wg s with
  | O => panic s NegativeWaitGroup
  | S n => k (set_wg s n)
  end.

Definition is_closed {A : Type} (ch : option (chan A)) : bool :=
  match ch with
  | Some c => chan_closed c
  | None => false
  end.

Definition watcher_step (cfg : Config) (shutdown : bool) (s : t) : option t :=
  match watcher s with
  | WSelect =>
      if shutdown then
        if srv_chDone s then
          Some (set_watcher (set_wg s (S (wg s))) (WSend (notice cfg)))
        else None
      else
        if is_closed (closing s) then Some (set_watcher s WExited) else None
  | WSend m => send_chanOut s m (fun s' => set_watcher s' WSent)
  | WSent =>
      Some (wg_Done s (fun s' =>
              log_event (set_watcher s' WExited) (EvSetReadDeadline ByWatcher)))
  | WIdle | WExited => None
  end.

(** *** [ProcessRequestMessage] *)

Definition set_invocation (s : t) (k : nat) (i : Invocation) : t :=
  set_invocations s (<[k := i]> (invocations s)).

Definition with_pc (i : Invocation) (p : InvPc) : Invocation :=
  {| inv_message := inv_message i; inv_where := inv_where i; inv_pc := p;
     inv_Done := inv_Done i |}.

Definition with_Done (i : Invocation) (d : option (chan bool)) : Invocation :=
  {| inv_message := inv_message i; inv_where := inv_where i; inv_pc := inv_pc i;
     inv_Done := d |}.

(** The [Message] of [ProcessRequestMessage]: [Done: make(chan bool, 2)]. *)
Definition new_Message (i : Invocation) : Invocation :=
  with_pc (with_Done i (Some (make_chan 2))) HServing.

(** [registerRequest], under [c.mutex]. *)
Definition registerRequest (s : t) (id : Z) (k : nat) : t :=
  match requestList s with
  | Some rl => log_event (set_requestList s (Some (<[id := k]> rl))) (EvRegister id k)
  | None => panic s NilMap
  end.

(** [unregisterRequest], under [c.mutex]. *)
Definition unregisterRequest (s : t) (id : Z) (k : nat) : t :=
  log_event (set_requestList s (delete id <$> requestList s)) (EvUnregister id k).

(** [GetMessageByID] *)
Definition GetMessageByID (s : t) (id : Z) : option nat :=
  match requestList s with
  | Some rl => rl !! id
  | None => None
  end.

(** Modelled from the spec: [Message.Abandon] is not in the two source
    files. "Abandon: a client- or server-initiated request to stop
    processing an in-flight request; delivered as a cooperative
    cancellation signal": it posts one signal on the request's
    cancellation channel [Done]; no receiver is assumed to wait. *)
Definition Abandon (done : option (chan bool)) : SendResult bool :=
  chan_send done false true.

(** [Abandon] on the invocation [k], by a goroutine of its own or by a
    handler: [None] when the poster stays blocked. *)
Definition post_Abandon (s : t) (k : nat) : option t :=
  match invocations s !! k with
  | Some i =>
      match Abandon (inv_Done i) with
      | SendBuffered c =>
          Some (log_event (set_invocation s k (with_Done i (Some c))) (EvAbandonPosted k))
      | SendHandoff => Some (log_event s (EvAbandonPosted k))
      | SendPanic => Some (panic s SendOnClosedChannel)
      | SendBlocked => None
      end
  | None => None
  end.

(** Whether the next step of an invocation writes [c.requestList]: it is
    about to run [registerRequest] or the deferred [unregisterRequest]. *)
Definition registry_writer (i : Invocation) : bool :=
  match inv_pc i with
  | HEntered | HReturning => true
  | _ => false
  end.

(** [GetMessageByID] reads [c.requestList] without taking [c.mutex],
    while [registerRequest] and [unregisterRequest] write it under the
    mutex from other goroutines. A handler's lookup that runs while such
    a write does is a concurrent map read and map write, on which the Go
    run time aborts the process. *)
Definition lookup_races (s : t) : bool := existsb registry_writer (invocations s).

(** One step of the call [k] of [ProcessRequestMessage]: the [Message]
    is built and registered; the handler acts ([a] says how) or returns;
    the deferred [unregisterRequest] runs; the deferred [c.wg.Done()]
    runs and the call returns. When the read loop made the call itself,
    its return takes the loop through [continue] to the head of the
    loop, in that last step. A lookup in the registry by the handler is
    [HAbandon] when no other goroutine writes the map meanwhile, and
    [HLookupRace] when one does. *)
Definition ProcessRequestMessage (k : nat) (a : HandlerAct) (s : t) : option t :=
  match invocations s !! k with
  | None => None
  | Some i =>
      let id := messageID (inv_message i) in
      match inv_pc i with
      | HEntered =>
          Some (registerRequest (set_invocation s k (new_Message i)) id k)
      | HServing =>
          let w := {| w_messageID := id |} in
          match a with
          | HWrite po => send_chanOut s (Write w po) (fun s' => s')
          | HWriteMessage m => send_chanOut s (WriteMessage w m) (fun s' => s')
          | HPollDone =>
              match inv_Done i with
              | Some c =>
                  match chan_buf c with
                  | _ :: rest =>
                      Some (set_invocation s k
                              (with_Done i (Some {| chan_cap := chan_cap c; chan_buf := rest;
                                                    chan_closed := chan_closed c |})))
                  | [] => None
                  end
              | None => None
              end
          | HAbandon id' =>
              match GetMessageByID s id' with
              | Some k' => post_Abandon s k'
              | None => Some s
              end
          | HLookupRace _ =>
              if lookup_races s then Some (panic s ConcurrentMapAccess) else None
          | HReturn => Some (set_invocation s k (with_pc i HReturning))
          end
      | HReturning =>
          Some (unregisterRequest (set_invocation s k (with_pc i HLeaving)) id k)
      | HLeaving =>
          Some (wg_Done (set_invocation s k (with_pc i HExited)) (fun s' =>
                  match inv_where i with
                  | OnReadLoop => set_pc s' PcRead      (* continue *)
                  | OwnGoroutine => s'
                  end))
      | HExited => None
      end
  end.

Definition abandon_step (j : nat) (s : t) : option t :=
  match abandons s !! j with
  | Some (k, false) =>
      match post_Abandon s k with
      | Some s' => Some (set_abandons s' (<[j := (k, true)]> (abandons s')))
      | None => None
      end
  | _ => None
  end.

(** *** [serve] *)

(** From the entry of [serve] to the head of the read loop. *)
Definition serve_prologue (cfg : Config) (s : t) : t :=
  let s := set_closing s (Some (make_chan 0)) in
  match onNewConnection cfg with
  | Some true =>
      (* return: the deferred close runs *)
      set_pc (log_event s (EvLog LogHookError)) (PcClose CloseClosing)
  | _ =>
      let s := set_chanOut s (Some (make_chan 0)) in
      let s := set_writeDone s (Some (make_chan 0)) in
      let s := set_pump s PumpRecv in
      let s := set_watcher s WSelect in
      let s := set_requestList s (Some ∅) in
      set_pc s PcRead
  end.

Definition is_starttls (cfg : Config) (m : LDAPMessage) : bool :=
  match protocolOp m with
  | ExtendedRequest name => String.eqb name (NoticeOfStartTLS cfg)
  | _ => false
  end.

Definition is_unbind (m : LDAPMessage) : bool :=
  match protocolOp m with
  | UnbindRequest => true
  | _ => false
  end.

Definition new_invocation (m : LDAPMessage) (w : Where) : Invocation :=
  {| inv_message := m; inv_where := w; inv_pc := HEntered; inv_Done := None |}.

(** One iteration of the read loop, given what the read returns. *)
Definition read_iteration (cfg : Config) (r : ReadResult) (s : t) : t :=
  let s := if ReadTimeout cfg =? 0 then s else log_event s (EvSetReadDeadline ByReadLoop) in
  let s := if WriteTimeout cfg =? 0 then s else log_event s EvSetWriteDeadline in
  let s := log_event s (EvRead r) in
  let leave (s : t) : t := set_pc s (PcClose CloseClosing) in
  match r with
  | ReadFails ErrTimeout => leave (log_event s (EvLog LogReadTimeout))
  | ReadFails ErrEOF => leave s
  | ReadFails ErrOther => leave (log_event s (EvLog LogReadError))
  | DecodeFails => leave (log_event s (EvLog LogDecodeError))
  | ReadOk m =>
      if is_unbind m then leave s
      else
        let k := length (invocations s) in
        let s := set_wg s (S (wg s)) in
        if is_starttls cfg m then
          set_pc
            (log_event (set_invocations s (invocations s ++ [new_invocation m OnReadLoop]))
               (EvCall k))
            (PcInline k)
        else
          log_event (set_invocations s (invocations s ++ [new_invocation m OwnGoroutine]))
            (EvGo k)
  end.

(** *** [close] *)

Definition registered (s : t) : list (Z * nat) :=
  match requestList s with
  | Some rl => map_to_list rl
  | None => []
  end.

Definition close (st : CloseStep) (s : t) : option t :=
  match st with
  | CloseClosing =>
      let s := log_event s (EvLog LogClosing) in
      match chan_close (closing s) with
      | ClosePanic => Some (panic s CloseOfNilOrClosedChannel)
      | CloseOk c =>
          Some (set_pc (log_event (set_closing s (Some c)) EvCloseClosing)
                  (PcClose ImminentDeadline))
      end
  | ImminentDeadline =>
      Some (set_pc (log_event s (EvSetReadDeadline ByClose)) (PcClose Sweep))
  | Sweep =>
      let reqs := registered s in
      Some (set_pc
              (log_event
                 (set_abandons s (abandons s ++ map (fun r => (snd r, false)) reqs))
                 (EvSweep reqs))
              (PcClose WaitHandlers))
  | WaitHandlers =>
      if (wg s =? 0)%nat then
        Some (set_pc (log_event s EvHandlersDone) (PcClose CloseChanOut))
      else None
  | CloseChanOut =>
      match chan_close (chanOut s) with
      | ClosePanic => Some (panic s CloseOfNilOrClosedChannel)
      | CloseOk c =>
          Some (set_pc (log_event (set_chanOut s (Some c)) EvCloseChanOut)
                  (PcClose WaitWriteDone))
      end
  | WaitWriteDone =>
      if is_closed (writeDone s) then
        Some (set_pc (log_event s EvWriteDone) (PcClose CloseConn))
      else None
  | CloseConn =>
      Some (set_pc
              (log_event (log_event (set_rwc_closed s true) EvConnClose) (EvLog LogClosed))
              (PcClose SrvWgDone))
  | SrvWgDone =>
      match srv_wg s with
      | O => Some (panic s NegativeWaitGroup)
      | S n => Some (set_pc (log_event (set_srv_wg s n) EvSrvWgDone) PcClosed)
      end
  end.

(** *** The transition function *)

Definition step (cfg : Config) (l : Label) (s : t) : option t :=
  if panicked s then None
  else
    match l with
    | LMain =>
        match pc s with
        | PcStart => Some (serve_prologue cfg s)
        | PcClose st => close st s
        | PcRead | PcInline _ | PcClosed => None
        end
    | LRead r =>
        match pc s with
        | PcRead => Some (read_iteration cfg r s)
        | _ => None
        end
    | LPump io => pump_step io s
    | LWatcher shutdown => watcher_step cfg shutdown s
    | LInvoke k a => ProcessRequestMessage k a s
    | LAbandon j => abandon_step j s
    | LStop =>
        if srv_chDone s then None
        else Some (log_event (set_srv_chDone s true) EvShutdown)
    end.

Fixpoint run (cfg : Config) (sched : list Label) (s : t) : option t :=
  match sched with
  | [] => Some s
  | l :: sched' =>
      match step cfg l s with
      | Some s' => run cfg sched' s'
      | None => None
      end
  end.

(** *** Reading the trace *)

Definition enqueued (tr : list Event) : list LDAPMessage :=
  omap (fun e => match e with EvEnqueue m => Some m | _ => None end) tr.

Definition written (tr : list Event) : list LDAPMessage :=
  omap (fun e => match e with EvWriteMessage m _ => Some m | _ => None end) tr.

(** The number of a step of [close], as the steps are listed in the
    teardown sequence. *)
Definition step_no (st : CloseStep) : nat :=
  match st with
  | CloseClosing => 1
  | ImminentDeadline => 2
  | Sweep => 3
  | WaitHandlers => 4
  | CloseChanOut => 5
  | WaitWriteDone => 6
  | CloseConn => 7
  | SrvWgDone => 8
  end.

Definition close_event (e : Event) : option CloseStep :=
  match e with
  | EvCloseClosing => Some CloseClosing
  | EvSetReadDeadline ByClose => Some ImminentDeadline
  | EvSweep _ => Some Sweep
  | EvHandlersDone => Some WaitHandlers
  | EvCloseChanOut => Some CloseChanOut
  | EvWriteDone => Some WaitWriteDone
  | EvConnClose => Some CloseConn
  | EvSrvWgDone => Some SrvWgDone
  | _ => None
  end.

(** The steps of [close] a trace holds, by their numbers, in the order
    they happened. *)
Definition close_steps (tr : list Event) : list nat :=
  omap (fun e => step_no <$> close_event e) tr.


(** *** What the invariants talk about *)

(** The envelope the write pump holds and has not yet written. *)
Definition pump_pending (s : t) : list LDAPMessage :=
  match pump s with
  | PumpWrite m => [m]
  | _ => []
  end.

(** How many steps of [close] the session's goroutine has performed. *)
Definition progress (p : MainPc) : nat :=
  match p with
  | PcClose st => step_no st - 1
  | PcClosed => 8
  | _ => 0
  end.

(** Whether [close] has been entered. *)
Definition in_close (p : MainPc) : bool :=
  match p with
  | PcClose _ | PcClosed => true
  | _ => false
  end.

(** What holds in every state a session reaches. *)
Record Inv (s : t) : Prop := mk_Inv {
  inv_start : pc s = PcStart ->
    chanOut s = None /\ writeDone s = None /\ pump s = PumpIdle /\ watcher s = WIdle /\
    invocations s = [] /\ requestList s = None /\ abandons s = [];
  inv_nil : chanOut s = None ->
    pump s = PumpIdle /\ invocations s = [] /\ pc s <> PcRead;
  inv_chanOut : forall c, chanOut s = Some c -> chan_cap c = 0%nat /\ chan_buf c = [];
  inv_flush : enqueued (trace s) = written (trace s) ++ pump_pending s;
  inv_exited : pump s = PumpExited -> is_closed (chanOut s) = true;
  inv_writeDone : is_closed (writeDone s) = true -> pump s = PumpExited;
  inv_late : (6 <= progress (pc s))%nat -> pump s = PumpExited;
  inv_inline : forall k i, invocations s !! k = Some i -> inv_where i = OnReadLoop ->
    inv_pc i <> HExited -> pc s = PcInline k;
  inv_steps : close_steps (trace s) = seq 1 (progress (pc s));
  inv_Done_cap : forall k i c, invocations s !! k = Some i -> inv_Done i = Some c ->
    chan_cap c = 2%nat /\ (length (chan_buf c) <= 2)%nat /\ chan_closed c = false;
  inv_registry : forall rl id k, requestList s = Some rl -> rl !! id = Some k ->
    (k < length (invocations s))%nat
}.


(** A send of [m] on the outbound queue by the step [l]: it never goes
    into a buffer. With the queue open it goes through exactly when the
    write pump waits in its receive, and hands [m] to the pump; otherwise
    the sender stays blocked. On the closed queue it panics. *)
Definition blocking_send (cfg : Config) (s : t) (l : Label) (m : LDAPMessage) : Prop :=
  (step cfg l s = None <-> is_closed (chanOut s) = false /\ pump s <> PumpRecv) /\
  (is_closed (chanOut s) = false -> pump s = PumpRecv ->
   exists s', step cfg l s = Some s' /\ pump s' = PumpWrite m /\
              trace s' = trace s ++ [EvEnqueue m] /\ panicked s' = false) /\
  (is_closed (chanOut s) = true ->
   exists s', step cfg l s = Some s' /\ panicked s' = true /\
              enqueued (trace s') = enqueued (trace s)).

(** The last clause of C7 as the claim states it: once an unbind
    request is read, nothing more is sent on the outbound queue or
    written to the socket. *)
Definition silent_after_unbind (tr : list Event) : Prop :=
  forall pre m post, tr = pre ++ EvRead (ReadOk m) :: post -> is_unbind m = true ->
    enqueued post = [] /\ written post = [].

Definition unbind_silences_session : Prop :=
  forall (cfg : Config) (done : bool) (n : nat) (sched : list Label) (s : t),
    run cfg sched (init done n) = Some s -> silent_after_unbind (trace s).

(** *** Sample data

    The object identifiers are those of RFC 4511 (StartTLS, Notice of
    Disconnection); 53 is the result code unwillingToPerform. *)
Definition sample_config : Config :=
  {| ReadTimeout := 0; WriteTimeout := 0; onNewConnection := None;
     NoticeOfStartTLS := "1.3.6.1.4.1.1466.20037";
     NoticeOfDisconnection := "1.3.6.1.4.1.1466.20036";
     LDAPResultUnwillingToPerform := 53 |}.

(** The same server with an admission hook that rejects the connection. *)
Definition rejecting_config : Config :=
  {| ReadTimeout := 0; WriteTimeout := 0; onNewConnection := Some true;
     NoticeOfStartTLS := "1.3.6.1.4.1.1466.20037";
     NoticeOfDisconnection := "1.3.6.1.4.1.1466.20036";
     LDAPResultUnwillingToPerform := 53 |}.

Definition search1 : LDAPMessage := {| messageID := 1; protocolOp := OtherOp 3 "search" |}.
Definition unbind2 : LDAPMessage := {| messageID := 2; protocolOp := UnbindRequest |}.
Definition starttls3 : LDAPMessage :=
  {| messageID := 3; protocolOp := ExtendedRequest "1.3.6.1.4.1.1466.20037" |}.
Definition entry : ProtocolOp := OtherOp 4 "entry".

(** A search is dispatched and registered. *)
Definition search_in_flight : list Label :=
  [LMain; LRead (ReadOk search1); LInvoke 0 HReturn].

(** A search is dispatched, an unbind request is read, the handler of
    the search answers, and the session is torn down to the end. *)
Definition sample_schedule : list Label :=
  search_in_flight ++
  [LRead (ReadOk unbind2);
   LInvoke 0 (HWrite entry); LPump io_ok;
   LMain; LMain; LMain; LAbandon 0; LInvoke 0 HPollDone;
   LInvoke 0 HReturn; LInvoke 0 HReturn; LInvoke 0 HReturn;
   LMain; LMain; LPump io_ok; LWatcher false; LMain; LMain; LMain].

(** *** More of what the invariants talk about *)

(** Whether an invocation of [ProcessRequestMessage] has not yet
    returned (its deferred [c.wg.Done()] included). *)
Definition is_active (i : Invocation) : bool :=
  match inv_pc i with
  | HExited => false
  | _ => true
  end.

(** How many invocations have not returned. *)
Fixpoint active_count (l : list Invocation) : nat :=
  match l with
  | [] => 0
  | i :: l' => (if is_active i then 1 else 0) + active_count l'
  end.

(** Whether the shutdown watcher stands between its [c.wg.Add(1)] and
    its [c.wg.Done()]. *)
Definition watcher_holds (w : WatcherPc) : nat :=
  match w with
  | WSend _ | WSent => 1
  | _ => 0
  end.

(** Whether the admission hook lets the connection in. *)
Definition hook_accepts (cfg : Config) : bool :=
  match onNewConnection cfg with
  | Some true => false
  | _ => true
  end.

(** Whether one of the three calls of [writeMessage] returned an error. *)
Definition io_failed (io : IOOutcome) : bool :=
  encode_fails io || write_fails io || flush_fails io.

(** The envelopes whose [writeMessage] met no error, in the order of the
    calls. *)
Definition delivered (tr : list Event) : list LDAPMessage :=
  omap (fun e => match e with
                 | EvWriteMessage m io => if io_failed io then None else Some m
                 | _ => None
                 end) tr.

(** The results of the reads the read loop has made. *)
Definition reads (tr : list Event) : list ReadResult :=
  omap (fun e => match e with EvRead r => Some r | _ => None end) tr.

(** The faults of the session, oldest first. *)
Definition panics (tr : list Event) : list PanicReason :=
  omap (fun e => match e with EvPanic r => Some r | _ => None end) tr.

(** A channel that is made and not closed. *)
Definition is_open {A : Type} (ch : option (chan A)) : bool :=
  match ch with
  | Some c => negb (chan_closed c)
  | None => false
  end.

(** What holds, beside [Inv], in every state of a session that the
    server has counted [n] times in its barrier before spawning it. *)
Record Inv2 (cfg : Config) (n : nat) (s : t) : Prop := mk_Inv2 {
  i2_wg : wg s = (active_count (invocations s) + watcher_holds (watcher s))%nat;
  i2_quiet : (4 <= progress (pc s))%nat -> active_count (invocations s) = 0%nat;
  i2_closing : match pc s with
               | PcStart => closing s = None
               | PcRead | PcInline _ | PcClose CloseClosing => is_open (closing s) = true
               | _ => is_closed (closing s) = true
               end;
  i2_made : pc s <> PcStart -> hook_accepts cfg = true ->
            chanOut s <> None /\ writeDone s <> None /\ requestList s <> None;
  i2_rejected : hook_accepts cfg = false ->
            chanOut s = None /\ writeDone s = None /\ requestList s = None /\
            watcher s = WIdle;
  i2_queue : is_closed (chanOut s) = true -> (5 <= progress (pc s))%nat;
  i2_writeDone : pump s = PumpRecv \/ (exists m, pump s = PumpWrite m) ->
                 is_open (writeDone s) = true;
  i2_srv : match pc s with
           | PcClosed => S (srv_wg s) = n
           | _ => srv_wg s = n
           end;
  i2_rwc : rwc_closed s = true <-> (7 <= progress (pc s))%nat;
  i2_registry : forall rl id k, requestList s = Some rl -> rl !! id = Some k ->
    exists i, invocations s !! k = Some i /\ messageID (inv_message i) = id /\
              (inv_pc i = HServing \/ inv_pc i = HReturning);
  i2_watcher : match watcher s with
               | WSend m => m = notice cfg /\ srv_chDone s = true
               | WSent => srv_chDone s = true
               | _ => True
               end;
  i2_wire : wire s = delivered (trace s);
  i2_reads : reads (trace s) <> [] -> pc s <> PcStart /\ hook_accepts cfg = true
}.

(** A session that has not faulted, or has faulted in one of the two
    places where it can: the shutdown watcher's send of the notice of
    disconnection on the outbound queue that [close] has closed, or a
    handler's lookup in the registry while another goroutine writes it. *)
Definition calm (cfg : Config) (s : t) : Prop :=
  (panicked s = false /\ panics (trace s) = []) \/
  (panicked s = true /\ panics (trace s) = [SendOnClosedChannel] /\
   watcher s = WSend (notice cfg) /\ is_closed (chanOut s) = true) \/
  (panicked s = true /\ panics (trace s) = [ConcurrentMapAccess] /\
   lookup_races s = true).

(** A read after which the loop goes on: a request other than unbind. *)
Definition dispatching (r : ReadResult) : bool :=
  match r with
  | ReadOk m => negb (is_unbind m)
  | _ => false
  end.

(** What the read loop does with what it read: the request it hands to
    [ProcessRequestMessage], and where that call runs. *)
Definition dispatch (cfg : Config) (r : ReadResult) : option (LDAPMessage * Where) :=
  match r with
  | ReadOk m =>
      if is_unbind m then None
      else Some (m, if is_starttls cfg m then OnReadLoop else OwnGoroutine)
  | _ => None
  end.

(** The calls of [ProcessRequestMessage] so far, oldest first. *)
Definition dispatched (s : t) : list (LDAPMessage * Where) :=
  map (fun i => (inv_message i, inv_where i)) (invocations s).

(** No call of [writeMessage] in the trace met an error. *)
Definition all_written_ok (tr : list Event) : bool :=
  forallb (fun e => match e with
                    | EvWriteMessage _ io => negb (io_failed io)
                    | _ => true
                    end) tr.

(** What holds of the read loop, the watcher and a rejected session in
    every state a session reaches. *)
Record Inv3 (cfg : Config) (s : t) : Prop := mk_Inv3 {
  i3_dispatch : dispatched s = omap (dispatch cfg) (reads (trace s));
  i3_reading : in_close (pc s) = false -> forallb dispatching (reads (trace s)) = true;
  i3_reads : forallb dispatching (removelast (reads (trace s))) = true;
  i3_notice : watcher s = WSent \/ In (EvSetReadDeadline ByWatcher) (trace s) ->
    In (EvEnqueue (notice cfg)) (trace s) /\ srv_chDone s = true;
  i3_stuck : hook_accepts cfg = false -> (progress (pc s) <= 4)%nat;
  i3_silent : chanOut s = None -> enqueued (trace s) = []
}.

(** *** The end of the teardown *)

(** How many steps the write pump has left before it has exited, once
    the outbound queue is closed. *)
Definition pump_rank (p : PumpPc) : nat :=
  match p with
  | PumpWrite _ => 2
  | PumpRecv => 1
  | PumpIdle | PumpExited => 0
  end.

(** How far the teardown is from its end. *)
Definition teardown_left (s : t) : nat :=
  (3 * (8 - progress (pc s)) + pump_rank (pump s))%nat.

(** A step of the session's own goroutine or of its write pump. *)
Definition own_step (l : Label) : bool :=
  match l with
  | LMain | LPump _ => true
  | _ => false
  end.

(** What holds of the write pump and the outbound queue in every state a
    session reaches. *)
Record Inv4 (cfg : Config) (s : t) : Prop := mk_Inv4 {
  i4_idle : pump s = PumpIdle -> pc s = PcStart \/ hook_accepts cfg = false;
  i4_exited : pump s = PumpExited -> is_closed (writeDone s) = true;
  i4_closed : (5 <= progress (pc s))%nat -> is_closed (chanOut s) = true
}.

(** The states the end of the teardown is followed through: a session
    in [close], not faulted, with every handler returned and the watcher
    outside its notice. *)
Definition settled (cfg : Config) (n : nat) (s : t) : Prop :=
  Inv s /\ Inv2 cfg n s /\ Inv4 cfg s /\ calm cfg s /\
  panicked s = false /\ wg s = 0%nat /\ in_close (pc s) = true.

(** *** The socket and the cancellation signals *)

(** What the calls of [writeMessage] in a trace put on the socket. *)
Definition frames (tr : list Event) : list Frame :=
  omap (fun e => match e with
                 | EvWriteMessage m io => Some (sent_frame m io)
                 | _ => None
                 end) tr.

(** The envelope a frame was made for. *)
Definition frame_message (f : Frame) : LDAPMessage :=
  match f with
  | Whole (Encoded m) | Whole (Residue m) | Part (Encoded m) | Part (Residue m) => m
  end.

(** The envelope a frame carries whole and well encoded, if it does. *)
Definition whole_envelope (f : Frame) : option LDAPMessage :=
  match f with
  | Whole (Encoded m) => Some m
  | _ => None
  end.

(** How many signals wait in the cancellation channel of a request. *)
Definition signals (i : Invocation) : nat :=
  match inv_Done i with
  | Some c => length (chan_buf c)
  | None => 0%nat
  end.

(** The step from [s] to [s'] has put one signal into the cancellation
    channel [c] of the request [k], and has done nothing else to the
    requests. *)
Definition posted (s s' : t) (k : nat) (i : Invocation) (c : chan bool) : Prop :=
  invocations s' =
    <[k := with_Done i (Some {| chan_cap := chan_cap c; chan_buf := chan_buf c ++ [true];
                                chan_closed := false |})]> (invocations s) /\
  trace s' = trace s ++ [EvAbandonPosted k] /\
  panicked s' = false /\ pc s' = pc s.

(** What holds of the socket, of the cancellation channels and of the
    goroutines of the sweep in every state a session reaches. *)
Record Inv5 (s : t) : Prop := mk_Inv5 {
  i5_socket : socket s = frames (trace s);
  i5_Done : forall k i, invocations s !! k = Some i -> inv_pc i <> HEntered ->
    inv_Done i <> None;
  i5_abandons : forall j k b, abandons s !! j = Some (k, b) ->
    exists i, invocations s !! k = Some i /\ inv_pc i <> HEntered
}.

(** What holds in every state of a session that the server has counted
    [n] times in its barrier before spawning it. *)
Record Invs (cfg : Config) (n : nat) (s : t) : Prop := mk_Invs {
  invs_1 : Inv s;
  invs_2 : Inv2 cfg n s;
  invs_3 : Inv3 cfg s;
  invs_5 : Inv5 s
}.

(** *** A call of [ProcessRequestMessage], stage by stage *)

(** What the next step of the call [k] of [ProcessRequestMessage] does
    in the state [s], its handler doing nothing but return. The call
    builds the [Message] and registers it; the handler returns; the
    deferred [unregisterRequest] takes the request out of the registry;
    the deferred [c.wg.Done()] gives the barrier back what the read loop
    added, and the call returns: when it was made by the read loop
    itself, the loop is at its head again ([continue]) and can read. *)
Definition call_advances (cfg : Config) (k : nat) (s : t) : Prop :=
  exists (i : Invocation) (s' : t),
    invocations s !! k = Some i /\
    step cfg (LInvoke k HReturn) s = Some s' /\ panicked s' = false /\
    let id := messageID (inv_message i) in
    match inv_pc i with
    | HEntered =>
        invocations s' !! k = Some (new_Message i) /\ GetMessageByID s' id = Some k /\
        pc s' = pc s /\ wg s' = wg s
    | HServing =>
        invocations s' !! k = Some (with_pc i HReturning) /\
        pc s' = pc s /\ wg s' = wg s
    | HReturning =>
        invocations s' !! k = Some (with_pc i HLeaving) /\ GetMessageByID s' id = None /\
        pc s' = pc s /\ wg s' = wg s
    | HLeaving =>
        invocations s' !! k = Some (with_pc i HExited) /\ S (wg s') = wg s /\
        match inv_where i with
        | OnReadLoop => pc s' = PcRead /\ forall r, step cfg (LRead r) s' <> None
        | OwnGoroutine => pc s' = pc s
        end
    | HExited => False
    end.

(** *** Two claims as they are stated *)



(** C6, as the claim states it: posting a cancellation signal never
    blocks the poster, be it a handler that abandons a request for the
    client or a goroutine of the shutdown sweep. *)
Definition posting_never_blocks : Prop :=
  forall (cfg : Config) (done : bool) (n : nat) (sched : list Label) (s : t),
    run cfg sched (init done n) = Some s -> panicked s = false ->
    (forall j k, abandons s !! j = Some (k, false) -> step cfg (LAbandon j) s <> None) /\
    (forall k i id k', invocations s !! k = Some i -> inv_pc i = HServing ->
       GetMessageByID s id = Some k' -> step cfg (LInvoke k (HAbandon id)) s <> None).

(** *** More sample data *)

(** Two searches under one message ID are in flight; the handler of the
    first has returned and is about to unregister it. *)
Definition twins_in_flight : list Label :=
  [LMain; LRead (ReadOk search1); LRead (ReadOk search1);
   LInvoke 0 HReturn; LInvoke 1 HReturn; LInvoke 0 HReturn].

(** An abandon request of the client, for the search: 16 is the tag of
    the abandon operation. *)
Definition abandon_of_search (id : Z) : LDAPMessage :=
  {| messageID := id; protocolOp := OtherOp 16 "abandon 1" |}.

(** A search is in flight; the client abandons it three times, and the
    handlers of the first two abandon requests have posted their signal. *)
Definition two_abandons_posted : list Label :=
  [LMain; LRead (ReadOk search1);
   LRead (ReadOk (abandon_of_search 2)); LRead (ReadOk (abandon_of_search 3));
   LRead (ReadOk (abandon_of_search 4));
   LInvoke 0 HReturn; LInvoke 1 HReturn; LInvoke 2 HReturn; LInvoke 3 HReturn;
   LInvoke 1 (HAbandon 1); LInvoke 2 (HAbandon 1)].

(** A search is in flight and is registered when the read loop meets the
    end of the input; [close] has come to its sweep. *)
Definition search_at_the_sweep : list Label :=
  search_in_flight ++ [LRead (ReadFails ErrEOF); LMain; LMain].

(** A search answers, the write of its answer fails, and the session is
    torn down to the end. *)
Definition failed_write_schedule : list Label :=
  search_in_flight ++
  [LInvoke 0 (HWrite entry);
   LPump {| encode_fails := false; write_fails := true; flush_fails := false |};
   LInvoke 0 HReturn; LInvoke 0 HReturn; LInvoke 0 HReturn;
   LRead (ReadFails ErrEOF);
   LMain; LMain; LMain; LMain; LMain; LPump io_ok; LMain; LMain; LMain].


(** A search and an abandon request are read; the call for the abandon
    request is being served while the call for the search has not yet
    registered its request. *)
Definition lookup_during_register : list Label :=
  [LMain; LRead (ReadOk search1); LRead (ReadOk (abandon_of_search 2)); LInvoke 1 HReturn].

(** A StartTLS request is read and its call is made on the read loop. *)
Definition starttls_called : list Label := [LMain; LRead (ReadOk starttls3)].

End Client.

(** * Properties of the server *)

Module ServerFacts.
Import Server.

Lemma serve_loop_stopped (s : t) (i : nat) (env : list Env) :
  chDone s = true ->
  serve_loop s i env = (Returned, s, [EvLog LogStopping; EvListenerClose]).
Proof. intros H. destruct env; simpl; rewrite H; reflexivity. Qed.

(** A successful accept: the configured deadlines are set on the new
    connection, the session gets the next ordinal, it is counted and
    spawned, and the loop goes on. *)
Lemma serve_loop_accept_ok (s : t) (i : nat) (c : Conn) (env : list Env) :
  chDone s = false ->
  serve_loop s i (EnvAccept (Some c) None :: env) =
    (outcome_of (serve_loop (wg_Add s) (S i) env),
     server_of (serve_loop (wg_Add s) (S i) env),
     EvAccept ::
     (if ReadTimeout s =? 0 then [] else [EvSetReadDeadline c]) ++
     (if WriteTimeout s =? 0 then [] else [EvSetWriteDeadline c]) ++
     [EvNewClient (Some c); EvLog (LogAccepted (S i) (RemoteAddr c)); EvWgAdd;
      EvGoServe (S i) c] ++
     events_of (serve_loop (wg_Add s) (S i) env)).
Proof.
  intros H. simpl. rewrite H.
  destruct (serve_loop (wg_Add s) (S i) env) as [[o s'] evs].
  unfold outcome_of, server_of, events_of. simpl.
  destruct (ReadTimeout s =? 0), (WriteTimeout s =? 0); simpl; reflexivity.
Qed.

(** A timeout-class error of accept, on a server with no deadline
    configured: the loop goes to its next iteration; no session. *)
Lemma serve_loop_timeout_retries (s : t) (i : nat) (rw : option Conn) (env : list Env) :
  chDone s = false -> ReadTimeout s = 0 -> WriteTimeout s = 0 ->
  serve_loop s i (EnvAccept rw (Some OpErrorTimeout) :: env) =
    (outcome_of (serve_loop s i env), server_of (serve_loop s i env),
     EvAccept :: events_of (serve_loop s i env)).
Proof.
  intros H Hr Hw. simpl. rewrite H, Hr, Hw. simpl.
  destruct (serve_loop s i env) as [[o s'] evs]. reflexivity.
Qed.

(** An error of accept that is not of the timeout class, with the nil
    connection the standard listeners return beside an error: the error
    is logged, and the iteration goes on to [newClient] with the nil
    connection, whatever the rest of the script. *)
Lemma serve_loop_other_error_falls_through (s : t) (i : nat) (e : AcceptError)
    (env : list Env) :
  chDone s = false -> ReadTimeout s = 0 -> WriteTimeout s = 0 -> is_timeout e = false ->
  serve_loop s i (EnvAccept None (Some e) :: env) =
    (Panicked NilDereference, s,
     [EvAccept; EvLog (LogAcceptError e); EvNewClient None; EvPanic NilDereference]).
Proof.
  intros H Hr Hw He. simpl. rewrite H, Hr, Hw, He. reflexivity.
Qed.

(** With a deadline configured, any error of accept that comes with a
    nil connection faults before the error is looked at. *)
Lemma serve_loop_deadline_on_nil (s : t) (i : nat) (e : option AcceptError)
    (env : list Env) :
  chDone s = false -> (ReadTimeout s <> 0 \/ WriteTimeout s <> 0) ->
  outcome_of (serve_loop s i (EnvAccept None e :: env)) = Panicked NilDereference.
Proof.
  intros H Hd. simpl. rewrite H.
  destruct (ReadTimeout s =? 0) eqn:Hr; [|reflexivity].
  destruct (WriteTimeout s =? 0) eqn:Hw; [|reflexivity].
  apply Z.eqb_eq in Hr, Hw. destruct Hd; contradiction.
Qed.

(** C1 (evaluation of the accept loop at the failing inputs): on an
    accept error that is not of the timeout class the loop logs the error
    and then, instead of going to its next iteration, builds a session
    over the nil connection and faults on it; with a read deadline
    configured, a timeout-class accept error faults in the deadline call
    on the nil connection instead of being retried. The second accept of
    the script is never reached in either run. *)
Theorem serve_accept_error_is_not_skipped :
  serve registered_server
    [EnvAccept None (Some OpErrorOther); EnvAccept (Some peer) None] =
    (Panicked NilDereference, registered_server,
     [EvAccept; EvLog (LogAcceptError OpErrorOther); EvNewClient None;
      EvPanic NilDereference; EvListenerClose]) /\
  serve (set_ReadTimeout registered_server 30)
    [EnvAccept None (Some OpErrorTimeout); EnvAccept (Some peer) None] =
    (Panicked NilDereference, set_ReadTimeout registered_server 30,
     [EvAccept; EvPanic NilDereference; EvListenerClose]).
Proof. split; reflexivity. Qed.

(** C8 (evaluation of the TLS listen operation at the failing input):
    called with the empty address, [ListenAndServeTLS] hands ":686" to
    [tls.Listen], for every server, certificate, channel, option list and
    accept script; the address is not ":636". *)
Theorem ListenAndServeTLS_blank_address_is_686 :
  forall (s : t) (certFile keyFile : string) (ch_nil : bool) (options : list (t -> t))
         (env : list Env),
    tls_listen_addr
      (events_of (ListenAndServeTLS s "" certFile keyFile ch_nil options
                    {| listen_fails := false; keypair_fails := false |} env))
    = Some ":686"%string /\
    tls_listen_addr
      (events_of (ListenAndServeTLS s "" certFile keyFile ch_nil options
                    {| listen_fails := false; keypair_fails := false |} env))
    <> Some ":636"%string.
Proof.
  intros s certFile keyFile ch_nil options env.
  assert (H : tls_listen_addr
      (events_of (ListenAndServeTLS s "" certFile keyFile ch_nil options
                    {| listen_fails := false; keypair_fails := false |} env))
    = Some ":686"%string).
  { unfold ListenAndServeTLS. simpl.
    destruct (listen_then_serve s ":686" ch_nil options env) as [[o s'] evs].
    reflexivity. }
  split; [exact H | rewrite H; discriminate].
Qed.

(** A non-empty address is passed on as it is. *)
Lemma ListenAndServeTLS_given_address (s : t) (addr certFile keyFile : string)
    (ch_nil : bool) (options : list (t -> t)) (env : list Env) :
  addr <> ""%string ->
  tls_listen_addr
    (events_of (ListenAndServeTLS s addr certFile keyFile ch_nil options
                  {| listen_fails := false; keypair_fails := false |} env))
  = Some addr.
Proof.
  intros Ha. unfold ListenAndServeTLS.
  destruct (String.eqb addr "") eqn:E; [apply String.eqb_eq in E; contradiction|].
  simpl. destruct (listen_then_serve s addr ch_nil options env) as [[o s'] evs].
  reflexivity.
Qed.

Lemma serve_nil_handler (s : t) (env : list Env) :
  Handler s = None ->
  serve s env = (Panicked NoHandler, s, [EvLog LogNoHandler; EvPanic NoHandler; EvListenerClose]).
Proof. intros H. unfold serve. rewrite H. reflexivity. Qed.

(** C9: with no handler registered when the accept loop is entered,
    [serve] panics and has called [Accept] not once; so do
    [ListenAndServe] and [ListenAndServeTLS] whenever they get as far as
    [serve] (the listener is created, the key pair loads) and the options
    leave the handler unset. *)
Theorem serve_without_handler_panics :
  forall (s : t) (addr certFile keyFile : string) (ch_nil : bool)
         (options : list (t -> t)) (lenv : ListenEnv) (env : list Env),
    Handler (apply_options options s) = None ->
    listen_fails lenv = false ->
    keypair_fails lenv = false ->
    (outcome_of (serve (apply_options options s) env) = Panicked NoHandler /\
     filter (fun e => is_accept e = true) (events_of (serve (apply_options options s) env)) = []) /\
    (outcome_of (ListenAndServe s addr ch_nil options lenv env) = Panicked NoHandler /\
     filter (fun e => is_accept e = true)
       (events_of (ListenAndServe s addr ch_nil options lenv env)) = []) /\
    (outcome_of (ListenAndServeTLS s addr certFile keyFile ch_nil options lenv env)
       = Panicked NoHandler /\
     filter (fun e => is_accept e = true)
       (events_of (ListenAndServeTLS s addr certFile keyFile ch_nil options lenv env)) = []).
Proof.
  intros s addr certFile keyFile ch_nil options lenv env Hh Hl Hk.
  pose proof (serve_nil_handler (apply_options options s) env Hh) as Hs.
  split; [rewrite Hs; split; reflexivity|].
  split.
  - unfold ListenAndServe, listen_then_serve. rewrite Hl, Hs.
    destruct ch_nil; split; reflexivity.
  - unfold ListenAndServeTLS, listen_then_serve. rewrite Hk, Hl, Hs.
    destruct ch_nil; split; reflexivity.
Qed.

Lemma serve_without_handler_panics_witness :
  (outcome_of (serve (apply_options [] NewServer) [EnvAccept (Some peer) None])
     = Panicked NoHandler /\
   filter (fun e => is_accept e = true)
     (events_of (serve (apply_options [] NewServer) [EnvAccept (Some peer) None])) = []) /\
  (outcome_of (ListenAndServe NewServer ":389" false []
                 {| listen_fails := false; keypair_fails := false |}
                 [EnvAccept (Some peer) None]) = Panicked NoHandler /\
   filter (fun e => is_accept e = true)
     (events_of (ListenAndServe NewServer ":389" false []
                   {| listen_fails := false; keypair_fails := false |}
                   [EnvAccept (Some peer) None])) = []) /\
  (outcome_of (ListenAndServeTLS NewServer ":636" "cert.pem" "key.pem" false []
                 {| listen_fails := false; keypair_fails := false |}
                 [EnvAccept (Some peer) None]) = Panicked NoHandler /\
   filter (fun e => is_accept e = true)
     (events_of (ListenAndServeTLS NewServer ":636" "cert.pem" "key.pem" false []
                   {| listen_fails := false; keypair_fails := false |}
                   [EnvAccept (Some peer) None])) = []).
Proof.
  apply (serve_without_handler_panics NewServer ":389" "cert.pem" "key.pem" false []
           {| listen_fails := false; keypair_fails := false |}
           [EnvAccept (Some peer) None]); reflexivity.
Defined.

(** C3 (counterexample): on the server [NewServer] returns, the second
    [Stop] panics. *)
Lemma second_Stop_faults : ~ second_Stop_is_harmless.
Proof.
  intros H. specialize (H NewServer eq_refl). simpl in H.
  destruct H as [H _]. apply H. reflexivity.
Qed.

(** C3 (amended): on a server whose shutdown signal is open, [Stop]
    closes the signal and then waits on the session barrier: it stays
    blocked while the counter is not zero and returns once it is. [Stop]
    has no guard: called on a server whose signal is closed, it panics
    (close of closed channel) and closes nothing; so two calls in a row
    close the signal once, and the second one faults. *)
Theorem Stop_closes_waits_and_faults_when_repeated :
  forall s : t, chDone s = false ->
    Stop_step StopCalled s
      = Some (StopWaits, set_chDone s true, [EvCloseChDone; EvLog LogGracefully]) /\
    (forall s1 : t, wg s1 <> 0%nat -> Stop_step StopWaits s1 = None) /\
    (forall s1 : t, wg s1 = 0%nat ->
       Stop_step StopWaits s1 = Some (StopReturned, s1, [EvLog LogAllClosed])) /\
    (forall s1 : t, chDone s1 = true ->
       Stop_step StopCalled s1 = Some (StopPanicked, s1, [EvPanic CloseOfClosedChannel])) /\
    (let '(_, s1, ev1) := Stop s in
     let '(pc2, s2, ev2) := Stop s1 in
     chDone s1 = true /\ pc2 = StopPanicked /\ s2 = s1 /\
     filter (fun e => is_close_chDone e = true) (ev1 ++ ev2) = [EvCloseChDone]).
Proof.
  intros s Hs. repeat split.
  - unfold Stop_step. rewrite Hs. reflexivity.
  - intros s1 H1. unfold Stop_step. destruct (wg s1); [contradiction | reflexivity].
  - intros s1 H1. unfold Stop_step. rewrite H1. reflexivity.
  - intros s1 H1. unfold Stop_step. rewrite H1. reflexivity.
  - unfold Stop, Stop_step. rewrite Hs. simpl.
    destruct (wg s); simpl; repeat split; reflexivity.
Qed.

Lemma Stop_closes_waits_and_faults_when_repeated_witness :
  Stop_step StopCalled (wg_Add registered_server)
    = Some (StopWaits, set_chDone (wg_Add registered_server) true,
            [EvCloseChDone; EvLog LogGracefully]) /\
  (forall s1 : t, wg s1 <> 0%nat -> Stop_step StopWaits s1 = None) /\
  (forall s1 : t, wg s1 = 0%nat ->
     Stop_step StopWaits s1 = Some (StopReturned, s1, [EvLog LogAllClosed])) /\
  (forall s1 : t, chDone s1 = true ->
     Stop_step StopCalled s1 = Some (StopPanicked, s1, [EvPanic CloseOfClosedChannel])) /\
  (let '(_, s1, ev1) := Stop (wg_Add registered_server) in
   let '(pc2, s2, ev2) := Stop s1 in
   chDone s1 = true /\ pc2 = StopPanicked /\ s2 = s1 /\
   filter (fun e => is_close_chDone e = true) (ev1 ++ ev2) = [EvCloseChDone]).
Proof.
  apply (Stop_closes_waits_and_faults_when_repeated (wg_Add registered_server)).
  reflexivity.
Defined.

End ServerFacts.

(** * Properties of a session *)

Module ClientFacts.
Import Client.
Local Open Scope nat_scope.

(** ** Case analysis on a step

    [step_cases H] opens the transition function in [H : step cfg l s =
    Some s'] and splits on every test it makes, so that each case shows
    the state [s'] as the code builds it. *)

Ltac unfold_step H :=
  unfold step, close, pump_step, watcher_step, ProcessRequestMessage, abandon_step,
    post_Abandon, Abandon, send_chanOut, serve_prologue, read_iteration,
    registerRequest, unregisterRequest, wg_Done, chan_send, chan_close, writeMessage,
    panic, log_event, pump_receives, is_closed in H.

Ltac step_cases H := unfold_step H; repeat (case_match; simplify_eq/=).

(** Uses of two invariants that close the cases the code cannot reach:
    the outbound queue has no buffer, and before [serve]'s prologue
    nothing is allocated. *)
Ltac use_chanOut Hc :=
  try (let E1 := fresh "E" in let E2 := fresh "E" in
       first [ destruct (Hc _ eq_refl) as [E1 E2]
             | match goal with
               | H : chanOut _ = Some ?c |- _ => destruct (Hc _ H) as [E1 E2]
               end ];
       try rewrite E1 in *; try rewrite E2 in *; simpl in *; try done; try lia).

Ltac use_start Hs :=
  try (first [ destruct (Hs eq_refl) as (?&?&?&?&?&?&?)
             | match goal with
               | H : pc _ = PcStart |- _ => destruct (Hs H) as (?&?&?&?&?&?&?)
               end ];
       simplify_eq/=; done).

(** Case analysis on the lookup of an invocation after an update or a
    dispatch. *)
Ltac lookups :=
  repeat match goal with
  | H : <[_ := _]> _ !! _ = Some _ |- _ =>
      apply list_lookup_insert_Some in H; destruct H as [(?&?&?)|(?&?)]
  | H : (_ ++ [_]) !! _ = Some _ |- _ =>
      apply lookup_snoc_Some in H; destruct H as [(?&?)|(?&?)]
  end; simplify_eq/=.

(** ** The trace projections distribute over concatenation *)

Lemma enqueued_app a b : enqueued (a ++ b) = enqueued a ++ enqueued b.
Proof. apply omap_app. Qed.
Lemma written_app a b : written (a ++ b) = written a ++ written b.
Proof. apply omap_app. Qed.
Lemma close_steps_app a b : close_steps (a ++ b) = close_steps a ++ close_steps b.
Proof. apply omap_app. Qed.

(** ** The invariant holds initially and is kept by every step *)

Lemma Inv_init done n : Inv (init done n).
Proof.
  split; simpl; try done.
  all: intros;
    repeat match goal with
    | H : [] !! _ = Some _ |- _ => rewrite lookup_nil in H
    end; try done; try lia.
Qed.

Lemma start_step cfg l s s' : step cfg l s = Some s' -> Inv s ->
  pc s' = PcStart ->
    chanOut s' = None /\ writeDone s' = None /\ pump s' = PumpIdle /\ watcher s' = WIdle /\
    invocations s' = [] /\ requestList s' = None /\ abandons s' = [].
Proof.
  intros H I. pose proof (inv_start _ I) as Hs.
  step_cases H; intros Hpc; try congruence.
  all: destruct (Hs Hpc) as (?&?&?&?&E&?&?); try congruence.
  all: try (rewrite E in *;
            match goal with
            | H : [] !! _ = Some _ |- _ => rewrite lookup_nil in H; discriminate
            end).
  all: repeat split; assumption.
Qed.

Lemma nil_step cfg l s s' : step cfg l s = Some s' -> Inv s ->
  chanOut s' = None -> pump s' = PumpIdle /\ invocations s' = [] /\ pc s' <> PcRead.
Proof.
  intros H I. pose proof (inv_nil _ I) as Hn.
  step_cases H; intros Hc; simplify_eq/=; try (apply Hn; assumption).
  all: try (first [ destruct (Hn Hc) as (? & E & ?) | destruct (Hn eq_refl) as (? & E & ?) ];
            simplify_eq/=; try done;
            try (rewrite E in *;
                 match goal with
                 | H : [] !! _ = Some _ |- _ => rewrite lookup_nil in H; discriminate
                 end);
            repeat split; congruence).
Qed.

Lemma chanOut_step cfg l s s' : step cfg l s = Some s' -> Inv s ->
  forall c, chanOut s' = Some c -> chan_cap c = 0 /\ chan_buf c = [].
Proof.
  intros H I. pose proof (inv_chanOut _ I) as Hc.
  step_cases H; intros cX HcX; simplify_eq/=;
    try (apply Hc; assumption); try (split; reflexivity).
  all: use_chanOut Hc.
Qed.

Lemma flush_step cfg l s s' : step cfg l s = Some s' -> Inv s ->
  enqueued (trace s') = written (trace s') ++ pump_pending s'.
Proof.
  intros H I. pose proof (inv_flush _ I) as Hf. pose proof (inv_chanOut _ I) as Hc.
  pose proof (inv_start _ I) as Hs.
  unfold pump_pending in *.
  step_cases H; rewrite ?enqueued_app, ?written_app; simpl; rewrite ?app_nil_r.
  all: repeat match goal with
       | H : pump _ = _ |- _ => rewrite H in *; clear H
       end; simpl in *; rewrite ?app_nil_r in *; try assumption.
  all: try (rewrite Hf; rewrite <- ?app_assoc; reflexivity).
  all: use_chanOut Hc.
  all: use_start Hs.
Qed.

Lemma exited_step cfg l s s' : step cfg l s = Some s' -> Inv s ->
  pump s' = PumpExited -> is_closed (chanOut s') = true.
Proof.
  intros H I. pose proof (inv_exited _ I) as He. unfold is_closed in *.
  step_cases H; intros Hp; simplify_eq/=; try (apply He; assumption); try done.
  all: try (rewrite Hp in *; specialize (He eq_refl); simplify_eq/=; done).
  all: try (specialize (He Hp); simplify_eq/=; done).
  all: try (specialize (He eq_refl); simplify_eq/=; done).
Qed.

Lemma writeDone_step cfg l s s' : step cfg l s = Some s' -> Inv s ->
  is_closed (writeDone s') = true -> pump s' = PumpExited.
Proof.
  intros H I. pose proof (inv_writeDone _ I) as Hw. pose proof (inv_start _ I) as Hs.
  unfold is_closed in *.
  step_cases H; intros Hp; simplify_eq/=; try (apply Hw; assumption); try done.
  all: try (specialize (Hw Hp); simplify_eq/=; done).
  all: try (specialize (Hw eq_refl); simplify_eq/=; done).
  all: use_start Hs.
Qed.

Lemma late_step cfg l s s' : step cfg l s = Some s' -> Inv s ->
  6 <= progress (pc s') -> pump s' = PumpExited.
Proof.
  intros H I. pose proof (inv_late _ I) as Hl. pose proof (inv_writeDone _ I) as Hw.
  unfold is_closed in *.
  step_cases H; intros Hp; simplify_eq/=; try lia; try (apply Hl; assumption); try done.
  all: try (apply Hw; assumption).
  all: try match goal with H : pc _ = _ |- _ => rewrite H in *; simpl in * end; try lia.
  all: try (specialize (Hl Hp); simplify_eq/=; done).
  all: try (apply Hw; reflexivity).
  all: try (apply Hl; lia).
Qed.

Lemma inline_step cfg l s s' : step cfg l s = Some s' -> Inv s ->
  forall k i, invocations s' !! k = Some i -> inv_where i = OnReadLoop ->
    inv_pc i <> HExited -> pc s' = PcInline k.
Proof.
  intros H I. pose proof (inv_inline _ I) as Hi. pose proof (inv_start _ I) as Hs.
  step_cases H; intros kX iX HkX HwX HpX; lookups; try done.
  all: try (eapply Hi; eauto; done).
  all: try (match goal with
            | H : invocations _ !! ?k = Some ?i, H' : inv_where ?i = OnReadLoop |- _ =>
                let E := fresh in
                let E2 := fresh in
                pose proof (Hi k i H H') as E;
                assert (E2 : inv_pc i <> HExited) by first [assumption | congruence];
                specialize (E E2); simplify_eq/=; try done; try lia
            end; fail).
  all: use_start Hs.
  all: exfalso;
    match goal with
    | Ha : invocations _ !! ?k1 = Some ?i1, Hb : invocations _ !! ?k2 = Some ?i2,
      Hn : ?k1 <> ?k2 |- _ =>
        assert (pc s = PcInline k1) by (apply (Hi k1 i1); [assumption|assumption|congruence]);
        assert (pc s = PcInline k2) by (apply (Hi k2 i2); [assumption|assumption|congruence]);
        congruence
    end.
Qed.

Lemma steps_step cfg l s s' : step cfg l s = Some s' -> Inv s ->
  close_steps (trace s') = seq 1 (progress (pc s')).
Proof.
  intros H I. pose proof (inv_steps _ I) as Hc. pose proof (inv_inline _ I) as Hi.
  step_cases H; rewrite ?close_steps_app; simpl; rewrite ?app_nil_r; try assumption.
  all: try (repeat match goal with H : pc _ = _ |- _ => rewrite H in * end; simpl in *;
            rewrite ?Hc; first [reflexivity | assumption]).
  all: try (match goal with
            | H : invocations _ !! ?k = Some ?i, H' : inv_where ?i = OnReadLoop |- _ =>
                let E := fresh in
                pose proof (Hi k i H H' ltac:(congruence)) as E;
                rewrite E in Hc; simpl in Hc; rewrite Hc; reflexivity
            end).
Qed.

Lemma Done_step cfg l s s' : step cfg l s = Some s' -> Inv s ->
  forall k i c, invocations s' !! k = Some i -> inv_Done i = Some c ->
    chan_cap c = 2 /\ length (chan_buf c) <= 2 /\ chan_closed c = false.
Proof.
  intros H I. pose proof (inv_Done_cap _ I) as Hd. pose proof (inv_start _ I) as Hs.
  step_cases H; intros kX iX cX HkX HdX; lookups; try (eapply Hd; eauto; done).
  all: try (repeat split; simpl; lia).
  all: try match goal with
       | H : invocations _ !! ?k = Some ?i, H' : inv_Done ?i = Some ?c |- _ =>
           destruct (Hd k i c H H') as (E1 & E2 & E3); simpl in *;
           repeat match goal with H : chan_buf _ = _ |- _ => rewrite H in * end;
           rewrite ?length_app in *; simpl in *;
           repeat match goal with H : (_ <? _) = true |- _ => apply Nat.ltb_lt in H end;
           repeat split; first [done | lia | congruence]
       end.
Qed.

Lemma registry_step cfg l s s' : step cfg l s = Some s' -> Inv s ->
  forall rl id k, requestList s' = Some rl -> rl !! id = Some k ->
    k < length (invocations s').
Proof.
  intros H I. pose proof (inv_registry _ I) as Hr. pose proof (inv_start _ I) as Hs.
  step_cases H; intros rlX idX kX HrX HlX; simplify_eq/=;
    rewrite ?length_insert, ?length_app; simpl;
    try (eapply Hr; eauto; done).
  all: try (assert (kX < length (invocations s)) by (eapply Hr; eauto); lia).
  all: try (rewrite lookup_empty in HlX; done).
  all: try (apply lookup_insert_Some in HlX; destruct HlX as [(?&?)|(?&?)]; simplify_eq/=;
            first [ eapply lookup_lt_Some; eauto; done | eapply Hr; eauto; done ]).
  all: try (match goal with H : _ <$> _ = Some _ |- _ =>
              apply fmap_Some in H; destruct H as (rl0 & ? & ?); simplify_eq/= end;
            apply lookup_delete_Some in HlX; destruct HlX as (?&?); eapply Hr; eauto; done).
Qed.

Lemma Inv_step cfg l s s' : step cfg l s = Some s' -> Inv s -> Inv s'.
Proof.
  intros H I. split.
  - eapply start_step; eauto.
  - eapply nil_step; eauto.
  - eapply chanOut_step; eauto.
  - eapply flush_step; eauto.
  - eapply exited_step; eauto.
  - eapply writeDone_step; eauto.
  - eapply late_step; eauto.
  - eapply inline_step; eauto.
  - eapply steps_step; eauto.
  - eapply Done_step; eauto.
  - eapply registry_step; eauto.
Qed.

Lemma Inv_run cfg sched : forall s s', run cfg sched s = Some s' -> Inv s -> Inv s'.
Proof.
  induction sched as [|l sched IH]; intros s s' H I; simpl in H.
  - congruence.
  - destruct (step cfg l s) as [s1|] eqn:E; [|discriminate].
    eapply IH; eauto using Inv_step.
Qed.

(** ** Nothing is sent on the queue once the connection is closed *)






Lemma reachable_Inv cfg done n sched s :
  run cfg sched (init done n) = Some s -> Inv s.
Proof. intros H. eapply Inv_run; eauto using Inv_init. Qed.

Lemma progress_le_8 p : progress p <= 8.
Proof. destruct p as [| | |[]|]; simpl; lia. Qed.

Lemma read_needs_PcRead cfg r s s' : step cfg (LRead r) s = Some s' -> pc s = PcRead.
Proof.
  unfold step. destruct (panicked s); [discriminate|].
  destruct (pc s); try discriminate. reflexivity.
Qed.

Lemma no_read_unless_PcRead cfg r s : pc s <> PcRead -> step cfg (LRead r) s = None.
Proof.
  intros H. unfold step. destruct (panicked s); [reflexivity|].
  destruct (pc s); try reflexivity. contradiction.
Qed.

(** Once [close] is entered the session's goroutine stays in it, and
    nothing is dispatched any more. *)
Lemma closing_step cfg l s s' : step cfg l s = Some s' -> Inv s ->
  in_close (pc s) = true ->
  in_close (pc s') = true /\ length (invocations s') = length (invocations s).
Proof.
  intros H I. pose proof (inv_inline _ I) as Hi.
  step_cases H; intros Hc; rewrite ?length_insert; try (split; [assumption|reflexivity]);
    try (split; reflexivity); try discriminate.
  all: try (match goal with
            | H : invocations _ !! ?k = Some ?i, H' : inv_where ?i = OnReadLoop |- _ =>
                let E := fresh in
                pose proof (Hi k i H H' ltac:(congruence)) as E;
                rewrite E in Hc; discriminate
            end).
  all: repeat match goal with H : pc _ = _ |- _ => rewrite H in * end; try discriminate.
  all: split; reflexivity.
Qed.

Lemma closing_run cfg sched : forall s s', run cfg sched s = Some s' -> Inv s ->
  in_close (pc s) = true ->
  in_close (pc s') = true /\ length (invocations s') = length (invocations s).
Proof.
  induction sched as [|l sched IH]; intros s s' H I Hc; simpl in H.
  - injection H as <-. split; [assumption|reflexivity].
  - destruct (step cfg l s) as [s1|] eqn:E; [|discriminate].
    destruct (closing_step _ _ _ _ E I Hc) as [Hc1 Hl1].
    destruct (IH _ _ H (Inv_step _ _ _ _ E I) Hc1) as [Hc2 Hl2].
    split; [assumption | congruence].
Qed.

(** An invocation keeps its request and the thread it runs on. *)
Lemma stable_step cfg l s s' : step cfg l s = Some s' ->
  forall k i, invocations s !! k = Some i ->
  exists i', invocations s' !! k = Some i' /\ inv_where i' = inv_where i /\
             inv_message i' = inv_message i.
Proof.
  intros H.
  step_cases H; intros kX iX HkX; try (exists iX; repeat split; assumption).
  all: try (exists iX; repeat split; try reflexivity;
            apply lookup_app_l_Some; assumption).
  all: try match goal with
       | |- context [<[?k0 := ?i0]> _ !! _] =>
           destruct (decide (k0 = kX)) as [->|Hne];
           [ exists i0; rewrite list_lookup_insert_eq by (eapply lookup_lt_Some; eassumption);
             simplify_eq/=; repeat split; reflexivity
           | exists iX; rewrite list_lookup_insert_ne by assumption;
             repeat split; assumption ]
       end.
Qed.

Lemma stable_run cfg sched : forall s s' k i, run cfg sched s = Some s' ->
  invocations s !! k = Some i ->
  exists i', invocations s' !! k = Some i' /\ inv_where i' = inv_where i /\
             inv_message i' = inv_message i.
Proof.
  induction sched as [|l sched IH]; intros s s' k i H Hk; simpl in H.
  - injection H as <-. exists i. repeat split; assumption.
  - destruct (step cfg l s) as [s1|] eqn:E; [|discriminate].
    destruct (stable_step _ _ _ _ E _ _ Hk) as (i1 & Hk1 & Hw1 & Hm1).
    destruct (IH _ _ _ _ H Hk1) as (i2 & Hk2 & Hw2 & Hm2).
    exists i2. repeat split; congruence.
Qed.

(** The outbound queue has no buffer: a send on it is a hand-over to the
    write pump. *)
Lemma send_chanOut_blocks (cfg : Config) (s : t) (l : Label) (m : LDAPMessage) :
  Inv s -> panicked s = false -> step cfg l s = send_chanOut s m (fun s' => s') ->
  blocking_send cfg s l m.
Proof.
  intros I Hnp Hl. unfold blocking_send. rewrite Hl.
  pose proof (inv_chanOut _ I) as Hc. pose proof (inv_nil _ I) as Hn.
  unfold send_chanOut, chan_send, pump_receives, is_closed, panic, log_event.
  destruct (chanOut s) as [c|] eqn:Ec.
  - destruct (Hc c eq_refl) as [Hcap Hbuf]. rewrite Hcap, Hbuf. simpl.
    destruct (chan_closed c) eqn:Ecl; simpl.
    + split; [|split].
      * split; [discriminate | intros [? _]; discriminate].
      * discriminate.
      * intros _. eexists. split; [reflexivity|]. simpl.
        rewrite enqueued_app. simpl. rewrite app_nil_r. split; reflexivity.
    + destruct (pump s) eqn:Ep; simpl.
      all: split; [|split]; try discriminate.
      all: try (split; [intros _; split; [reflexivity | discriminate] | reflexivity]).
      all: try (intros _ ?; discriminate).
      * split; [discriminate | intros [_ ?]; contradiction].
      * intros _ _. eexists. split; [reflexivity|]. simpl. repeat split. exact Hnp.
  - destruct (Hn eq_refl) as (Hp & _ & _). rewrite Hp. simpl.
    split; [|split]; try discriminate.
    split; [intros _; split; [reflexivity | discriminate] | reflexivity].
Qed.

(** When the admission hook rejects the connection, [serve] returns
    before the outbound queue is made, and the deferred [close] panics
    in [close(c.chanOut)] on the nil channel: the connection is not
    closed and the server's barrier is not decremented. *)
Example close_after_rejected_hook_panics :
  (fun s : option t => (pc <$> s, panicked <$> s, rwc_closed <$> s, srv_wg <$> s,
                        close_steps <$> (trace <$> s)))
    (run rejecting_config [LMain; LMain; LMain; LMain; LMain; LMain] (init false 1))
  = (Some (PcClose CloseChanOut), Some true, Some false, Some 1, Some [1; 2; 3; 4]).
Proof. vm_compute. reflexivity. Qed.

(** The shutdown watcher counts itself into the handlers' barrier only
    after its [select] has fired. When the server is stopped while
    [close] is already past its wait on the barrier, the watcher's send
    of the notice of disconnection can meet the closed queue, and panics. *)
Example watcher_can_send_on_closed_queue :
  (fun s : option t => (watcher <$> s, is_closed <$> (chanOut <$> s), panicked <$> s))
    (run sample_config
       [LMain; LRead (ReadFails ErrEOF); LMain; LMain; LMain; LMain;
        LStop; LWatcher true; LMain] (init false 1))
  = (Some (WSend (notice sample_config)), Some true, Some false) /\
  (fun s : option t => (panicked <$> s, s ≫= fun x => last (trace x)))
    (run sample_config
       [LMain; LRead (ReadFails ErrEOF); LMain; LMain; LMain; LMain;
        LStop; LWatcher true; LMain; LWatcher true] (init false 1))
  = (Some true, Some (EvPanic SendOnClosedChannel)).
Proof. split; vm_compute; reflexivity. Qed.

(** ** The claims about a session *)

(** C5: inside a handler invocation, [Write] and [WriteMessage] both
    send an envelope that carries the message identifier of the request
    the invocation owns ([Write] around the given operation,
    [WriteMessage] the given envelope restamped) on the session's
    outbound queue, and the send blocks: the queue has capacity zero, so
    the send goes through exactly when the write pump waits in its
    receive, hands the envelope to the pump, and otherwise the handler
    stays blocked (on the closed queue it panics). *)
Theorem response_writer_stamps_then_sends_blocking :
  forall (cfg : Config) (done : bool) (n : nat) (sched : list Label) (s : t)
         (k : nat) (i : Invocation),
    run cfg sched (init done n) = Some s ->
    panicked s = false ->
    invocations s !! k = Some i ->
    inv_pc i = HServing ->
    (forall po : ProtocolOp,
       messageID (Write {| w_messageID := messageID (inv_message i) |} po)
         = messageID (inv_message i) /\
       protocolOp (Write {| w_messageID := messageID (inv_message i) |} po) = po /\
       blocking_send cfg s (LInvoke k (HWrite po))
         (Write {| w_messageID := messageID (inv_message i) |} po)) /\
    (forall m : LDAPMessage,
       messageID (WriteMessage {| w_messageID := messageID (inv_message i) |} m)
         = messageID (inv_message i) /\
       protocolOp (WriteMessage {| w_messageID := messageID (inv_message i) |} m)
         = protocolOp m /\
       blocking_send cfg s (LInvoke k (HWriteMessage m))
         (WriteMessage {| w_messageID := messageID (inv_message i) |} m)) /\
    (forall c, chanOut s = Some c -> chan_cap c = 0).
Proof.
  intros cfg done n sched s k i Hrun Hnp Hk Hpc.
  pose proof (reachable_Inv _ _ _ _ _ Hrun) as I.
  split; [|split].
  - intros po. split; [reflexivity|]. split; [reflexivity|].
    apply send_chanOut_blocks; [assumption | assumption |].
    unfold step, ProcessRequestMessage. rewrite Hnp, Hk, Hpc. reflexivity.
  - intros m. split; [reflexivity|]. split; [reflexivity|].
    apply send_chanOut_blocks; [assumption | assumption |].
    unfold step, ProcessRequestMessage. rewrite Hnp, Hk, Hpc. reflexivity.
  - intros c Hc. apply (inv_chanOut _ I c Hc).
Qed.

Lemma response_writer_stamps_then_sends_blocking_witness :
  exists (s : t) (i : Invocation),
    run sample_config search_in_flight (init false 1) = Some s /\
    invocations s !! 0 = Some i /\
    (forall po : ProtocolOp,
       messageID (Write {| w_messageID := messageID (inv_message i) |} po) = 1%Z /\
       blocking_send sample_config s (LInvoke 0 (HWrite po))
         (Write {| w_messageID := messageID (inv_message i) |} po)) /\
    (forall m : LDAPMessage,
       messageID (WriteMessage {| w_messageID := messageID (inv_message i) |} m) = 1%Z /\
       blocking_send sample_config s (LInvoke 0 (HWriteMessage m))
         (WriteMessage {| w_messageID := messageID (inv_message i) |} m)).
Proof.
  eexists. eexists. split.
  { vm_compute. reflexivity. }
  split.
  { vm_compute. reflexivity. }
  match goal with
  | |- (forall po, _ /\ blocking_send _ ?s _
                          (Write (mk_writer (messageID (inv_message ?i))) _)) /\ _ =>
      destruct (response_writer_stamps_then_sends_blocking sample_config false 1
                  search_in_flight s 0 i)
        as (H1 & H2 & _)
  end.
  { vm_compute. reflexivity. }
  { reflexivity. }
  { vm_compute. reflexivity. }
  { reflexivity. }
  split.
  - intros po. destruct (H1 po) as (Ha & _ & Hb). split; [exact Ha | exact Hb].
  - intros m. destruct (H2 m) as (Ha & _ & Hb). split; [exact Ha | exact Hb].
Defined.

(** A third signal finds the channel full: its poster stays blocked
    until the handler receives one. *)
Example third_signal_blocks :
  Abandon (Some {| chan_cap := 2; chan_buf := [true; true]; chan_closed := false |})
  = SendBlocked.
Proof. reflexivity. Qed.

(** C7 (counterexample): in the run of [sample_schedule] a search with
    identifier 1 is dispatched, then the unbind request is read; after
    that the handler of the search sends its answer, and the write pump
    writes it to the socket while the session is torn down. *)
Lemma unbind_does_not_silence_handlers_in_flight : ~ unbind_silences_session.
Proof.
  intros H.
  destruct (run sample_config sample_schedule (init false 1)) as [s|] eqn:E;
    [|vm_compute in E; discriminate].
  specialize (H _ _ _ _ _ E). vm_compute in E. injection E as <-.
  specialize (H [EvRead (ReadOk search1); EvGo 0; EvRegister 1%Z 0] unbind2 _ eq_refl eq_refl).
  destruct H as [H _]. discriminate H.
Qed.

(** C7 (amended): when the read loop decodes an unbind request it
    returns at once, into [close]: the request gets no invocation of
    [ProcessRequestMessage], nothing is registered for it, the handlers'
    barrier is not incremented, and nothing is sent or written by that
    step. From then on no read is ever enabled again, no request is
    dispatched, and whatever the registry holds belongs to a request
    dispatched before the unbind. (Handlers already in flight may still
    answer while the session is torn down.) *)
Theorem unbind_ends_the_read_loop :
  forall (cfg : Config) (done : bool) (n : nat) (sched : list Label) (s : t)
         (m : LDAPMessage) (s' : t),
    run cfg sched (init done n) = Some s ->
    is_unbind m = true ->
    step cfg (LRead (ReadOk m)) s = Some s' ->
    (pc s' = PcClose CloseClosing /\
     invocations s' = invocations s /\ requestList s' = requestList s /\
     wg s' = wg s /\ pump s' = pump s /\ chanOut s' = chanOut s /\ wire s' = wire s /\
     enqueued (trace s') = enqueued (trace s) /\ written (trace s') = written (trace s)) /\
    (forall (sched' : list Label) (s'' : t),
       run cfg sched' s' = Some s'' ->
       (forall r, step cfg (LRead r) s'' = None) /\
       length (invocations s'') = length (invocations s) /\
       (forall rl id k, requestList s'' = Some rl -> rl !! id = Some k ->
          k < length (invocations s))).
Proof.
  intros cfg done n sched s m s' Hrun Hm Hstep.
  pose proof (reachable_Inv _ _ _ _ _ Hrun) as I.
  pose proof (Inv_step _ _ _ _ Hstep I) as I'.
  assert (Himm : pc s' = PcClose CloseClosing /\
     invocations s' = invocations s /\ requestList s' = requestList s /\
     wg s' = wg s /\ pump s' = pump s /\ chanOut s' = chanOut s /\ wire s' = wire s /\
     enqueued (trace s') = enqueued (trace s) /\ written (trace s') = written (trace s)).
  { pose proof (read_needs_PcRead _ _ _ _ Hstep) as Hpc.
    unfold step in Hstep. rewrite Hpc in Hstep.
    destruct (panicked s); [discriminate|]. injection Hstep as <-.
    unfold read_iteration. rewrite Hm.
    destruct (ReadTimeout cfg =? 0)%Z, (WriteTimeout cfg =? 0)%Z; simpl;
      rewrite ?enqueued_app, ?written_app; simpl; rewrite ?app_nil_r;
      repeat split; reflexivity. }
  split; [exact Himm|].
  intros sched' s'' Hrun'.
  destruct Himm as (Hpc & Hinv & _).
  assert (Hc : in_close (pc s') = true) by (rewrite Hpc; reflexivity).
  destruct (closing_run _ _ _ _ Hrun' I' Hc) as [Hc'' Hlen].
  pose proof (Inv_run _ _ _ _ Hrun' I') as I''.
  split; [|split].
  - intros r. apply no_read_unless_PcRead. intros E. rewrite E in Hc''. discriminate.
  - rewrite Hlen, Hinv. reflexivity.
  - intros rl id k Hrl Hk. rewrite <- Hinv, <- Hlen. eapply (inv_registry _ I''); eauto.
Qed.

Lemma unbind_ends_the_read_loop_witness :
  exists s s' : t,
    run sample_config search_in_flight (init false 1) = Some s /\
    step sample_config (LRead (ReadOk unbind2)) s = Some s' /\
    pc s' = PcClose CloseClosing /\
    invocations s' = invocations s /\ requestList s' = requestList s /\
    forall (sched' : list Label) (s'' : t),
      run sample_config sched' s' = Some s'' ->
      (forall r, step sample_config (LRead r) s'' = None) /\
      length (invocations s'') = length (invocations s).
Proof.
  eexists. eexists. split.
  { vm_compute. reflexivity. }
  split.
  { vm_compute. reflexivity. }
  match goal with
  | |- pc ?s' = _ /\ invocations _ = invocations ?s /\ _ =>
      destruct (unbind_ends_the_read_loop sample_config false 1 search_in_flight
                  s unbind2 s')
        as ((H1 & H2 & H3 & _) & H4)
  end.
  { vm_compute. reflexivity. }
  { reflexivity. }
  { vm_compute. reflexivity. }
  repeat split; try assumption.
  - apply (H4 sched' s'' H).
  - apply (H4 sched' s'' H).
Defined.

(** C10: whatever errors the encoding of an envelope, the buffered write
    and the flush return, the step of the write pump that writes the
    envelope it holds succeeds, logs nothing and reports nothing (the
    trace gains the write itself and nothing else), leaves the session's
    goroutine, the connection and both channels as they were, does not
    fault, and puts the pump back into its receive; the envelope is on
    the wire exactly when no error occurred. And the pump exits by no
    other way than its own step taken in the receive on the outbound
    queue closed and empty. *)
Theorem write_pump_drops_errors_and_exits_on_close :
  forall cfg : Config,
    (forall (s : t) (m : LDAPMessage) (io : IOOutcome),
       panicked s = false -> pump s = PumpWrite m ->
       exists s', step cfg (LPump io) s = Some s' /\
         pump s' = PumpRecv /\ panicked s' = false /\ pc s' = pc s /\
         rwc_closed s' = rwc_closed s /\ chanOut s' = chanOut s /\
         writeDone s' = writeDone s /\
         trace s' = trace s ++ [EvWriteMessage m io] /\
         wire s' = (if encode_fails io || write_fails io || flush_fails io
                    then wire s else wire s ++ [m])) /\
    (forall (l : Label) (s s' : t),
       step cfg l s = Some s' -> pump s <> PumpExited -> pump s' = PumpExited ->
       (exists io, l = LPump io) /\ pump s = PumpRecv /\
       exists c, chanOut s = Some c /\ chan_closed c = true /\ chan_buf c = []).
Proof.
  intros cfg. split.
  - intros s m io Hnp Hp. unfold step, pump_step. rewrite Hnp, Hp.
    eexists. split; [reflexivity|]. unfold writeMessage.
    destruct (encode_fails io || write_fails io || flush_fails io); simpl;
      repeat split; assumption.
  - intros l s s' H Hne He.
    step_cases H; try contradiction; try congruence.
    all: split; [eexists; reflexivity|]; split; [reflexivity|];
         eexists; repeat split; eassumption.
Qed.

End ClientFacts.

(** * More of the server: numbering, the barrier, the stop signal, startup *)

Module ServerMore.
Import Server.
Local Open Scope nat_scope.

(** ** The accept loop, for every answer of the listener *)

Lemma launched_app a b : launched (a ++ b) = launched a ++ launched b.
Proof. apply omap_app. Qed.
Lemma reports_app a b : reports (a ++ b) = reports a ++ reports b.
Proof. apply omap_app. Qed.

Lemma serve_loop_ok env : forall s i, loop_ok s i env (serve_loop s i env).
Proof.
  induction env as [|e env IH]; intros s i; simpl; destruct (chDone s) eqn:Ed.
  - simpl. repeat split; try done.
  - simpl. repeat split; try done.
  - simpl. repeat split; try done.
  - destruct e as [|rw err|].
    + specialize (IH (set_chDone s true) i).
      destruct (serve_loop (set_chDone s true) i env) as [[o s'] evs]. exact IH.
    + pose proof (IH s i) as IH1. pose proof (IH (wg_Add s) (S i)) as IH2.
      destruct (serve_loop s i env) as [[o1 s1] evs1].
      destruct (serve_loop (wg_Add s) (S i) env) as [[o2 s2] evs2].
      unfold loop_ok in *.
      destruct IH1 as (L1 & W1 & H1 & R1 & O1). destruct IH2 as (L2 & W2 & H2 & R2 & O2).
      destruct (ReadTimeout s =? 0)%Z, (WriteTimeout s =? 0)%Z, rw as [c|],
        err as [[| |]|]; simpl;
        rewrite ?launched_app, ?reports_app; simpl;
        rewrite ?launched_app, ?reports_app; simpl.
      all: try (repeat split; first [ done | assumption ]; fail).
      all: try (simpl in W2, H2;
                split; [f_equal; exact L2|];
                split; [lia|]; split; [exact H2|]; split; [exact R2|];
                destruct o2; first [ assumption | tauto ]).
      all: try (split; [exact L1|]; split; [exact W1|]; split; [exact H1|];
                split; [exact R1|]; destruct o1; first [ assumption | tauto ]).
    + specialize (IH s i).
      destruct (serve_loop s i env) as [[o s'] evs]. exact IH.
Qed.

Lemma serve_ok s env :
  let '(o, s', evs) := serve s env in
  launched evs = seq 1 (length (launched evs)) /\
  wg s' = wg s + length (launched evs) /\
  Handler s' = Handler s /\
  reports evs = [] /\
  (Handler s <> None ->
   match o with
   | Returned => chDone s' = true
   | Blocked => True
   | Panicked r => r = NilDereference /\ existsb nil_accept env = true
   end).
Proof.
  unfold serve. destruct (Handler s) as [h|] eqn:Eh.
  - pose proof (serve_loop_ok env s 0) as Hl. unfold loop_ok in Hl.
    destruct (serve_loop s 0 env) as [[o s'] evs].
    destruct Hl as (L & W & H & R & O).
    assert (La : launched (evs ++ [EvListenerClose]) = launched evs)
      by (rewrite launched_app; apply app_nil_r).
    assert (Ra : reports (evs ++ [EvListenerClose]) = [])
      by (rewrite reports_app, R; reflexivity).
    destruct o; rewrite ?La, ?Ra;
      (split; [exact L|]; split; [exact W|]; split; [congruence|]; split;
       [first [exact R | exact Ra | reflexivity]|]; intros _; exact O).
  - simpl. repeat split; try done; lia.
Qed.

(** X2: whatever the listener answers and however [serve] ends, the
    sessions it has started carry the ordinals 1, 2, 3, ... in the order
    they were started, the server's barrier has been incremented once
    for each of them and for nothing else, and the handler is the one
    registered. An [Accept] that times out or returns no connection
    takes no ordinal. *)
Theorem serve_numbers_and_counts_every_session :
  forall s env,
    launched (events_of (serve s env)) = seq 1 (length (launched (events_of (serve s env)))) /\
    wg (server_of (serve s env)) = wg s + length (launched (events_of (serve s env))) /\
    Handler (server_of (serve s env)) = Handler s.
Proof.
  intros s env. pose proof (serve_ok s env) as H.
  destruct (serve s env) as [[o s'] evs]. unfold events_of, server_of. simpl.
  destruct H as (L & W & H & _). auto.
Qed.

(** X3: with a handler registered, [serve] returns only once the done
    channel is closed, and it faults in no other way than a nil
    dereference, which takes an [Accept] that returned no connection.
    Nothing is said of a [serve] that waits in [Accept]: [Stop] does not
    close the listener, so the done channel may be closed meanwhile. *)
Theorem serve_returns_only_when_stopped :
  forall s env,
    Handler s <> None ->
    match outcome_of (serve s env) with
    | Returned => chDone (server_of (serve s env)) = true
    | Blocked => True
    | Panicked r => r = NilDereference /\ existsb nil_accept env = true
    end.
Proof.
  intros s env Hh. pose proof (serve_ok s env) as H.
  destruct (serve s env) as [[o s'] evs]. unfold outcome_of, server_of. simpl.
  destruct H as (_ & _ & _ & _ & H). exact (H Hh).
Qed.

Lemma serve_loop_stop env1 : forall s i env2,
  serve_loop s i (env1 ++ EnvStop :: env2) = serve_loop s i (env1 ++ [EnvStop]) /\
  fst (fst (serve_loop s i (env1 ++ EnvStop :: env2))) <> Blocked.
Proof.
  induction env1 as [|e env1 IH]; intros s i env2.
  - simpl. destruct (chDone s) eqn:Ed; [split; [reflexivity | discriminate]|].
    destruct env2; simpl; split; try reflexivity; discriminate.
  - simpl. destruct (chDone s) eqn:Ed; [split; [reflexivity | discriminate]|].
    destruct e as [|rw err|]; [| |apply IH].
    + apply IH.
    + pose proof (IH s i env2) as [E1 B1]. pose proof (IH (wg_Add s) (S i) env2) as [E2 B2].
      rewrite E1, E2 in *.
      destruct (serve_loop s i (env1 ++ [EnvStop])) as [[o1 s1] evs1].
      destruct (serve_loop (wg_Add s) (S i) (env1 ++ [EnvStop])) as [[o2 s2] evs2].
      simpl in *.
      destruct (ReadTimeout s =? 0)%Z, (WriteTimeout s =? 0)%Z, rw as [c|],
        err as [[| |]|]; simpl; split; first [ reflexivity | assumption | discriminate ].
Qed.

Lemma serve_returns_only_when_stopped_witness :
  chDone (server_of (serve registered_server [EnvAccept (Some peer) None; EnvStop])) = true.
Proof.
  assert (H : Handler registered_server <> None) by (vm_compute; discriminate).
  exact (serve_returns_only_when_stopped registered_server
           [EnvAccept (Some peer) None; EnvStop] H).
Defined.

(** X4: once the done channel is found closed, [serve] is over: what
    the listener would have answered afterwards changes nothing, no
    further connection is accepted, and [serve] does not stay waiting. *)
Theorem serve_stops_at_the_signal :
  forall s env1 env2,
    serve s (env1 ++ EnvStop :: env2) = serve s (env1 ++ [EnvStop]) /\
    outcome_of (serve s (env1 ++ EnvStop :: env2)) <> Blocked.
Proof.
  intros s env1 env2. unfold serve, outcome_of.
  destruct (Handler s); [|split; [reflexivity | discriminate]].
  destruct (serve_loop_stop env1 s 0 env2) as [E B]. rewrite E in *.
  destruct (serve_loop s 0 (env1 ++ [EnvStop])) as [[o s'] evs]. simpl in *.
  split; [reflexivity | exact B].
Qed.





(** X1: on a server without a handler [serve] panics. [Handle] with a
    handler registers it and returns; a [Handle] after that panics with
    "multiple Handler registrations", whatever it is given, and leaves
    the first handler in place; and from then on [serve] never panics
    for a missing handler, whatever the listener answers. [Handle] with
    the nil handler returns as well and registers nothing: the server
    has no handler afterwards, a later [Handle] does not panic, and
    [serve] still panics for the missing handler. *)
Theorem Handle_registers_once :
  forall s h1 h2 env,
    Handler s = None ->
    outcome_of (serve s env) = Panicked NoHandler /\
    fst (Handle s (Some h1)) = Returned /\
    Handler (snd (Handle s (Some h1))) = Some h1 /\
    Handle (snd (Handle s (Some h1))) h2
    = (Panicked MultipleHandlers, snd (Handle s (Some h1))) /\
    outcome_of (serve (snd (Handle s (Some h1))) env) <> Panicked NoHandler /\
    fst (Handle s None) = Returned /\
    Handler (snd (Handle s None)) = None /\
    Handle (snd (Handle s None)) h2 = (Returned, set_Handler (snd (Handle s None)) h2) /\
    outcome_of (serve (snd (Handle s None)) env) = Panicked NoHandler.
Proof.
  intros s h1 h2 env Hn. unfold Handle. rewrite Hn. simpl.
  split; [unfold serve, outcome_of; rewrite Hn; reflexivity|].
  split; [reflexivity|]. split; [reflexivity|]. split; [reflexivity|].
  split; [|repeat split; reflexivity].
  pose proof (serve_ok (set_Handler s (Some h1)) env) as H.
  unfold outcome_of. destruct (serve (set_Handler s (Some h1)) env) as [[o s'] evs].
  simpl. destruct H as (_ & _ & _ & _ & H). specialize (H ltac:(discriminate)).
  destruct o; try discriminate. destruct H as [-> _]. discriminate.
Qed.

Lemma Handle_registers_once_witness :
  outcome_of (serve NewServer [EnvAccept (Some peer) None]) = Panicked NoHandler /\
  fst (Handle NewServer (Some (mk_handler 1))) = Returned /\
  Handler (snd (Handle NewServer (Some (mk_handler 1)))) = Some (mk_handler 1) /\
  Handle (snd (Handle NewServer (Some (mk_handler 1)))) (Some (mk_handler 2))
  = (Panicked MultipleHandlers, snd (Handle NewServer (Some (mk_handler 1)))) /\
  outcome_of (serve (snd (Handle NewServer (Some (mk_handler 1))))
                [EnvAccept (Some peer) None])
  <> Panicked NoHandler /\
  fst (Handle NewServer None) = Returned /\
  Handler (snd (Handle NewServer None)) = None /\
  Handle (snd (Handle NewServer None)) (Some (mk_handler 2))
  = (Returned, set_Handler (snd (Handle NewServer None)) (Some (mk_handler 2))) /\
  outcome_of (serve (snd (Handle NewServer None)) [EnvAccept (Some peer) None])
  = Panicked NoHandler.
Proof.
  apply (Handle_registers_once NewServer (mk_handler 1) (Some (mk_handler 2))
           [EnvAccept (Some peer) None]).
  reflexivity.
Defined.

End ServerMore.

(** * More of a session: the barriers, the registry, the wire, the faults *)

Module SessionFacts.
Import Client ClientFacts.
Local Open Scope nat_scope.

(** ** Counting the invocations *)

Lemma active_count_app l i :
  active_count (l ++ [i]) = active_count l + (if is_active i then 1 else 0).
Proof. induction l as [|j l IH]; simpl; [lia | rewrite IH; lia]. Qed.

Lemma active_count_insert l k i i' : l !! k = Some i ->
  active_count (<[k := i']> l) + (if is_active i then 1 else 0)
  = active_count l + (if is_active i' then 1 else 0).
Proof.
  revert k. induction l as [|j l IH]; intros k H; [rewrite lookup_nil in H; discriminate|].
  destruct k as [|k]; simpl in *.
  - injection H as ->. lia.
  - specialize (IH k H). lia.
Qed.

Lemma active_count_zero l k i :
  active_count l = 0 -> l !! k = Some i -> inv_pc i = HExited.
Proof.
  revert k. induction l as [|j l IH]; intros k H0 H; [rewrite lookup_nil in H; discriminate|].
  simpl in H0. destruct k as [|k]; simpl in H.
  - injection H as ->. unfold is_active in H0. destruct (inv_pc i); try reflexivity; lia.
  - apply (IH k); [lia | assumption].
Qed.

Lemma Inv2_init cfg done n : Inv2 cfg n (init done n).
Proof.
  split; simpl; try done; try lia.
  all: try (intros; repeat split; try done; lia).
  intros [H|[m H]]; discriminate.
Qed.

Ltac count_inserts :=
  repeat match goal with
  | H : invocations ?s !! ?k = Some ?i
    |- context [active_count (<[?k := ?i']> (invocations ?s))] =>
      let E := fresh "E" in
      pose proof (active_count_insert _ _ _ i' H) as E;
      unfold is_active in E; simpl in E;
      repeat match goal with Hp : inv_pc _ = _ |- _ => rewrite Hp in E end;
      generalize dependent (active_count (<[k := i']> (invocations s)))
  end.

Lemma wg_step cfg n l s s' : step cfg l s = Some s' -> Inv s -> Inv2 cfg n s ->
  wg s' = active_count (invocations s') + watcher_holds (watcher s').
Proof.
  intros H I J. pose proof (i2_wg _ _ _ J) as Hw.
  step_cases H; rewrite ?active_count_app; simpl; try lia.
  all: try (repeat match goal with H : watcher _ = _ |- _ => rewrite H in * end;
            simpl in *; lia).
  all: try (count_inserts; intros; repeat case_match; simpl in *; lia).
  all: match goal with
       | H : pc _ = PcStart |- _ =>
           destruct (inv_start _ I H) as (_ & _ & _ & Hwt & Hiv & _ & _)
       end; rewrite Hwt, Hiv in Hw; rewrite ?Hiv; simpl in *; lia.
Qed.

Ltac use_inline Hi :=
  match goal with
  | H : invocations _ !! ?k = Some ?i, H' : inv_where ?i = OnReadLoop |- _ =>
      let E := fresh "E" in
      pose proof (Hi k i H H' ltac:(congruence)) as E; simplify_eq/=
  end.

Ltac pc_rewrite :=
  repeat match goal with H : pc _ = _ |- _ => rewrite H in * end; simpl in *.

Lemma quiet_step cfg n l s s' : step cfg l s = Some s' -> Inv s -> Inv2 cfg n s ->
  4 <= progress (pc s') -> active_count (invocations s') = 0.
Proof.
  intros H I J. pose proof (i2_wg _ _ _ J) as Hw. pose proof (i2_quiet _ _ _ J) as Hq.
  step_cases H; intros Hp; simpl in *; try lia; try (apply Hq; assumption).
  all: try (pc_rewrite; lia).
  all: try (exfalso;
            match goal with
            | H : invocations _ !! ?k = Some ?i |- _ =>
                pose proof (active_count_zero _ _ _ (Hq Hp) H); congruence
            end).
  all: try (match goal with H : (_ =? 0) = true |- _ => apply Nat.eqb_eq in H end; lia).
  all: specialize (Hq Hp); count_inserts; intros; repeat case_match; simpl in *; lia.
Qed.

Lemma closing_chan_step cfg n l s s' : step cfg l s = Some s' -> Inv s -> Inv2 cfg n s ->
  match pc s' with
  | PcStart => closing s' = None
  | PcRead | PcInline _ | PcClose CloseClosing => is_open (closing s') = true
  | _ => is_closed (closing s') = true
  end.
Proof.
  intros H I J. pose proof (i2_closing _ _ _ J) as Hc. pose proof (inv_inline _ I) as Hi.
  unfold is_open, is_closed in *.
  step_cases H; try assumption; try reflexivity.
  all: try (pc_rewrite; repeat case_match; simplify_eq/=; done).
  all: use_inline Hi; try done; try congruence.
Qed.

Lemma made_step cfg n l s s' : step cfg l s = Some s' -> Inv s -> Inv2 cfg n s ->
  pc s' <> PcStart -> hook_accepts cfg = true ->
  chanOut s' <> None /\ writeDone s' <> None /\ requestList s' <> None.
Proof.
  intros H I J. pose proof (i2_made _ _ _ J) as Hm. unfold hook_accepts in *.
  step_cases H; intros Hp Ha; try (apply Hm; [congruence | assumption]); try done.
  all: try (destruct Hm as (? & ? & ?); [congruence | assumption |];
            repeat split; simpl; try done; try congruence).
  all: try (destruct (requestList s); simpl in *; congruence).
  all: pose proof (inv_inline _ I) as Hi;
    match goal with
    | H : invocations _ !! ?k = Some ?i, H' : inv_where ?i = OnReadLoop |- _ =>
        pose proof (Hi k i H H' ltac:(congruence)) as E
    end; apply Hm; [congruence | assumption].
Qed.

Lemma rejected_step cfg n l s s' : step cfg l s = Some s' -> Inv s -> Inv2 cfg n s ->
  hook_accepts cfg = false ->
  chanOut s' = None /\ writeDone s' = None /\ requestList s' = None /\ watcher s' = WIdle.
Proof.
  intros H I J. pose proof (i2_rejected _ _ _ J) as Hr. unfold hook_accepts in *.
  step_cases H; intros Ha; try (apply Hr; assumption); try done.
  all: try (destruct (Hr Ha) as (? & ? & ? & ?); simplify_eq/=; done).
  all: try (destruct (Hr eq_refl) as (? & ? & ? & ?); simplify_eq/=; done).
  all: destruct (Hr Ha) as (? & ? & E & ?); rewrite E; repeat split; assumption.
Qed.

Lemma queue_step cfg n l s s' : step cfg l s = Some s' -> Inv s -> Inv2 cfg n s ->
  is_closed (chanOut s') = true -> 5 <= progress (pc s').
Proof.
  intros H I J. pose proof (i2_queue _ _ _ J) as Hq. pose proof (inv_inline _ I) as Hi.
  pose proof (inv_start _ I) as Hs.
  unfold is_closed in *.
  step_cases H; intros Hc; simpl in *; try lia; try (apply Hq; assumption); try done.
  all: try (specialize (Hq Hc); pc_rewrite; lia).
  all: try (specialize (Hq eq_refl); pc_rewrite; lia).
  all: try (use_inline Hi; specialize (Hq Hc); pc_rewrite; lia).
  all: try congruence.
Qed.

Lemma writeDone_open_step cfg n l s s' : step cfg l s = Some s' -> Inv s -> Inv2 cfg n s ->
  pump s' = PumpRecv \/ (exists m, pump s' = PumpWrite m) -> is_open (writeDone s') = true.
Proof.
  intros H I J. pose proof (i2_writeDone _ _ _ J) as Hw. unfold is_open in *.
  step_cases H; intros Hp; simpl in *; try (apply Hw; assumption); try done.
  all: try (destruct Hp as [Hp|[? Hp]]; discriminate).
  all: try (apply Hw; first [ left; assumption | right; eexists; eassumption ]).
  all: try (assert (Hw' := Hw ltac:(first [ assumption | left; assumption
                                          | left; reflexivity
                                          | right; eexists; reflexivity
                                          | right; eexists; eassumption ]));
            simplify_eq/=; try done; rewrite ?Hw'; done).
Qed.

Lemma srv_step cfg n l s s' : step cfg l s = Some s' -> Inv s -> Inv2 cfg n s ->
  match pc s' with
  | PcClosed => S (srv_wg s') = n
  | _ => srv_wg s' = n
  end.
Proof.
  intros H I J. pose proof (i2_srv _ _ _ J) as Hs. pose proof (inv_inline _ I) as Hi.
  step_cases H; try assumption.
  all: try (pc_rewrite; congruence).
  all: try (use_inline Hi; congruence).
Qed.

Lemma rwc_step cfg n l s s' : step cfg l s = Some s' -> Inv s -> Inv2 cfg n s ->
  rwc_closed s' = true <-> 7 <= progress (pc s').
Proof.
  intros H I J. pose proof (i2_rwc _ _ _ J) as Hr. pose proof (inv_inline _ I) as Hi.
  step_cases H; try assumption.
  all: try use_inline Hi.
  all: pc_rewrite; destruct (rwc_closed s) eqn:Er; destruct Hr as [Hr1 Hr2];
    split; intros Hx; try done; try lia;
    try (specialize (Hr1 eq_refl); lia);
    try (specialize (Hr2 ltac:(lia)); done).
Qed.

Lemma delivered_app a b : delivered (a ++ b) = delivered a ++ delivered b.
Proof. apply omap_app. Qed.
Lemma reads_app a b : reads (a ++ b) = reads a ++ reads b.
Proof. apply omap_app. Qed.
Lemma panics_app a b : panics (a ++ b) = panics a ++ panics b.
Proof. apply omap_app. Qed.

Lemma registry2_step cfg n l s s' : step cfg l s = Some s' -> Inv s -> Inv2 cfg n s ->
  forall rl id k, requestList s' = Some rl -> rl !! id = Some k ->
    exists i, invocations s' !! k = Some i /\ messageID (inv_message i) = id /\
              (inv_pc i = HServing \/ inv_pc i = HReturning).
Proof.
  intros H I J. pose proof (i2_registry _ _ _ J) as Hr.
  step_cases H; intros rlX idX kX HrX HlX; simplify_eq/=;
    try (eapply Hr; eauto; done).
  all: try (rewrite lookup_empty in HlX; done).
  all: try (edestruct Hr as (iY & HkY & HmY & HpY); [eassumption | eassumption |];
            exists iY; split; [apply lookup_app_l_Some; assumption | split; assumption]).
  all: try (apply lookup_insert_Some in HlX; destruct HlX as [(?&?)|(?&HlX)]; simplify_eq/=).
  all: try (match goal with
            | H : _ <$> _ = Some _ |- _ =>
                apply fmap_Some in H; destruct H as (rl0 & ? & ?); simplify_eq/=
            end;
            apply lookup_delete_Some in HlX; destruct HlX as (? & HlX)).
  all: try (eexists; split;
            [ apply list_lookup_insert_eq; eapply lookup_lt_Some; eassumption
            | simpl; split; [reflexivity | left; reflexivity] ]; fail).
  all: destruct (Hr _ _ _ ltac:(first [reflexivity | eassumption]) HlX)
         as (iY & HkY & HmY & HpY);
    match goal with
    | |- context [<[?k0 := ?i0]> _ !! ?k1] =>
        destruct (decide (k0 = k1)) as [->|Hne];
        [ rewrite list_lookup_insert_eq by (eapply lookup_lt_Some; eassumption);
          simplify_eq/=; eexists; repeat split; simpl;
          first [ reflexivity | assumption | congruence
                | destruct HpY; first [ tauto | congruence ] ]
        | rewrite list_lookup_insert_ne by done; exists iY; done ]
    end.
Qed.

Lemma watcher2_step cfg n l s s' : step cfg l s = Some s' -> Inv s -> Inv2 cfg n s ->
  match watcher s' with
  | WSend m => m = notice cfg /\ srv_chDone s' = true
  | WSent => srv_chDone s' = true
  | _ => True
  end.
Proof.
  intros H I J. pose proof (i2_watcher _ _ _ J) as Hw.
  step_cases H; try assumption; try done.
  all: try (repeat match goal with H : watcher _ = _ |- _ => rewrite H in * end;
            simpl in *; first [ done | tauto | apply Hw | split; [apply Hw | reflexivity] ]).
  all: try (destruct Hw; split; congruence).
  all: try congruence.
Qed.

Lemma wire_step cfg n l s s' : step cfg l s = Some s' -> Inv s -> Inv2 cfg n s ->
  wire s' = delivered (trace s').
Proof.
  intros H I J. pose proof (i2_wire _ _ _ J) as Hw. unfold io_failed in *.
  step_cases H; rewrite ?delivered_app; simpl; rewrite ?app_nil_r; try assumption.
  all: unfold io_failed;
    repeat match goal with H : (_ || _) = _ |- _ => rewrite H end; simpl;
    rewrite ?app_nil_r; congruence.
Qed.

Lemma reads_step cfg n l s s' : step cfg l s = Some s' -> Inv s -> Inv2 cfg n s ->
  reads (trace s') <> [] -> pc s' <> PcStart /\ hook_accepts cfg = true.
Proof.
  intros H I J. pose proof (i2_reads _ _ _ J) as Hr. pose proof (i2_rejected _ _ _ J) as Hj.
  pose proof (inv_nil _ I) as Hn. pose proof (inv_inline _ I) as Hi.
  step_cases H; rewrite ?reads_app; simpl; rewrite ?app_nil_r; intros Hx;
    try (apply Hr; assumption).
  all: try (split; [ first [discriminate | pc_rewrite; congruence] | apply Hr; assumption ]).
  all: try (split; [first [discriminate | congruence]|];
            destruct (hook_accepts cfg) eqn:Ea; [reflexivity|];
            exfalso; destruct (Hj eq_refl) as (Hc & _);
            destruct (Hn Hc) as (_ & _ & Hne); congruence).
Qed.

Lemma Inv2_step cfg n l s s' : step cfg l s = Some s' -> Inv s -> Inv2 cfg n s ->
  Inv2 cfg n s'.
Proof.
  intros H I J. split.
  - eapply wg_step; eauto.
  - eapply quiet_step; eauto.
  - eapply closing_chan_step; eauto.
  - eapply made_step; eauto.
  - eapply rejected_step; eauto.
  - eapply queue_step; eauto.
  - eapply writeDone_open_step; eauto.
  - eapply srv_step; eauto.
  - eapply rwc_step; eauto.
  - eapply registry2_step; eauto.
  - eapply watcher2_step; eauto.
  - eapply wire_step; eauto.
  - eapply reads_step; eauto.
Qed.

Lemma Inv2_run cfg n sched : forall s s', run cfg sched s = Some s' ->
  Inv s -> Inv2 cfg n s -> Inv s' /\ Inv2 cfg n s'.
Proof.
  induction sched as [|l sched IH]; intros s s' H I J; simpl in H.
  - injection H as <-. split; assumption.
  - destruct (step cfg l s) as [s1|] eqn:E; [|discriminate].
    eapply IH; eauto using Inv_step, Inv2_step.
Qed.

Lemma reachable_Inv2 cfg done n sched s :
  run cfg sched (init done n) = Some s -> Inv s /\ Inv2 cfg n s.
Proof. intros H. eapply Inv2_run; eauto using Inv_init, Inv2_init. Qed.


Lemma active_count_pos l k i :
  l !! k = Some i -> inv_pc i <> HExited -> 1 <= active_count l.
Proof.
  intros H Hne. destruct (active_count l) eqn:E; [|lia].
  exfalso. apply Hne. eapply active_count_zero; eauto.
Qed.

Lemma invocation_not_at_start s k i :
  Inv s -> invocations s !! k = Some i -> pc s <> PcStart.
Proof.
  intros I Hk Hpc. destruct (inv_start _ I Hpc) as (_ & _ & _ & _ & E & _).
  rewrite E, lookup_nil in Hk. discriminate.
Qed.

Lemma handler_sees_open_queue cfg n s k i :
  Inv s -> Inv2 cfg n s -> invocations s !! k = Some i -> inv_pc i <> HExited ->
  is_closed (chanOut s) = false.
Proof.
  intros I J Hk Hne. destruct (is_closed (chanOut s)) eqn:E; [|reflexivity].
  exfalso. apply Hne. eapply active_count_zero; [|exact Hk].
  apply (i2_quiet _ _ _ J). pose proof (i2_queue _ _ _ J E). lia.
Qed.

Lemma handler_is_counted cfg n s k i :
  Inv2 cfg n s -> invocations s !! k = Some i -> inv_pc i <> HExited -> wg s <> 0.
Proof.
  intros J Hk Hne. rewrite (i2_wg _ _ _ J).
  pose proof (active_count_pos _ _ _ Hk Hne). lia.
Qed.

(** ** Where a step can fault *)

(** A step faults in two places only. *)
Lemma fault_step cfg n l s s' : step cfg l s = Some s' -> Inv s -> Inv2 cfg n s ->
  hook_accepts cfg = true -> 1 <= n -> panicked s = false -> panicked s' = true ->
  ((exists sd, l = LWatcher sd) /\ watcher s = WSend (notice cfg) /\
   is_closed (chanOut s) = true /\ watcher s' = watcher s /\ chanOut s' = chanOut s /\
   panics (trace s') = panics (trace s) ++ [SendOnClosedChannel]) \/
  ((exists k id, l = LInvoke k (HLookupRace id)) /\ lookup_races s = true /\
   invocations s' = invocations s /\
   panics (trace s') = panics (trace s) ++ [ConcurrentMapAccess]).
Proof.
  intros H I J Ha Hn Hnp.
  step_cases H; rewrite ?panics_app; simpl; rewrite ?app_nil_r; intros Hp';
    try congruence.
  (* close(c.closing) *)
  all: try (exfalso; pose proof (i2_closing _ _ _ J) as X; unfold is_open in X;
            repeat match goal with
                   | H : pc _ = _ |- _ => rewrite H in X
                   | H : closing _ = _ |- _ => rewrite H in X
                   end;
            simpl in X;
            repeat match goal with H : chan_closed _ = _ |- _ => rewrite H in X end;
            simpl in X; congruence).
  (* close(c.chanOut), close(c.writeDone), the nil map *)
  all: try (exfalso;
            assert (Hns : pc s <> PcStart)
              by first [ congruence | eapply invocation_not_at_start; eassumption ];
            destruct (i2_made _ _ _ J Hns Ha) as (X1 & X2 & X3); congruence).
  all: try (exfalso; pose proof (i2_queue _ _ _ J) as X; unfold is_closed in X;
            repeat match goal with H : chanOut _ = _ |- _ => rewrite H in X end;
            specialize (X ltac:(assumption)); pc_rewrite; lia).
  all: try (exfalso; pose proof (i2_writeDone _ _ _ J) as X; unfold is_open in X;
            repeat match goal with H : writeDone _ = _ |- _ => rewrite H in X end;
            specialize (X ltac:(left; assumption)); simpl in X;
            repeat match goal with H : chan_closed _ = _ |- _ => rewrite H in X end;
            simpl in X; congruence).
  (* c.srv.wg.Done() *)
  all: try (exfalso; pose proof (i2_srv _ _ _ J) as X; pc_rewrite; lia).
  (* c.wg.Done() *)
  all: try (exfalso; pose proof (i2_wg _ _ _ J) as X;
            repeat match goal with H : watcher _ = _ |- _ => rewrite H in X end;
            simpl in X; lia).
  all: try (exfalso; eapply handler_is_counted; [exact J | eassumption | congruence | assumption]).
  (* a handler's send, a post on Done *)
  all: try (exfalso;
            match goal with
            | H : invocations _ !! ?k = Some ?i, H' : inv_pc ?i = HServing |- _ =>
                pose proof (handler_sees_open_queue _ _ _ k i I J H ltac:(congruence)) as X
            end;
            unfold is_closed in X;
            repeat match goal with H : chanOut _ = _ |- _ => rewrite H in X end;
            congruence).
  all: try (exfalso;
            match goal with
            | H : invocations _ !! ?k = Some ?i, H' : inv_Done ?i = Some ?c |- _ =>
                destruct (inv_Done_cap _ I k i c H H') as (_ & _ & X)
            end; congruence).
  - left. pose proof (i2_watcher _ _ _ J) as X.
    match goal with H : watcher _ = _ |- _ => rewrite H in X end.
    destruct X as [-> _]. repeat split; try reflexivity; try assumption.
    eexists; reflexivity.
  - right. repeat split; try reflexivity. eexists; eexists; reflexivity.
Qed.

Lemma quiet_trace_step cfg l s s' : step cfg l s = Some s' -> panicked s' = false ->
  panics (trace s') = panics (trace s).
Proof.
  intros H. step_cases H; rewrite ?panics_app; simpl; rewrite ?app_nil_r;
    intros Hp; first [ reflexivity | discriminate ].
Qed.

Lemma calm_step cfg n l s s' : step cfg l s = Some s' -> Inv s -> Inv2 cfg n s ->
  hook_accepts cfg = true -> 1 <= n -> calm cfg s -> calm cfg s'.
Proof.
  intros H I J Ha Hn [[Hnp Hps]|[[Hp _]|[Hp _]]];
    try (unfold step in H; rewrite Hp in H; discriminate).
  destruct (panicked s') eqn:Hp'.
  - destruct (fault_step _ _ _ _ _ H I J Ha Hn Hnp Hp')
      as [(_ & Hw & Hq & Ew & Ec & Et)|(_ & Hr & Ei & Et)].
    + right. left. rewrite Et, Hps, Ew, Ec. repeat split; assumption.
    + right. right. rewrite Et, Hps. unfold lookup_races in *. rewrite Ei.
      repeat split; assumption.
  - left. split; [exact Hp'|]. rewrite (quiet_trace_step _ _ _ _ H Hp'). exact Hps.
Qed.

Lemma calm_run cfg n sched : forall s s', run cfg sched s = Some s' ->
  Inv s -> Inv2 cfg n s -> hook_accepts cfg = true -> 1 <= n -> calm cfg s -> calm cfg s'.
Proof.
  induction sched as [|l sched IH]; intros s s' H I J Ha Hn Hc; simpl in H.
  - injection H as <-. exact Hc.
  - destruct (step cfg l s) as [s1|] eqn:E; [|discriminate].
    pose proof (Inv2_step _ _ _ _ _ E I J) as J1.
    pose proof (Inv_step _ _ _ _ E I) as I1.
    pose proof (calm_step _ _ _ _ _ E I J Ha Hn Hc) as C1.
    exact (IH _ _ H I1 J1 Ha Hn C1).
Qed.

Lemma dispatched_insert (l : list Invocation) k i i' :
  l !! k = Some i -> inv_message i' = inv_message i -> inv_where i' = inv_where i ->
  map (fun i => (inv_message i, inv_where i)) (<[k := i']> l)
  = map (fun i => (inv_message i, inv_where i)) l.
Proof.
  revert k. induction l as [|j l IH]; intros k H Hm Hw; [reflexivity|].
  destruct k as [|k]; simpl in *.
  - injection H as ->. rewrite Hm, Hw. reflexivity.
  - f_equal. apply (IH k); assumption.
Qed.

Lemma Inv3_init cfg done n : Inv3 cfg (init done n).
Proof.
  split; simpl; try done; try lia.
  intros [H|[]]. discriminate.
Qed.

Lemma dispatch_step cfg n l s s' : step cfg l s = Some s' -> Inv s -> Inv2 cfg n s ->
  Inv3 cfg s -> dispatched s' = omap (dispatch cfg) (reads (trace s')).
Proof.
  intros H I J K. pose proof (i3_dispatch _ _ K) as Hd. unfold dispatched in *.
  step_cases H; rewrite ?reads_app; simpl; rewrite ?app_nil_r; try assumption.
  all: try (erewrite dispatched_insert; [assumption | eassumption | reflexivity | reflexivity]).
  all: rewrite omap_app, ?map_app; simpl;
    repeat match goal with H : is_unbind _ = _ |- _ => rewrite H end;
    repeat match goal with H : is_starttls _ _ = _ |- _ => rewrite H end;
    simpl; rewrite ?app_nil_r; congruence.
Qed.

Lemma removelast_snoc {A} (l : list A) x : removelast (l ++ [x]) = l.
Proof. apply removelast_last. Qed.

Lemma forallb_removelast {A} (f : A -> bool) l :
  forallb f l = true -> forallb f (removelast l) = true.
Proof.
  induction l as [|x l IH]; [done|]. simpl. intros [Hx Hl]%andb_prop.
  destruct l; [done|]. simpl in *. rewrite Hx. apply IH. assumption.
Qed.

Lemma reading_step cfg n l s s' : step cfg l s = Some s' -> Inv s -> Inv2 cfg n s ->
  Inv3 cfg s -> in_close (pc s') = false -> forallb dispatching (reads (trace s')) = true.
Proof.
  intros H I J K. pose proof (i3_reading _ _ K) as Hr.
  pose proof (inv_inline _ I) as Hi. pose proof (inv_start _ I) as Hs.
  pose proof (i2_reads _ _ _ J) as Hn.
  step_cases H; rewrite ?reads_app; simpl; rewrite ?app_nil_r; try discriminate;
    try assumption.
  all: intros Hx; rewrite ?forallb_app; simpl;
    repeat match goal with H : is_unbind _ = _ |- _ => rewrite H end; simpl;
    rewrite ?andb_true_r.
  all: try (apply Hr; first [ assumption | pc_rewrite; first [reflexivity | discriminate] ]).
  match goal with
  | H : invocations _ !! ?k = Some ?i, H' : inv_where ?i = OnReadLoop |- _ =>
      apply Hr; rewrite (Hi k i H H' ltac:(congruence)); reflexivity
  end.
Qed.

Lemma reads_last_step cfg n l s s' : step cfg l s = Some s' -> Inv s -> Inv2 cfg n s ->
  Inv3 cfg s -> forallb dispatching (removelast (reads (trace s'))) = true.
Proof.
  intros H I J K. pose proof (i3_reading _ _ K) as Hr. pose proof (i3_reads _ _ K) as Hl.
  step_cases H; rewrite ?reads_app; simpl; rewrite ?app_nil_r, ?removelast_snoc;
    try assumption.
  all: apply Hr; pc_rewrite; reflexivity.
Qed.

Lemma notice_step cfg n l s s' : step cfg l s = Some s' -> Inv s -> Inv2 cfg n s ->
  Inv3 cfg s ->
  watcher s' = WSent \/ In (EvSetReadDeadline ByWatcher) (trace s') ->
  In (EvEnqueue (notice cfg)) (trace s') /\ srv_chDone s' = true.
Proof.
  intros H I J K. pose proof (i3_notice _ _ K) as Hw.
  pose proof (i2_watcher _ _ _ J) as Hn.
  step_cases H; rewrite ?in_app_iff; simpl; try assumption.
  all: repeat match goal with H : watcher _ = _ |- _ => rewrite H in * end.
  all: intuition (try discriminate; try congruence).
Qed.

Lemma stuck_step cfg n l s s' : step cfg l s = Some s' -> Inv s -> Inv2 cfg n s ->
  Inv3 cfg s -> hook_accepts cfg = false -> progress (pc s') <= 4.
Proof.
  intros H I J K Ha. pose proof (i3_stuck _ _ K Ha) as Hp.
  destruct (i2_rejected _ _ _ J Ha) as (Hc & _ & _ & _).
  destruct (inv_nil _ I Hc) as (_ & Hiv & Hnr).
  step_cases H; simpl; try lia; try assumption; try congruence.
  all: try (pc_rewrite; lia).
  all: try (rewrite Hiv, lookup_nil in *; discriminate).
Qed.

Lemma silent_step cfg n l s s' : step cfg l s = Some s' -> Inv s -> Inv2 cfg n s ->
  Inv3 cfg s -> chanOut s' = None -> enqueued (trace s') = [].
Proof.
  intros H I J K. pose proof (i3_silent _ _ K) as Hq.
  step_cases H; rewrite ?enqueued_app; simpl; rewrite ?app_nil_r; try discriminate;
    try assumption.
  all: intros Hx; first [ congruence | rewrite Hq by assumption; reflexivity ].
Qed.

Lemma Inv3_step cfg n l s s' : step cfg l s = Some s' -> Inv s -> Inv2 cfg n s ->
  Inv3 cfg s -> Inv3 cfg s'.
Proof.
  intros H I J K. split.
  - eapply dispatch_step; eauto.
  - eapply reading_step; eauto.
  - eapply reads_last_step; eauto.
  - eapply notice_step; eauto.
  - eapply stuck_step; eauto.
  - eapply silent_step; eauto.
Qed.

Lemma Inv3_run cfg n sched : forall s s', run cfg sched s = Some s' ->
  Inv s -> Inv2 cfg n s -> Inv3 cfg s -> Inv s' /\ Inv2 cfg n s' /\ Inv3 cfg s'.
Proof.
  induction sched as [|l sched IH]; intros s s' H I J K; simpl in H.
  - injection H as <-. split; [|split]; assumption.
  - destruct (step cfg l s) as [s1|] eqn:E; [|discriminate].
    eapply IH; eauto using Inv_step, Inv2_step, Inv3_step.
Qed.

Lemma reachable_Inv3 cfg done n sched s :
  run cfg sched (init done n) = Some s -> Inv s /\ Inv2 cfg n s /\ Inv3 cfg s.
Proof. intros H. eapply Inv3_run; eauto using Inv_init, Inv2_init, Inv3_init. Qed.

Lemma delivered_sublist tr : delivered tr `sublist_of` written tr.
Proof.
  induction tr as [|e tr IH]; [constructor|].
  unfold delivered, written in *. simpl.
  destruct e; simpl; try assumption.
  destruct (io_failed io); [apply sublist_cons | apply sublist_skip]; assumption.
Qed.

Lemma delivered_all_ok tr : all_written_ok tr = true -> delivered tr = written tr.
Proof.
  induction tr as [|e tr IH]; [done|].
  unfold delivered, written, all_written_ok in *. simpl.
  intros [He Ht]%andb_prop. destruct e; simpl; auto.
  destruct (io_failed io); [discriminate|]. f_equal. auto.
Qed.

(** ** The socket and the goroutines of the sweep *)

Lemma frames_app a b : frames (a ++ b) = frames a ++ frames b.
Proof. apply omap_app. Qed.

Lemma Inv5_init done n : Inv5 (init done n).
Proof.
  split; simpl; done.
Qed.

Lemma socket_step cfg l s s' : step cfg l s = Some s' -> Inv5 s ->
  socket s' = frames (trace s').
Proof.
  intros H K. pose proof (i5_socket _ K) as Hs.
  step_cases H; rewrite ?frames_app; simpl; rewrite ?app_nil_r; try assumption.
  all: unfold sent_frame;
    repeat match goal with H : _ = _ |- _ => rewrite H end; simpl; congruence.
Qed.

Lemma Done_set_step cfg l s s' : step cfg l s = Some s' -> Inv5 s ->
  forall k i, invocations s' !! k = Some i -> inv_pc i <> HEntered -> inv_Done i <> None.
Proof.
  intros H K. pose proof (i5_Done _ K) as Hd.
  step_cases H; intros kX iX HkX HpX; try (eapply Hd; eassumption).
  all: lookups; simpl in *; try congruence; try (eapply Hd; eassumption).
  all: eapply Hd; [eassumption | congruence].
Qed.

Lemma abandons_step cfg n l s s' : step cfg l s = Some s' -> Inv s -> Inv2 cfg n s ->
  Inv5 s ->
  forall j k b, abandons s' !! j = Some (k, b) ->
    exists i, invocations s' !! k = Some i /\ inv_pc i <> HEntered.
Proof.
  intros H I J K. pose proof (i5_abandons _ K) as Hab.
  pose proof (i2_registry _ _ _ J) as Hr.
  step_cases H; intros jX kX bX HjX; try (eapply Hab; eassumption).
  (* the sweep *)
  { apply lookup_app_Some in HjX as [HjX|[_ HjX]]; [eapply Hab; eassumption|].
    apply list_lookup_fmap_Some in HjX as ([id k'] & E & Hin). simpl in E.
    injection E as -> ->.
    apply list_elem_of_lookup_2 in Hin. unfold registered in Hin.
    destruct (requestList s) as [rl|] eqn:Erl; [|inversion Hin].
    apply elem_of_map_to_list in Hin.
    destruct (Hr _ _ _ eq_refl Hin) as (i & Hk & _ & [Hp|Hp]);
      exists i; (split; [exact Hk | congruence]). }
  (* the goroutine of a sweep has posted *)
  all: try (apply list_lookup_insert_Some in HjX as [(_ & E & _)|(_ & HjX)];
            [injection E as <- <-|]).
  (* a dispatch *)
  all: try (edestruct Hab as (iY & HkY & HpY); [eassumption|];
            exists iY; split; [apply lookup_app_l_Some; exact HkY | exact HpY]; fail).
  (* an update of an invocation *)
  all: try (edestruct Hab as (iY & HkY & HpY); [eassumption|];
            match goal with
            | |- context [<[?k0 := ?i0]> _ !! ?k1] =>
                destruct (decide (k0 = k1)) as [->|Hne];
                [ exists i0; split;
                  [ apply list_lookup_insert_eq; eapply lookup_lt_Some; eassumption
                  | simpl; simplify_eq/=; congruence ]
                | exists iY; split; [rewrite list_lookup_insert_ne by exact Hne; exact HkY
                                    | exact HpY] ]
            end; fail).
  all: try (eapply Hab; eassumption).
  destruct (Hab _ _ _ H1) as (iY & HkY & HpY). simplify_eq/=.
  eexists. split; [apply list_lookup_insert_eq; eapply lookup_lt_Some; eassumption|].
  exact HpY.
Qed.

Lemma Inv5_step cfg n l s s' : step cfg l s = Some s' -> Inv s -> Inv2 cfg n s ->
  Inv5 s -> Inv5 s'.
Proof.
  intros H I J K. split.
  - eapply socket_step; eauto.
  - eapply Done_set_step; eauto.
  - eapply abandons_step; eauto.
Qed.

Lemma Invs_step cfg n l s s' : step cfg l s = Some s' -> Invs cfg n s -> Invs cfg n s'.
Proof.
  intros H [I J K L]. split;
    eauto using Inv_step, Inv2_step, Inv3_step, Inv5_step.
Qed.

Lemma Invs_run cfg n sched : forall s s', run cfg sched s = Some s' ->
  Invs cfg n s -> Invs cfg n s'.
Proof.
  induction sched as [|l sched IH]; intros s s' H V; simpl in H.
  - injection H as <-. exact V.
  - destruct (step cfg l s) as [s1|] eqn:E; [|discriminate].
    eapply IH; eauto using Invs_step.
Qed.

Lemma reachable_Invs cfg done n sched s :
  run cfg sched (init done n) = Some s -> Invs cfg n s.
Proof.
  intros H. eapply Invs_run; [exact H|].
  split; auto using Inv_init, Inv2_init, Inv3_init, Inv5_init.
Qed.

Lemma run_app cfg a : forall b s s', run cfg (a ++ b) s = Some s' <->
  exists s1, run cfg a s = Some s1 /\ run cfg b s1 = Some s'.
Proof.
  induction a as [|l a IH]; intros b s s'; simpl.
  - split; [intros H; exists s; auto | intros (s1 & E & H); congruence].
  - destruct (step cfg l s) as [s1|]; [apply IH|].
    split; [discriminate | intros (s1 & E & _); discriminate].
Qed.

(** ** Posting a cancellation signal *)

(** The cancellation channel of a request that has been entered. *)
Lemma Done_of_entered cfg n s k i : Invs cfg n s ->
  invocations s !! k = Some i -> inv_pc i <> HEntered ->
  exists c, inv_Done i = Some c /\ chan_cap c = 2 /\ length (chan_buf c) <= 2 /\
            chan_closed c = false.
Proof.
  intros [I _ _ L] Hk Hp. destruct (inv_Done i) as [c|] eqn:Ed.
  - exists c. destruct (inv_Done_cap _ I k i c Hk Ed) as (? & ? & ?). auto.
  - exfalso. exact (i5_Done _ L k i Hk Hp Ed).
Qed.

Lemma post_Abandon_spec s k i c :
  invocations s !! k = Some i -> inv_Done i = Some c ->
  chan_cap c = 2 -> chan_closed c = false ->
  post_Abandon s k =
    if length (chan_buf c) <? 2
    then Some (log_event
                 (set_invocation s k
                    (with_Done i (Some {| chan_cap := chan_cap c;
                                          chan_buf := chan_buf c ++ [true];
                                          chan_closed := false |})))
                 (EvAbandonPosted k))
    else None.
Proof.
  intros Hk Hd Hcap Hcl. unfold post_Abandon, Abandon, chan_send.
  rewrite Hk, Hd, Hcl, Hcap. simpl. destruct (length (chan_buf c) <? 2); reflexivity.
Qed.

(** What a post on the cancellation channel of the request [k] does,
    whoever posts: it goes through at once while fewer than two signals
    wait, and blocks the poster when two do. *)
Lemma post_goes_through_or_blocks cfg n s k i l :
  Invs cfg n s -> panicked s = false ->
  invocations s !! k = Some i -> inv_pc i <> HEntered ->
  (exists j, l = LAbandon j /\ abandons s !! j = Some (k, false)) \/
  (exists k0 i0 id, l = LInvoke k0 (HAbandon id) /\ invocations s !! k0 = Some i0 /\
                    inv_pc i0 = HServing /\ GetMessageByID s id = Some k) ->
  exists c, inv_Done i = Some c /\
    if length (chan_buf c) <? 2
    then exists s', step cfg l s = Some s' /\ posted s s' k i c
    else step cfg l s = None.
Proof.
  intros V Hnp Hk Hp Hl.
  destruct (Done_of_entered _ _ _ _ _ V Hk Hp) as (c & Hd & Hcap & Hlen & Hcl).
  exists c. split; [exact Hd|].
  pose proof (post_Abandon_spec _ _ _ _ Hk Hd Hcap Hcl) as Hpost.
  destruct Hl as [(j & -> & Hj)|(k0 & i0 & id & -> & Hk0 & Hp0 & Hg)].
  - unfold step, abandon_step. rewrite Hnp, Hj, Hpost.
    destruct (length (chan_buf c) <? 2); [|reflexivity].
    eexists. split; [reflexivity|]. unfold posted. simpl. auto.
  - unfold step, ProcessRequestMessage. rewrite Hnp, Hk0, Hp0, Hg, Hpost.
    destruct (length (chan_buf c) <? 2); [|reflexivity].
    eexists. split; [reflexivity|]. unfold posted. simpl. auto.
Qed.

(** ** What a session does, in every state it reaches *)

(** X6: every request the read loop reads, other than an unbind request,
    is handed to [ProcessRequestMessage] exactly once, in the order of
    arrival: a StartTLS request on the read loop, any other in a
    goroutine of its own. Nothing else is ever dispatched. *)
Theorem every_request_read_is_dispatched_once :
  forall cfg done n sched s,
    run cfg sched (init done n) = Some s ->
    dispatched s = omap (dispatch cfg) (reads (trace s)).
Proof.
  intros cfg done n sched s H.
  destruct (reachable_Inv3 _ _ _ _ _ H) as (_ & _ & K). apply (i3_dispatch _ _ K).
Qed.

Lemma every_request_read_is_dispatched_once_witness :
  exists s : t,
    run sample_config sample_schedule (init false 1) = Some s /\
    dispatched s = omap (dispatch sample_config) (reads (trace s)).
Proof.
  eexists. split; [vm_compute; reflexivity|].
  apply (every_request_read_is_dispatched_once sample_config false 1 sample_schedule).
  vm_compute. reflexivity.
Defined.

(** X7: a session reads again only after a request other than unbind:
    a read that fails, a packet that does not decode and an unbind
    request each end the reading for good, so that every read but the
    last one returned a request that was dispatched. *)
Theorem reading_stops_at_the_first_bad_read :
  forall cfg done n sched s pre r r' post,
    run cfg sched (init done n) = Some s ->
    reads (trace s) = pre ++ r :: r' :: post ->
    dispatching r = true.
Proof.
  intros cfg done n sched s pre r r' post H E.
  destruct (reachable_Inv3 _ _ _ _ _ H) as (_ & _ & K).
  pose proof (i3_reads _ _ K) as Hr. rewrite E in Hr.
  rewrite removelast_app in Hr by discriminate.
  rewrite forallb_app in Hr. apply andb_prop in Hr as [_ Hr].
  simpl in Hr. apply andb_prop in Hr as [Hr _]. exact Hr.
Qed.

Lemma reading_stops_at_the_first_bad_read_witness :
  exists s : t,
    run sample_config sample_schedule (init false 1) = Some s /\
    reads (trace s) = [ReadOk search1; ReadOk unbind2] /\
    dispatching (ReadOk search1) = true.
Proof.
  eexists. split; [vm_compute; reflexivity|]. split; [vm_compute; reflexivity|].
  eapply (reading_stops_at_the_first_bad_read sample_config false 1 sample_schedule
            _ [] (ReadOk search1) (ReadOk unbind2) []).
  - vm_compute. reflexivity.
  - vm_compute. reflexivity.
Defined.

Lemma written_frames tr : written tr = map frame_message (frames tr).
Proof.
  induction tr as [|e tr IH]; [reflexivity|].
  destruct e; simpl; try exact IH.
  rewrite IH. unfold sent_frame.
  destruct (encode_fails io), (write_fails io || flush_fails io); reflexivity.
Qed.

Lemma delivered_frames tr : delivered tr = omap whole_envelope (frames tr).
Proof.
  induction tr as [|e tr IH]; [reflexivity|].
  destruct e; simpl; try exact IH.
  rewrite IH. unfold sent_frame, io_failed.
  destruct (encode_fails io), (write_fails io), (flush_fails io); reflexivity.
Qed.

Lemma frames_all_ok tr : all_written_ok tr = true ->
  frames tr = map (fun m => Whole (Encoded m)) (written tr).
Proof.
  induction tr as [|e tr IH]; [reflexivity|].
  destruct e; simpl; try exact IH.
  intros H. apply andb_prop in H as [H1 H2]. rewrite (IH H2).
  unfold sent_frame, io_failed in *.
  destruct (encode_fails io), (write_fails io), (flush_fails io); try discriminate.
  reflexivity.
Qed.

(** X8: every call of [writeMessage] puts a frame on the socket,
    whatever its three calls return: what [m.Write()] returned (the
    encoding of the envelope, or what came with its error), whole, or in
    part when [c.bw.Write] or [c.bw.Flush] failed. The frames on the
    socket are those of the envelopes sent on the outbound queue, in the
    order of the sends, up to the envelope the pump holds, and of all of
    them once the connection is closed. The wire holds the envelopes
    whose frame is whole and well encoded; when no call failed, every
    frame is, and the wire is the queue. *)
Theorem socket_carries_the_queue_in_order :
  forall cfg done n sched s,
    run cfg sched (init done n) = Some s ->
    socket s = frames (trace s) /\
    map frame_message (socket s) ++ pump_pending s = enqueued (trace s) /\
    wire s = omap whole_envelope (socket s) /\
    (rwc_closed s = true -> map frame_message (socket s) = enqueued (trace s)) /\
    (all_written_ok (trace s) = true ->
       socket s = map (fun m => Whole (Encoded m)) (wire s) /\
       wire s ++ pump_pending s = enqueued (trace s)).
Proof.
  intros cfg done n sched s H.
  destruct (reachable_Invs _ _ _ _ _ H) as [I J _ V].
  pose proof (i5_socket _ V) as Es. rewrite Es.
  split; [reflexivity|].
  rewrite <- written_frames, (i2_wire _ _ _ J), (inv_flush _ I), delivered_frames.
  split; [reflexivity|]. split; [reflexivity|]. split.
  - intros Hc. apply (i2_rwc _ _ _ J) in Hc.
    unfold pump_pending. rewrite (inv_late _ I) by lia. rewrite app_nil_r. reflexivity.
  - intros Hok. rewrite <- delivered_frames, (delivered_all_ok _ Hok).
    split; [apply (frames_all_ok _ Hok) | reflexivity].
Qed.

Lemma socket_carries_the_queue_in_order_witness :
  exists s : t,
    run sample_config failed_write_schedule (init false 1) = Some s /\
    socket s = [Part (Encoded {| messageID := 1; protocolOp := entry |})] /\
    wire s = [] /\
    socket s = frames (trace s) /\
    map frame_message (socket s) ++ pump_pending s = enqueued (trace s) /\
    wire s = omap whole_envelope (socket s) /\
    (rwc_closed s = true -> map frame_message (socket s) = enqueued (trace s)) /\
    (all_written_ok (trace s) = true ->
       socket s = map (fun m => Whole (Encoded m)) (wire s) /\
       wire s ++ pump_pending s = enqueued (trace s)).
Proof.
  eexists. split; [vm_compute; reflexivity|].
  split; [vm_compute; reflexivity|]. split; [vm_compute; reflexivity|].
  apply (socket_carries_the_queue_in_order sample_config false 1 failed_write_schedule).
  vm_compute. reflexivity.
Defined.

(** X9: the session releases the server's barrier once, as the last
    thing it does: until [close] has returned the server's counter is
    untouched, and when it has, the counter is one less, the connection
    is closed, the write pump has exited and every handler has returned. *)
Theorem server_is_released_last_and_once :
  forall cfg done n sched s,
    run cfg sched (init done n) = Some s ->
    (pc s <> PcClosed -> srv_wg s = n) /\
    (pc s = PcClosed ->
       S (srv_wg s) = n /\ rwc_closed s = true /\ pump s = PumpExited /\
       is_closed (chanOut s) = true /\
       forall k i, invocations s !! k = Some i -> inv_pc i = HExited).
Proof.
  intros cfg done n sched s H.
  destruct (reachable_Inv3 _ _ _ _ _ H) as (I & J & _).
  pose proof (i2_srv _ _ _ J) as Hs. split.
  - intros Hne. destruct (pc s); congruence.
  - intros Hpc. rewrite Hpc in Hs. split; [exact Hs|].
    assert (Hp : progress (pc s) = 8) by (rewrite Hpc; reflexivity).
    split; [apply (i2_rwc _ _ _ J); lia|].
    assert (He : pump s = PumpExited) by (apply (inv_late _ I); lia).
    split; [exact He|]. split; [apply (inv_exited _ I He)|].
    intros k i Hk. eapply active_count_zero; [|exact Hk].
    apply (i2_quiet _ _ _ J). lia.
Qed.

Lemma server_is_released_last_and_once_witness :
  exists s : t,
    run sample_config sample_schedule (init false 1) = Some s /\
    (pc s <> PcClosed -> srv_wg s = 1) /\
    (pc s = PcClosed ->
       S (srv_wg s) = 1 /\ rwc_closed s = true /\ pump s = PumpExited /\
       is_closed (chanOut s) = true /\
       forall k i, invocations s !! k = Some i -> inv_pc i = HExited).
Proof.
  eexists. split; [vm_compute; reflexivity|].
  apply (server_is_released_last_and_once sample_config false 1 sample_schedule).
  vm_compute. reflexivity.
Defined.

(** X10: when the admission hook rejects the connection, the session
    reads nothing, dispatches nothing and writes nothing, and its
    teardown stops at the close of the outbound queue, which was never
    made: the close panics, the connection is never closed and the
    server's barrier is never released. *)
Theorem rejected_connection_is_never_closed :
  forall cfg done n sched s,
    hook_accepts cfg = false ->
    run cfg sched (init done n) = Some s ->
    reads (trace s) = [] /\ invocations s = [] /\ wire s = [] /\
    rwc_closed s = false /\ srv_wg s = n /\ pc s <> PcClosed /\
    (pc s = PcClose CloseChanOut -> panicked s = false ->
     step cfg LMain s = Some (panic s CloseOfNilOrClosedChannel)).
Proof.
  intros cfg done n sched s Ha H.
  destruct (reachable_Inv3 _ _ _ _ _ H) as (I & J & K).
  pose proof (i3_stuck _ _ K Ha) as Hp.
  destruct (i2_rejected _ _ _ J Ha) as (Hc & _ & _ & _).
  destruct (inv_nil _ I Hc) as (_ & Hiv & _).
  assert (Hr : reads (trace s) = []).
  { destruct (reads (trace s)) eqn:E; [reflexivity|].
    destruct (i2_reads _ _ _ J) as [_ Hx]; [rewrite E; discriminate | congruence]. }
  assert (Hne : pc s <> PcClosed) by (intros E; rewrite E in Hp; simpl in Hp; lia).
  repeat split; try assumption.
  - pose proof (inv_flush _ I) as Hf. rewrite (i3_silent _ _ K Hc) in Hf.
    symmetry in Hf. apply app_eq_nil in Hf as [Hf _].
    pose proof (delivered_sublist (trace s)) as Hd. rewrite Hf in Hd.
    rewrite (i2_wire _ _ _ J). apply sublist_nil_r. exact Hd.
  - destruct (rwc_closed s) eqn:E; [|reflexivity].
    apply (i2_rwc _ _ _ J) in E. lia.
  - pose proof (i2_srv _ _ _ J) as Hs. destruct (pc s); congruence.
  - intros Hpc Hnp. unfold step. rewrite Hnp, Hpc. unfold close, chan_close.
    rewrite Hc. reflexivity.
Qed.

Lemma rejected_connection_is_never_closed_witness :
  exists s : t,
    run rejecting_config [LMain; LMain; LMain; LMain; LMain] (init false 1) = Some s /\
    reads (trace s) = [] /\ invocations s = [] /\ wire s = [] /\
    rwc_closed s = false /\ srv_wg s = 1 /\ pc s <> PcClosed /\
    (pc s = PcClose CloseChanOut -> panicked s = false ->
     step rejecting_config LMain s = Some (panic s CloseOfNilOrClosedChannel)).
Proof.
  eexists. split; [vm_compute; reflexivity|].
  apply (rejected_connection_is_never_closed rejecting_config false 1
           [LMain; LMain; LMain; LMain; LMain]).
  - reflexivity.
  - vm_compute. reflexivity.
Defined.

(** ** Faults *)



(** X19: the second fault that X11 leaves open does occur: for every
    configuration whose hook lets the connection in, when a request is
    being served while the call for another request has not yet
    registered it, a [GetMessageByID] of the handler reads the registry
    while [registerRequest] writes it, and the session faults with a
    concurrent map read and map write. *)
Theorem registry_lookup_can_race_with_a_write :
  forall (cfg : Config) (done : bool) (n : nat) (id : Z),
    hook_accepts cfg = true ->
    exists s s' : t,
      run cfg lookup_during_register (init done n) = Some s /\
      panicked s = false /\
      (inv_pc <$> invocations s !! 0) = Some HEntered /\
      (inv_pc <$> invocations s !! 1) = Some HServing /\
      step cfg (LInvoke 1 (HLookupRace id)) s = Some s' /\
      panicked s' = true /\ panics (trace s') = [ConcurrentMapAccess].
Proof.
  intros cfg done n id Ha.
  unfold hook_accepts in Ha.
  destruct cfg as [rt wt onc tls disc unw]; simpl in Ha.
  destruct rt, wt, onc as [[|]|]; try discriminate Ha.
  all: eexists; eexists; split; [ vm_compute; reflexivity | vm_compute; repeat split; reflexivity ].
Qed.

Lemma registry_lookup_can_race_with_a_write_witness :
  exists s s' : t,
    run sample_config lookup_during_register (init false 1) = Some s /\
    panicked s = false /\
    (inv_pc <$> invocations s !! 0) = Some HEntered /\
    (inv_pc <$> invocations s !! 1) = Some HServing /\
    step sample_config (LInvoke 1 (HLookupRace 1%Z)) s = Some s' /\
    panicked s' = true /\ panics (trace s') = [ConcurrentMapAccess].
Proof.
  apply (registry_lookup_can_race_with_a_write sample_config false 1 1%Z).
  reflexivity.
Defined.

(** X13: the shutdown watcher sends nothing but the notice of
    disconnection, and only when the server's done channel is closed;
    and it sets its read deadline only after the notice was taken from
    the queue. *)
Theorem watcher_sends_only_the_notice_after_shutdown :
  forall cfg done n sched s,
    run cfg sched (init done n) = Some s ->
    (forall m, watcher s = WSend m -> m = notice cfg /\ srv_chDone s = true) /\
    (In (EvSetReadDeadline ByWatcher) (trace s) ->
     In (EvEnqueue (notice cfg)) (trace s) /\ srv_chDone s = true).
Proof.
  intros cfg done n sched s H.
  destruct (reachable_Inv3 _ _ _ _ _ H) as (I & J & K). split.
  - intros m Hm. pose proof (i2_watcher _ _ _ J) as Hw. rewrite Hm in Hw. exact Hw.
  - intros Hin. apply (i3_notice _ _ K). right. exact Hin.
Qed.

Lemma watcher_sends_only_the_notice_after_shutdown_witness :
  exists s : t,
    run sample_config [LMain; LStop; LWatcher true] (init false 1) = Some s /\
    (forall m, watcher s = WSend m -> m = notice sample_config /\ srv_chDone s = true) /\
    (In (EvSetReadDeadline ByWatcher) (trace s) ->
     In (EvEnqueue (notice sample_config)) (trace s) /\ srv_chDone s = true).
Proof.
  eexists. split; [vm_compute; reflexivity|].
  apply (watcher_sends_only_the_notice_after_shutdown sample_config false 1
           [LMain; LStop; LWatcher true]).
  vm_compute. reflexivity.
Defined.

(** ** The registry of requests in flight *)

(** X14: what [GetMessageByID] finds is a request with the message ID
    asked for whose handler has been entered and whose entry has not yet
    been removed: never a request that is finished, and never a request
    that was not yet registered. *)
Theorem GetMessageByID_finds_only_requests_in_flight :
  forall cfg done n sched s id k,
    run cfg sched (init done n) = Some s ->
    GetMessageByID s id = Some k ->
    exists i, invocations s !! k = Some i /\ messageID (inv_message i) = id /\
              (inv_pc i = HServing \/ inv_pc i = HReturning).
Proof.
  intros cfg done n sched s id k H Hg.
  destruct (reachable_Inv3 _ _ _ _ _ H) as (I & J & K).
  unfold GetMessageByID in Hg. destruct (requestList s) as [rl|] eqn:E; [|discriminate].
  exact (i2_registry _ _ _ J rl id k E Hg).
Qed.

Lemma GetMessageByID_finds_only_requests_in_flight_witness :
  exists s : t,
    run sample_config search_in_flight (init false 1) = Some s /\
    exists i, invocations s !! 0 = Some i /\ messageID (inv_message i) = 1%Z /\
              (inv_pc i = HServing \/ inv_pc i = HReturning).
Proof.
  eexists. split; [vm_compute; reflexivity|].
  apply (GetMessageByID_finds_only_requests_in_flight sample_config false 1
           search_in_flight _ 1%Z 0).
  - vm_compute. reflexivity.
  - vm_compute. reflexivity.
Defined.

(** X15: on a session whose registry is made, a request registered
    under an ID is found under it, is no longer found once it is
    unregistered, and neither operation changes what is found under
    another ID. A second request registered under the same ID replaces
    the first, and unregistering the first then removes the entry of the
    second. *)
Theorem registry_round_trip :
  forall s rl id k,
    requestList s = Some rl ->
    GetMessageByID (registerRequest s id k) id = Some k /\
    GetMessageByID (unregisterRequest (registerRequest s id k) id k) id = None /\
    (forall id', id' <> id ->
       GetMessageByID (registerRequest s id k) id' = GetMessageByID s id' /\
       GetMessageByID (unregisterRequest s id k) id' = GetMessageByID s id') /\
    (forall k2,
       GetMessageByID (registerRequest (registerRequest s id k) id k2) id = Some k2 /\
       GetMessageByID
         (unregisterRequest (registerRequest (registerRequest s id k) id k2) id k) id
       = None).
Proof.
  intros s rl id k E.
  unfold GetMessageByID, unregisterRequest, registerRequest; simpl; rewrite E; simpl.
  repeat split; intros.
  - apply lookup_insert_eq.
  - apply lookup_delete_eq.
  - apply lookup_insert_ne. congruence.
  - apply lookup_delete_ne. congruence.
  - apply lookup_insert_eq.
  - apply lookup_delete_eq.
Qed.


Lemma registry_round_trip_witness :
  GetMessageByID
    (registerRequest (serve_prologue sample_config (init false 1)) 7%Z 0) 7%Z = Some 0 /\
  GetMessageByID
    (unregisterRequest
       (registerRequest (serve_prologue sample_config (init false 1)) 7%Z 0) 7%Z 0) 7%Z
  = None.
Proof.
  destruct (registry_round_trip (serve_prologue sample_config (init false 1)) ∅ 7%Z 0)
    as (H1 & H2 & _).
  - reflexivity.
  - split; assumption.
Defined.

(** X12: the first fault that X11 leaves open does occur: for every
    configuration whose hook lets the connection in, there is a run in
    which the server is stopped while [close] is past its wait on the
    handlers' barrier, and the watcher's send panics on the closed
    queue; the connection is then not closed and the server's barrier
    not released. *)
Theorem shutdown_notice_can_meet_the_closed_queue :
  forall cfg done n,
    hook_accepts cfg = true ->
    exists sched s,
      run cfg sched (init done n) = Some s /\
      panicked s = true /\ panics (trace s) = [SendOnClosedChannel] /\
      watcher s = WSend (notice cfg) /\ rwc_closed s = false /\ srv_wg s = n.
Proof.
  intros cfg done n Ha.
  exists ([LMain; LRead (ReadFails ErrEOF); LMain; LMain; LMain; LMain] ++
          (if done then [] else [LStop]) ++ [LWatcher true; LMain; LWatcher true]).
  unfold hook_accepts in Ha.
  destruct cfg as [rt wt onc tls disc unw]; simpl in Ha.
  destruct done, rt, wt, onc as [[|]|]; try discriminate Ha.
  all: eexists; split; [ vm_compute; reflexivity | vm_compute; repeat split; reflexivity ].
Qed.

Lemma shutdown_notice_can_meet_the_closed_queue_witness :
  exists sched s,
    run sample_config sched (init false 1) = Some s /\
    panicked s = true /\ panics (trace s) = [SendOnClosedChannel] /\
    watcher s = WSend (notice sample_config) /\ rwc_closed s = false /\ srv_wg s = 1.
Proof.
  apply (shutdown_notice_can_meet_the_closed_queue sample_config false 1).
  reflexivity.
Defined.

(** X16: when two requests in flight carry the same message ID, the
    return of one removes the registry's entry for that ID: the other
    is still being served, but [GetMessageByID] no longer finds it and
    the sweep of [close] will not reach it. *)
Theorem returning_request_unregisters_its_twin :
  forall cfg s k1 k2 i1 i2,
    panicked s = false ->
    invocations s !! k1 = Some i1 -> inv_pc i1 = HReturning ->
    invocations s !! k2 = Some i2 -> inv_pc i2 = HServing ->
    messageID (inv_message i1) = messageID (inv_message i2) ->
    exists s',
      step cfg (LInvoke k1 HReturn) s = Some s' /\
      invocations s' !! k2 = Some i2 /\
      GetMessageByID s' (messageID (inv_message i2)) = None /\
      forall r, In r (registered s') -> fst r <> messageID (inv_message i2).
Proof.
  intros cfg s k1 k2 i1 i2 Hp H1 P1 H2 P2 E.
  assert (Hne : k1 <> k2) by (intros ->; congruence).
  eexists. split.
  { unfold step, ProcessRequestMessage. rewrite Hp, H1, P1. reflexivity. }
  unfold GetMessageByID, registered, unregisterRequest, set_invocation. simpl.
  split; [rewrite list_lookup_insert_ne by exact Hne; exact H2|].
  rewrite E. destruct (requestList s) as [rl|]; simpl.
  - split; [apply lookup_delete_eq|].
    intros [id k] Hin. apply list_elem_of_In, elem_of_map_to_list in Hin.
    simpl. intros ->.
    rewrite lookup_delete_eq in Hin. discriminate.
  - split; [reflexivity | intros r []].
Qed.

Lemma returning_request_unregisters_its_twin_witness :
  exists (s : t) (i2 : Invocation),
    run sample_config twins_in_flight (init false 1) = Some s /\
    exists s',
      step sample_config (LInvoke 0 HReturn) s = Some s' /\
      invocations s' !! 1 = Some i2 /\
      GetMessageByID s' (messageID (inv_message i2)) = None /\
      forall r, In r (registered s') -> fst r <> messageID (inv_message i2).
Proof.
  eexists. eexists. split; [vm_compute; reflexivity|].
  eapply (returning_request_unregisters_its_twin sample_config _ 0 1).
  - vm_compute. reflexivity.
  - vm_compute. reflexivity.
  - vm_compute. reflexivity.
  - vm_compute. reflexivity.
  - vm_compute. reflexivity.
  - vm_compute. reflexivity.
Defined.

(** ** The outbound queue and the handlers *)

(** X17: as long as a call of [ProcessRequestMessage] has not returned,
    the outbound queue is not closed and [close] does not get past its
    wait on the handlers' barrier; so no step of a handler that is being
    served (a write through the response writer, a poll of [Done], an
    [Abandon] of another request, its return) faults, but for a lookup
    in the registry that runs while another call is about to write it. *)
Theorem queue_is_closed_after_the_last_handler :
  forall (cfg : Config) (done : bool) (n : nat) (sched : list Label) (s : t),
    run cfg sched (init done n) = Some s ->
    forall k i, invocations s !! k = Some i -> inv_pc i <> HExited ->
      is_closed (chanOut s) = false /\
      (pc s = PcClose WaitHandlers -> step cfg LMain s = None) /\
      (forall a s', inv_pc i = HServing ->
         step cfg (LInvoke k a) s = Some s' -> panicked s' = true ->
         (exists id, a = HLookupRace id) /\ lookup_races s = true /\
         panics (trace s') = panics (trace s) ++ [ConcurrentMapAccess]).
Proof.
  intros cfg done n sched s Hrun k i Hk Hne.
  destruct (reachable_Inv2 _ _ _ _ _ Hrun) as [I J].
  pose proof (handler_sees_open_queue _ _ _ _ _ I J Hk Hne) as Ho.
  split; [exact Ho|]. split.
  - intros Hpc. unfold step. rewrite Hpc.
    destruct (panicked s); [reflexivity|]. simpl.
    pose proof (handler_is_counted _ _ _ _ _ J Hk Hne) as Hpos.
    destruct (wg s); [congruence | reflexivity].
  - intros a s' Hpc Hstep.
    step_cases Hstep; rewrite ?panics_app; simpl; intros Hp'; try congruence.
    all: try (exfalso; unfold is_closed in Ho;
              repeat match goal with H : chanOut _ = _ |- _ => rewrite H in Ho end;
              congruence).
    all: try (split; [eexists; reflexivity|]; split; [assumption | reflexivity]).
    all: exfalso;
      match goal with
      | H : invocations _ !! ?k = Some ?i, H' : inv_Done ?i = Some ?c |- _ =>
          destruct (inv_Done_cap _ I k i c H H') as (_ & _ & X)
      end; congruence.
Qed.

Lemma queue_is_closed_after_the_last_handler_witness :
  exists (s : t) (i : Invocation),
    run sample_config search_in_flight (init false 1) = Some s /\
    invocations s !! 0 = Some i /\
    is_closed (chanOut s) = false /\
    (pc s = PcClose WaitHandlers -> step sample_config LMain s = None) /\
    (forall a s', inv_pc i = HServing ->
       step sample_config (LInvoke 0 a) s = Some s' -> panicked s' = true ->
       (exists id, a = HLookupRace id) /\ lookup_races s = true /\
       panics (trace s') = panics (trace s) ++ [ConcurrentMapAccess]).
Proof.
  eexists. eexists. split; [vm_compute; reflexivity|]. split; [vm_compute; reflexivity|].
  eapply (queue_is_closed_after_the_last_handler sample_config false 1 search_in_flight).
  - vm_compute. reflexivity.
  - vm_compute. reflexivity.
  - vm_compute. discriminate.
Defined.

(** ** The end of the teardown *)

Lemma Inv4_init cfg done n : Inv4 cfg (init done n).
Proof. split; simpl; try done; try lia. intros _. left. reflexivity. Qed.

Lemma idle_step cfg n l s s' : step cfg l s = Some s' -> Inv s -> Inv2 cfg n s ->
  Inv4 cfg s -> pump s' = PumpIdle -> pc s' = PcStart \/ hook_accepts cfg = false.
Proof.
  intros H I J K. pose proof (i4_idle _ _ K) as Hi.
  pose proof (i2_rejected _ _ _ J) as Hj. pose proof (inv_nil _ I) as Hn.
  pose proof (inv_start _ I) as Hs.
  step_cases H; try discriminate; intros Hx; try congruence; try exact (Hi Hx).
  all: try (right; unfold hook_accepts;
            match goal with H : onNewConnection _ = _ |- _ => rewrite H end; reflexivity).
  all: destruct (Hi Hx) as [Hp|Hr]; [|right; exact Hr].
  all: try congruence.
  all: try (destruct (Hs Hp) as (_ & _ & _ & _ & Hiv & _);
            rewrite Hiv, lookup_nil in *; discriminate).
Qed.

Lemma pump_exited_step cfg n l s s' : step cfg l s = Some s' -> Inv s -> Inv2 cfg n s ->
  Inv4 cfg s -> pump s' = PumpExited -> is_closed (writeDone s') = true.
Proof.
  intros H I J K. pose proof (i4_exited _ _ K) as He. unfold is_closed in *.
  pose proof (inv_start _ I) as Hs.
  step_cases H; try discriminate; intros Hx; try congruence; try exact (He Hx).
Qed.

Lemma queue_closed_step cfg n l s s' : step cfg l s = Some s' -> Inv s -> Inv2 cfg n s ->
  Inv4 cfg s -> 5 <= progress (pc s') -> is_closed (chanOut s') = true.
Proof.
  intros H I J K. pose proof (inv_inline _ I) as Hi.
  step_cases H; intros Hx; simpl in *; try lia; try reflexivity.
  all: try (pc_rewrite; lia).
  all: try (assert (Hc : is_closed (chanOut s) = true)
              by (apply (i4_closed _ _ K); first [ assumption | pc_rewrite; lia ]);
            unfold is_closed in *;
            repeat match goal with H : chanOut _ = _ |- _ => rewrite H in Hc end;
            repeat match goal with H : chanOut _ = _ |- _ => rewrite H end;
            simpl in *; congruence).
  apply (i4_closed _ _ K). assumption.
Qed.

Lemma Inv4_step cfg n l s s' : step cfg l s = Some s' -> Inv s -> Inv2 cfg n s ->
  Inv4 cfg s -> Inv4 cfg s'.
Proof.
  intros H I J K. split.
  - eapply idle_step; eauto.
  - eapply pump_exited_step; eauto.
  - eapply queue_closed_step; eauto.
Qed.

Lemma own_step_keeps cfg l s s' : own_step l = true -> step cfg l s = Some s' ->
  in_close (pc s) = true ->
  wg s' = wg s /\ watcher s' = watcher s /\ in_close (pc s') = true.
Proof.
  intros Hl H Hc. destruct l; try discriminate Hl.
  - step_cases H; simpl; pc_rewrite; try discriminate; repeat split; try reflexivity;
      assumption.
  - step_cases H; simpl; repeat split; try reflexivity; assumption.
Qed.

Lemma close_advances cfg s s' : step cfg LMain s = Some s' -> in_close (pc s) = true ->
  panicked s' = false ->
  progress (pc s') = S (progress (pc s)) /\ pump s' = pump s.
Proof.
  intros H Hc Hp. step_cases H; simpl in *; try discriminate; pc_rewrite; try discriminate;
    split; reflexivity.
Qed.

Lemma pump_advances cfg io s s' : step cfg (LPump io) s = Some s' -> Inv s ->
  panicked s' = false ->
  pc s' = pc s /\ pump_rank (pump s') < pump_rank (pump s).
Proof.
  intros H I Hp. pose proof (inv_chanOut _ I) as Hb.
  step_cases H; simpl in *; try discriminate;
    repeat match goal with H : pump _ = _ |- _ => rewrite H end; simpl;
    try (split; [reflexivity | lia]).
  all: use_chanOut Hb.
Qed.

(** The session's own goroutine and its write pump do not fault once
    the handlers are done. *)
Lemma settled_step cfg n l s s' :
  hook_accepts cfg = true -> 1 <= n -> settled cfg n s ->
  own_step l = true -> step cfg l s = Some s' -> settled cfg n s'.
Proof.
  intros Ha Hn (I & J & K & C & Hp & Hw & Hc) Hl Hs.
  destruct (own_step_keeps _ _ _ _ Hl Hs Hc) as (Ew & Et & Ec).
  pose proof (calm_step _ _ _ _ _ Hs I J Ha Hn C) as C'.
  split; [exact (Inv_step _ _ _ _ Hs I)|].
  split; [exact (Inv2_step _ _ _ _ _ Hs I J)|].
  split; [exact (Inv4_step _ _ _ _ _ Hs I J K)|].
  split; [exact C'|].
  split; [|split; [congruence | exact Ec]].
  destruct (panicked s') eqn:Ep'; [|reflexivity]. exfalso.
  destruct (fault_step _ _ _ _ _ Hs I J Ha Hn Hp Ep')
    as [((sd & ->) & _)|((k & id & ->) & _)]; discriminate Hl.
Qed.

(** Each of their steps brings the teardown nearer to its end. *)
Lemma own_step_decreases cfg n l s s' :
  hook_accepts cfg = true -> 1 <= n -> settled cfg n s ->
  own_step l = true -> step cfg l s = Some s' ->
  settled cfg n s' /\ teardown_left s' < teardown_left s.
Proof.
  intros Ha Hn St Hl Hs.
  pose proof (settled_step cfg n l s s' Ha Hn St Hl Hs) as St'.
  split; [exact St'|].
  destruct St as (I & J & K & C & Hp & Hw & Hc).
  destruct St' as (_ & _ & _ & _ & Hp' & _).
  destruct l; try discriminate Hl.
  - destruct (close_advances _ _ _ Hs Hc Hp') as [E1 E2].
    unfold teardown_left. rewrite E1, E2.
    pose proof (progress_le_8 (pc s')). lia.
  - destruct (pump_advances _ _ _ _ Hs I Hp') as [E1 E2].
    unfold teardown_left. rewrite E1. lia.
Qed.

Lemma settled_run cfg n :
  hook_accepts cfg = true -> 1 <= n ->
  forall sched s s', settled cfg n s -> forallb own_step sched = true ->
    run cfg sched s = Some s' ->
    settled cfg n s' /\ length sched + teardown_left s' <= teardown_left s.
Proof.
  intros Ha Hn. induction sched as [|l sched IH]; intros s s' St Ho Hr; simpl in *.
  - injection Hr as <-. split; [exact St | lia].
  - apply andb_prop in Ho as [Hl Ho].
    destruct (step cfg l s) as [s1|] eqn:E; [|discriminate].
    destruct (own_step_decreases cfg n l s s1 Ha Hn St Hl E) as [St1 Hlt].
    destruct (IH s1 s' St1 Ho Hr) as [St' Hle].
    split; [exact St' | lia].
Qed.

(** Where [close] waits once the handlers are done: at [<-c.writeDone]
    only, for as long as the write pump has not exited. *)
Lemma close_waits cfg n s : settled cfg n s ->
  step cfg LMain s = None <->
  pc s = PcClosed \/ (pc s = PcClose WaitWriteDone /\ pump s <> PumpExited).
Proof.
  intros (I & J & K & C & Hp & Hw & Hc).
  unfold step. rewrite Hp.
  destruct (pc s) as [| | |st|] eqn:Epc; try discriminate Hc.
  - destruct st; simpl; rewrite ?Hw; simpl.
    all: try (repeat case_match;
              (split; [intros ?; discriminate | intros [?|[? _]]; discriminate]); fail).
    destruct (is_closed (writeDone s)) eqn:E.
    + split; [intros ?; discriminate|]. intros [?|[_ Hx]]; [discriminate|].
      destruct Hx. exact (inv_writeDone _ I E).
    + split; [|reflexivity]. intros _. right. split; [reflexivity|].
      intros Hx. rewrite (i4_exited _ _ K Hx) in E. discriminate.
  - split; [intros _; left; reflexivity | reflexivity].
Qed.

Lemma Inv4_run cfg n sched : forall s s', run cfg sched s = Some s' ->
  Inv s -> Inv2 cfg n s -> Inv4 cfg s -> Inv4 cfg s'.
Proof.
  induction sched as [|l sched IH]; intros s s' H I J K; simpl in H.
  - injection H as <-. exact K.
  - destruct (step cfg l s) as [s1|] eqn:E; [|discriminate].
    eapply IH; eauto using Inv_step, Inv2_step, Inv4_step.
Qed.

Lemma reachable_Inv4 cfg done n sched s :
  run cfg sched (init done n) = Some s -> Inv4 cfg s.
Proof. intros H. eapply Inv4_run; eauto using Inv_init, Inv2_init, Inv4_init. Qed.

(** X18: the end of the teardown, for every schedule of the session's
    own goroutine and of its write pump. From a state a session let in
    by the hook reaches in [close] without a fault, once every handler
    has returned and the watcher is not in the middle of its notice (the
    handlers' barrier is at zero): no step of the two goroutines faults,
    each brings the teardown nearer to its end, so that they take at
    most [teardown_left] steps; and when [close] has returned the write
    pump has exited, the connection is closed and the server's barrier
    released. [close] itself waits in one place only, at
    [<-c.writeDone], for as long as the write pump has not exited: a
    pump that waits on the closed queue exits at once and closes
    [writeDone]; a pump inside [writeMessage] goes back to the queue
    when that call returns. That the call returns is not part of the
    statement: [close] sets no write deadline, and it waits for as long
    as the write to the socket takes. *)
Theorem teardown_waits_only_for_the_write_pump :
  forall cfg done n sched s,
    hook_accepts cfg = true -> 1 <= n ->
    run cfg sched (init done n) = Some s ->
    panicked s = false -> in_close (pc s) = true -> wg s = 0 ->
    (forall sched' s',
       forallb own_step sched' = true -> run cfg sched' s = Some s' ->
       panicked s' = false /\ in_close (pc s') = true /\ wg s' = 0 /\
       length sched' + teardown_left s' <= teardown_left s /\
       (pc s' = PcClosed ->
        pump s' = PumpExited /\ rwc_closed s' = true /\ S (srv_wg s') = n)) /\
    (step cfg LMain s = None <->
     pc s = PcClosed \/ (pc s = PcClose WaitWriteDone /\ pump s <> PumpExited)) /\
    (pc s = PcClose WaitWriteDone ->
     match pump s with
     | PumpRecv =>
         forall io, exists s',
           step cfg (LPump io) s = Some s' /\ pump s' = PumpExited /\
           panicked s' = false /\ is_closed (writeDone s') = true
     | PumpWrite m =>
         forall io s', step cfg (LPump io) s = Some s' ->
           pump s' = PumpRecv /\ socket s' = socket s ++ [sent_frame m io] /\
           panicked s' = false
     | PumpExited => True
     | PumpIdle => False
     end).
Proof.
  intros cfg done n sched s Ha Hn Hrun Hp Hc Hw.
  destruct (reachable_Inv3 _ _ _ _ _ Hrun) as (I & J & _).
  pose proof (reachable_Inv4 _ _ _ _ _ Hrun) as K.
  assert (C : calm cfg s).
  { eapply calm_run; eauto using Inv_init, Inv2_init. left. split; reflexivity. }
  assert (St : settled cfg n s).
  { split; [exact I|]. split; [exact J|]. split; [exact K|]. split; [exact C|].
    split; [exact Hp|]. split; [exact Hw | exact Hc]. }
  split; [|split].
  - intros sched' s' Ho Hr.
    destruct (settled_run cfg n Ha Hn sched' s s' St Ho Hr)
      as [(I' & J' & K' & _ & Hp' & Hw' & Hc') Hle].
    split; [exact Hp'|]. split; [exact Hc'|]. split; [exact Hw'|]. split; [exact Hle|].
    intros Hpc. split; [|split].
    + apply (inv_late _ I'). rewrite Hpc. simpl. lia.
    + apply (i2_rwc _ _ _ J'). rewrite Hpc. simpl. lia.
    + pose proof (i2_srv _ _ _ J') as Hs. rewrite Hpc in Hs. exact Hs.
  - exact (close_waits cfg n s St).
  - intros Hpc.
    assert (Hq : is_closed (chanOut s) = true)
      by (apply (i4_closed _ _ K); rewrite Hpc; simpl; lia).
    unfold is_closed in Hq. destruct (chanOut s) as [c|] eqn:Ec; [|discriminate].
    destruct (inv_chanOut _ I c Ec) as [_ Eb].
    destruct (pump s) as [| |m|] eqn:Epump.
    + destruct (i4_idle _ _ K Epump) as [E|E]; congruence.
    + intros io.
      pose proof (i2_writeDone _ _ _ J (or_introl Epump)) as Ho. unfold is_open in Ho.
      destruct (writeDone s) as [d|] eqn:Ed; [|discriminate].
      destruct (chan_closed d) eqn:Edc; [discriminate|].
      unfold step, pump_step, chan_close. rewrite Hp, Epump, Ec, Eb, Hq, Ed, Edc.
      eexists. split; [reflexivity|]. simpl. repeat split. exact Hp.
    + intros io s' Hs. unfold step, pump_step in Hs. rewrite Hp, Epump in Hs.
      injection Hs as <-. unfold writeMessage.
      destruct (encode_fails io || write_fails io || flush_fails io); simpl;
        repeat split; exact Hp.
    + exact Logic.I.
Qed.

Lemma teardown_waits_only_for_the_write_pump_witness :
  exists s : t,
    run sample_config [LMain; LRead (ReadFails ErrEOF)] (init false 1) = Some s /\
    (forall sched' s',
       forallb own_step sched' = true -> run sample_config sched' s = Some s' ->
       panicked s' = false /\ in_close (pc s') = true /\ wg s' = 0 /\
       length sched' + teardown_left s' <= teardown_left s /\
       (pc s' = PcClosed ->
        pump s' = PumpExited /\ rwc_closed s' = true /\ S (srv_wg s') = 1)) /\
    (step sample_config LMain s = None <->
     pc s = PcClosed \/ (pc s = PcClose WaitWriteDone /\ pump s <> PumpExited)).
Proof.
  eexists. split; [vm_compute; reflexivity|].
  match goal with
  | |- (forall sched' s', _ -> run _ _ ?s = _ -> _) /\ _ =>
      destruct (teardown_waits_only_for_the_write_pump sample_config false 1
                  [LMain; LRead (ReadFails ErrEOF)] s) as (H1 & H2 & _)
  end.
  - reflexivity.
  - lia.
  - vm_compute. reflexivity.
  - reflexivity.
  - reflexivity.
  - reflexivity.
  - split; [exact H1 | exact H2].
Defined.

(** ** A call of [ProcessRequestMessage] goes on to its return *)

Lemma call_advances_ok cfg n s k i :
  Inv s -> Inv2 cfg n s -> panicked s = false ->
  invocations s !! k = Some i -> inv_pc i <> HExited -> call_advances cfg k s.
Proof.
  intros I J Hnp Hk Hne.
  assert (Hlt : k < length (invocations s)) by (eapply lookup_lt_Some; exact Hk).
  assert (Ha : hook_accepts cfg = true).
  { destruct (hook_accepts cfg) eqn:E; [reflexivity|]. exfalso.
    destruct (i2_rejected _ _ _ J E) as (Hc & _).
    destruct (inv_nil _ I Hc) as (_ & Hi & _). rewrite Hi, lookup_nil in Hk. discriminate. }
  destruct (i2_made _ _ _ J (invocation_not_at_start _ _ _ I Hk) Ha) as (_ & _ & Hrl).
  pose proof (handler_is_counted _ _ _ _ _ J Hk Hne) as Hwg.
  exists i. unfold step, ProcessRequestMessage. rewrite Hnp, Hk.
  destruct (inv_pc i) eqn:Epc; [| | | |congruence].
  - unfold registerRequest. simpl.
    destruct (requestList s) as [rl|] eqn:Erl; [|congruence].
    eexists. split; [reflexivity|]. split; [reflexivity|]. split; [exact Hnp|].
    simpl. rewrite list_lookup_insert_eq by exact Hlt.
    unfold GetMessageByID. simpl. rewrite lookup_insert_eq. auto.
  - eexists. split; [reflexivity|]. split; [reflexivity|]. split; [exact Hnp|].
    simpl. rewrite list_lookup_insert_eq by exact Hlt. auto.
  - eexists. split; [reflexivity|]. split; [reflexivity|]. split; [exact Hnp|].
    simpl. rewrite list_lookup_insert_eq by exact Hlt.
    unfold GetMessageByID. simpl.
    destruct (requestList s) as [rl|]; simpl; [rewrite lookup_delete_eq|]; auto.
  - unfold wg_Done. simpl. destruct (wg s) as [|w] eqn:Ew; [congruence|].
    eexists. split; [reflexivity|]. split; [reflexivity|].
    destruct (inv_where i); simpl; rewrite list_lookup_insert_eq by exact Hlt.
    + split; [exact Hnp|]. split; [reflexivity|]. split; [reflexivity|].
      split; [reflexivity|].
      intros r. unfold step. simpl. rewrite Hnp. discriminate.
    + split; [exact Hnp|]. split; [reflexivity|]. split; reflexivity.
Qed.


Lemma all_written_ok_app a b :
  all_written_ok (a ++ b) = all_written_ok a && all_written_ok b.
Proof. apply forallb_app. Qed.

End SessionFacts.

(** * The claims about the teardown, the dispatch and the cancellation *)

Module SessionClaims.
Import Client ClientFacts SessionFacts.
Local Open Scope nat_scope.




(** C4: when the read loop has decoded a request that is not an unbind
    request, it increments the handlers' barrier and hands the request
    to [ProcessRequestMessage]. If the request is an extended request
    named [NoticeOfStartTLS] the call is made on the read loop's own
    goroutine (no goroutine is spawned): in every later state in which
    the call has not returned the loop is inside it and no read is
    enabled. Otherwise the request gets a call in a goroutine of its
    own and the read loop is at its head again, free to read. Either way
    the call keeps its request and its thread, and in every later state
    in which it has not returned and the session has not faulted its
    next step is enabled and does what [ProcessRequestMessage] does
    next: build the [Message] and register it, let the handler return,
    unregister the request, give the barrier back and return; the return
    of a call made by the read loop puts the loop at its head, where it
    can read again. *)
Theorem starttls_is_processed_on_the_read_loop :
  forall (cfg : Config) (done : bool) (n : nat) (sched : list Label) (s : t)
         (m : LDAPMessage) (s' : t),
    run cfg sched (init done n) = Some s ->
    is_unbind m = false ->
    step cfg (LRead (ReadOk m)) s = Some s' ->
    wg s' = S (wg s) /\
    (forall (sched' : list Label) (s'' : t) (i : Invocation),
       run cfg sched' s' = Some s'' ->
       invocations s'' !! length (invocations s) = Some i ->
       inv_message i = m /\
       inv_where i = (if is_starttls cfg m then OnReadLoop else OwnGoroutine) /\
       (inv_pc i <> HExited -> panicked s'' = false ->
        call_advances cfg (length (invocations s)) s'')) /\
    if is_starttls cfg m then
      invocations s' = invocations s ++ [new_invocation m OnReadLoop] /\
      pc s' = PcInline (length (invocations s)) /\
      (exists pre, trace s' = pre ++ [EvCall (length (invocations s))]) /\
      (forall (sched' : list Label) (s'' : t) (i : Invocation),
         run cfg sched' s' = Some s'' ->
         invocations s'' !! length (invocations s) = Some i ->
         inv_pc i <> HExited ->
         pc s'' = PcInline (length (invocations s)) /\
         forall r, step cfg (LRead r) s'' = None)
    else
      invocations s' = invocations s ++ [new_invocation m OwnGoroutine] /\
      pc s' = PcRead /\
      (exists pre, trace s' = pre ++ [EvGo (length (invocations s))]) /\
      (forall r, exists s'', step cfg (LRead r) s' = Some s'').
Proof.
  intros cfg done n sched s m s' Hrun Hm Hstep.
  destruct (reachable_Inv2 _ _ _ _ _ Hrun) as [I J].
  pose proof (Inv_step _ _ _ _ Hstep I) as I'.
  pose proof (Inv2_step _ _ _ _ _ Hstep I J) as J'.
  pose proof (read_needs_PcRead _ _ _ _ Hstep) as Hpc.
  pose proof Hstep as Hstep0.
  unfold step in Hstep. rewrite Hpc in Hstep.
  destruct (panicked s) eqn:Hnp; [discriminate|]. injection Hstep as Hs'.
  unfold read_iteration in Hs'. rewrite Hm in Hs'.
  assert (Hcall : forall w, invocations s' = invocations s ++ [new_invocation m w] ->
            forall (sched' : list Label) (s'' : t) (i : Invocation),
              run cfg sched' s' = Some s'' ->
              invocations s'' !! length (invocations s) = Some i ->
              inv_message i = m /\ inv_where i = w /\
              (inv_pc i <> HExited -> panicked s'' = false ->
               call_advances cfg (length (invocations s)) s'')).
  { intros w Hinv sched' s'' i Hrun' Hk.
    assert (Hk' : invocations s' !! length (invocations s) = Some (new_invocation m w)).
    { rewrite Hinv. apply list_lookup_middle. reflexivity. }
    destruct (stable_run _ _ _ _ _ _ Hrun' Hk') as (i2 & Hk2 & Hw2 & Hm2).
    rewrite Hk in Hk2. injection Hk2 as <-.
    split; [exact Hm2|]. split; [exact Hw2|].
    intros Hne Hnp''.
    destruct (Inv2_run _ _ _ _ _ Hrun' I' J') as [I'' J''].
    exact (call_advances_ok _ _ _ _ _ I'' J'' Hnp'' Hk Hne). }
  destruct (is_starttls cfg m) eqn:Htls.
  - assert (Hshape : wg s' = S (wg s) /\
        invocations s' = invocations s ++ [new_invocation m OnReadLoop] /\
        pc s' = PcInline (length (invocations s)) /\
        exists pre, trace s' = pre ++ [EvCall (length (invocations s))]).
    { subst s'. destruct (ReadTimeout cfg =? 0)%Z, (WriteTimeout cfg =? 0)%Z; simpl;
        repeat split; try reflexivity; eexists; reflexivity. }
    destruct Hshape as (Hwg & Hinv & Hpc' & Htr).
    split; [exact Hwg|]. split; [exact (Hcall _ Hinv)|].
    split; [exact Hinv|]. split; [exact Hpc'|]. split; [exact Htr|].
    intros sched' s'' i Hrun' Hk Hne.
    destruct (Hcall _ Hinv _ _ _ Hrun' Hk) as (_ & Hw & _).
    pose proof (Inv_run _ _ _ _ Hrun' I') as I''.
    pose proof (inv_inline _ I'' _ _ Hk Hw Hne) as Hin.
    split; [exact Hin|]. intros r.
    apply no_read_unless_PcRead. rewrite Hin. discriminate.
  - assert (Hshape : wg s' = S (wg s) /\
        invocations s' = invocations s ++ [new_invocation m OwnGoroutine] /\
        pc s' = PcRead /\ panicked s' = false /\
        exists pre, trace s' = pre ++ [EvGo (length (invocations s))]).
    { subst s'. destruct (ReadTimeout cfg =? 0)%Z, (WriteTimeout cfg =? 0)%Z; simpl;
        repeat split; try reflexivity; try assumption; eexists; reflexivity. }
    destruct Hshape as (Hwg & Hinv & Hpc' & Hnp' & Htr).
    split; [exact Hwg|]. split; [exact (Hcall _ Hinv)|].
    split; [exact Hinv|]. split; [exact Hpc'|]. split; [exact Htr|].
    intros r. unfold step. rewrite Hnp', Hpc'. eexists. reflexivity.
Qed.

Lemma starttls_is_processed_on_the_read_loop_witness :
  exists s s' s'' s3 : t,
    run sample_config [LMain] (init false 1) = Some s /\
    step sample_config (LRead (ReadOk starttls3)) s = Some s' /\
    run sample_config [LInvoke 0 HReturn; LInvoke 0 HReturn; LInvoke 0 HReturn] s'
    = Some s'' /\
    step sample_config (LInvoke 0 HReturn) s'' = Some s3 /\
    pc s'' = PcInline 0 /\ pc s3 = PcRead /\ wg s3 = wg s /\
    wg s' = S (wg s) /\
    (forall (sched' : list Label) (s'' : t) (i : Invocation),
       run sample_config sched' s' = Some s'' ->
       invocations s'' !! length (invocations s) = Some i ->
       inv_message i = starttls3 /\
       inv_where i = OnReadLoop /\
       (inv_pc i <> HExited -> panicked s'' = false ->
        call_advances sample_config (length (invocations s)) s'')) /\
    invocations s' = invocations s ++ [new_invocation starttls3 OnReadLoop] /\
    pc s' = PcInline (length (invocations s)) /\
    (exists pre, trace s' = pre ++ [EvCall (length (invocations s))]) /\
    (forall (sched' : list Label) (s'' : t) (i : Invocation),
       run sample_config sched' s' = Some s'' ->
       invocations s'' !! length (invocations s) = Some i ->
       inv_pc i <> HExited ->
       pc s'' = PcInline (length (invocations s)) /\
       forall r, step sample_config (LRead r) s'' = None).
Proof.
  eexists. eexists. eexists. eexists. split.
  { vm_compute. reflexivity. }
  split.
  { vm_compute. reflexivity. }
  split.
  { vm_compute. reflexivity. }
  split.
  { vm_compute. reflexivity. }
  split; [reflexivity|]. split; [reflexivity|]. split; [reflexivity|].
  match goal with
  | |- wg ?s' = S (wg ?s) /\ _ =>
      exact (starttls_is_processed_on_the_read_loop sample_config false 1 [LMain] s
               starttls3 s' eq_refl eq_refl eq_refl)
  end.
Defined.

(** C6 (counterexample): a search is in flight and the client has
    abandoned it twice; the two signals wait in its cancellation channel,
    which is full. The handler of a third abandon request is then
    blocked in its post, and when [close] sweeps the registry, so is the
    goroutine it starts for the search. *)
Lemma third_signal_blocks_its_poster :
  ~ posting_never_blocks /\
  exists s : t,
    run sample_config
      (two_abandons_posted ++ [LRead (ReadFails ErrEOF); LMain; LMain; LMain])
      (init false 1) = Some s /\
    panicked s = false /\
    GetMessageByID s 1%Z = Some 0 /\ abandons s !! 3 = Some (0, false) /\
    (signals <$> invocations s !! 0) = Some 2 /\
    step sample_config (LInvoke 3 (HAbandon 1%Z)) s = None /\
    step sample_config (LAbandon 3) s = None.
Proof.
  split.
  - intros H.
    destruct (run sample_config two_abandons_posted (init false 1)) as [s|] eqn:E;
      [|vm_compute in E; discriminate].
    pose proof (H _ _ _ _ _ E) as H'. vm_compute in E. injection E as <-.
    destruct H' as [_ Hhandler]; [reflexivity|].
    eapply (Hhandler 3 _ 1%Z 0); reflexivity.
  - eexists. split; [vm_compute; reflexivity|].
    repeat split; vm_compute; reflexivity.
Qed.

(** C6 (amended): [ProcessRequestMessage] creates the cancellation
    channel [Done] of every request with capacity two, and the channel
    of every request that has been entered keeps that capacity, holds at
    most two signals and is never closed. A post on it -- by a handler
    that abandons the request for the client, or by the goroutine the
    sweep of [close] started for it -- goes through at once, with nobody
    receiving, exactly when fewer than two signals wait in it: then it
    adds one signal and does nothing else; when two signals wait the
    poster is blocked. So the first two signals never block their
    poster, a third one does. The teardown goroutine is never blocked: the
    sweep posts nothing itself, it starts one goroutine for each
    registered request and goes on. *)
Theorem cancellation_channel_holds_two_signals :
  forall (cfg : Config) (done : bool) (n : nat) (sched : list Label) (s : t),
    run cfg sched (init done n) = Some s ->
    (forall i : Invocation, inv_Done (new_Message i) = Some (make_chan 2)) /\
    (forall k i, invocations s !! k = Some i -> inv_pc i <> HEntered ->
       exists c, inv_Done i = Some c /\ chan_cap c = 2 /\ length (chan_buf c) <= 2 /\
                 chan_closed c = false) /\
    (panicked s = false ->
     forall j k, abandons s !! j = Some (k, false) ->
       exists i c, invocations s !! k = Some i /\ inv_Done i = Some c /\
         if length (chan_buf c) <? 2
         then exists s', step cfg (LAbandon j) s = Some s' /\ posted s s' k i c /\
                         abandons s' = <[j := (k, true)]> (abandons s)
         else step cfg (LAbandon j) s = None) /\
    (panicked s = false ->
     forall k0 i0 id k, invocations s !! k0 = Some i0 -> inv_pc i0 = HServing ->
       GetMessageByID s id = Some k ->
       exists i c, invocations s !! k = Some i /\ messageID (inv_message i) = id /\
         inv_Done i = Some c /\
         if length (chan_buf c) <? 2
         then exists s', step cfg (LInvoke k0 (HAbandon id)) s = Some s' /\
                         posted s s' k i c
         else step cfg (LInvoke k0 (HAbandon id)) s = None) /\
    (exists c1 c2 : chan bool,
       Abandon (Some (make_chan 2)) = SendBuffered c1 /\
       Abandon (Some c1) = SendBuffered c2 /\ Abandon (Some c2) = SendBlocked) /\
    (panicked s = false -> pc s = PcClose Sweep ->
     exists s', step cfg LMain s = Some s' /\ pc s' = PcClose WaitHandlers /\
                panicked s' = false /\ invocations s' = invocations s /\
                abandons s' = abandons s ++ map (fun r => (snd r, false)) (registered s)).
Proof.
  intros cfg done n sched s Hrun.
  pose proof (reachable_Invs _ _ _ _ _ Hrun) as V.
  split; [intros i; reflexivity|].
  split; [intros k i Hk Hp; exact (Done_of_entered _ _ _ _ _ V Hk Hp)|].
  split; [|split; [|split]].
  - intros Hnp j k Hj.
    destruct (i5_abandons _ (invs_5 _ _ _ V) _ _ _ Hj) as (i & Hk & Hp).
    destruct (post_goes_through_or_blocks cfg n s k i (LAbandon j) V Hnp Hk Hp)
      as (c & Hd & Hpost); [left; exists j; auto|].
    exists i, c. split; [exact Hk|]. split; [exact Hd|].
    destruct (length (chan_buf c) <? 2); [|exact Hpost].
    destruct Hpost as (s' & Hs & Hposted). exists s'. split; [exact Hs|].
    split; [exact Hposted|].
    unfold step, abandon_step in Hs. rewrite Hnp, Hj in Hs.
    destruct (post_Abandon s k) as [s1|] eqn:E; [|discriminate].
    injection Hs as <-. simpl. f_equal.
    unfold post_Abandon in E. rewrite Hk in E.
    destruct (Abandon (inv_Done i)); simplify_eq/=; reflexivity.
  - intros Hnp k0 i0 id k Hk0 Hp0 Hg.
    unfold GetMessageByID in Hg. destruct (requestList s) as [rl|] eqn:Erl; [|discriminate].
    destruct (i2_registry _ _ _ (invs_2 _ _ _ V) _ _ _ Erl Hg) as (i & Hk & Hid & Hp).
    assert (Hne : inv_pc i <> HEntered) by (destruct Hp; congruence).
    destruct (post_goes_through_or_blocks cfg n s k i (LInvoke k0 (HAbandon id))
                V Hnp Hk Hne) as (c & Hd & Hpost).
    { right. exists k0, i0, id. unfold GetMessageByID. rewrite Erl. auto. }
    exists i, c. auto.
  - eexists. eexists. repeat split; reflexivity.
  - intros Hnp Hpc. unfold step. rewrite Hnp, Hpc. simpl.
    eexists. split; [reflexivity|]. simpl. repeat split. assumption.
Qed.

Lemma cancellation_channel_holds_two_signals_witness :
  exists s : t,
    run sample_config search_at_the_sweep (init false 1) = Some s /\
    (forall k i, invocations s !! k = Some i -> inv_pc i <> HEntered ->
       exists c, inv_Done i = Some c /\ chan_cap c = 2 /\ length (chan_buf c) <= 2 /\
                 chan_closed c = false) /\
    (exists s', step sample_config LMain s = Some s' /\ pc s' = PcClose WaitHandlers /\
                panicked s' = false /\ invocations s' = invocations s /\
                abandons s' = abandons s ++ map (fun r => (snd r, false)) (registered s)).
Proof.
  eexists. split.
  { vm_compute. reflexivity. }
  match goal with
  | |- _ /\ (exists s', step _ _ ?s = _ /\ _) =>
      destruct (cancellation_channel_holds_two_signals sample_config false 1
                  search_at_the_sweep s)
        as (_ & H2 & _ & _ & _ & H6)
  end.
  { vm_compute. reflexivity. }
  split; [exact H2 | apply H6; reflexivity].
Defined.

End SessionClaims.
